(** * ete_dev.coretype.tree: the TreeNode model and its structural algorithms

    A shallow embedding of [src/ete_dev/coretype/tree.py].  Nodes are Python
    objects that point at each other (children lists and [up] links), so the
    program state is an arena of node records indexed by the node's identity;
    mutating methods thread the arena and may raise.  Loops ([while], and the
    generators behind [traverse]) are bounded by a fuel argument; running out
    of fuel is a third outcome, distinct from returning and from raising. *)

From Stdlib Require Import QArith Qcanon Floats.
From stdpp Require Import base decidable option list gmap strings sorting.

Set Warnings "-register-all,-inexact-float".

(** ** Branch lengths and supports: Python floats

    The numeric fields are Python floats.  The model is written against the
    operations the source uses, so it runs unchanged on IEEE binary64
    (instance [float_num]) and on exact rationals (instance [Qc_num]).
    Statements that need arithmetic to be exact say so with [ExactNum]. *)

Class Num := {
  F : Type;
  f0 : F;                        (* the literal 0.0 *)
  f1 : F;                        (* the literal 1.0 *)
  fadd : F -> F -> F;
  fsub : F -> F -> F;
  fmul : F -> F -> F;
  fdiv : F -> F -> F;
  of_nat : nat -> F              (* an int operand coerced to float *)
}.

Class ExactNum (N : Num) : Prop := {
  fadd_comm : forall a b : F, fadd a b = fadd b a;
  fadd_assoc : forall a b c : F, fadd a (fadd b c) = fadd (fadd a b) c;
  fadd_0_l : forall a : F, fadd f0 a = a;
  fsub_add : forall a b : F, fadd (fsub a b) b = a;
  fmul_0_l : forall a : F, fmul f0 a = f0;
  fmul_1_l : forall a : F, fmul f1 a = a;
  fmul_add_distr_r : forall a b c : F, fmul (fadd a b) c = fadd (fmul a c) (fmul b c);
  of_nat_1 : of_nat 1 = f1;
  fdiv_1 : forall a : F, fdiv a (of_nat 1) = a
}.

Definition float_num : Num := {|
  F := float;
  f0 := 0%float;
  f1 := 1%float;
  fadd := PrimFloat.add;
  fsub := PrimFloat.sub;
  fmul := PrimFloat.mul;
  fdiv := PrimFloat.div;
  of_nat := fun n => PrimFloat.of_uint63 (Uint63.of_Z (Z.of_nat n))
|}.

Definition Qc_num : Num := {|
  F := Qc;
  f0 := 0%Qc;
  f1 := 1%Qc;
  fadd := Qcplus;
  fsub := Qcminus;
  fmul := Qcmult;
  fdiv := Qcdiv;
  of_nat := fun n => Q2Qc (inject_Z (Z.of_nat n))
|}.

(** [>=] on floats, which the methods that look for a farthest node use *)
Class NumOrd (N : Num) := {
  fge : @F N -> @F N -> bool
}.

Definition float_ord : NumOrd float_num :=
  @Build_NumOrd float_num (fun a b => PrimFloat.leb b a).

(** ** Outcomes *)

Inductive exn :=
  ValueError | IndexError | KeyError | TypeError | AttributeError | NameError | TreeError.

Inductive res (A : Type) :=
| Ok (a : A)
| Raise (e : exn)
| OutOfFuel.
Arguments Ok {A} a.
Arguments Raise {A} e.
Arguments OutOfFuel {A}.

Definition rbind {A B} (r : res A) (k : A -> res B) : res B :=
  match r with
  | Ok a => k a
  | Raise e => Raise e
  | OutOfFuel => OutOfFuel
  end.

Definition rmap {A B} (f : A -> B) (r : res A) : res B := rbind r (fun a => Ok (f a)).

Notation "'let?' x ':=' c 'in' k" := (rbind c (fun x => k))
  (at level 10, x pattern, c at level 100, k at level 200).

(** [d[k]] on a dict, [l[0]] on a list *)
Definition or_raise {A} (e : exn) (o : option A) : res A :=
  match o with Some a => Ok a | None => Raise e end.

(** ** Tree shapes

    The statements below are about arenas that hold a tree.  A [tree] is the
    shape of one: node identities, children in order. *)

Abbreviation node := nat (only parsing).

Inductive tree := T (n : node) (ks : list tree).

Definition root (t : tree) : node := match t with T n _ => n end.
Definition kids (t : tree) : list tree := match t with T _ ks => ks end.

(** the nodes of a tree, a node before its descendants *)
Fixpoint ids (t : tree) : list node :=
  match t with T n ks => n :: flat_map ids ks end.

(** the nodes of a tree, a node after its descendants *)
Fixpoint post (t : tree) : list node :=
  match t with T n ks => flat_map post ks ++ [n] end.

Fixpoint size (t : tree) : nat :=
  match t with T _ ks => S (list_sum (map size ks)) end.

Fixpoint leaves (t : tree) : list node :=
  match t with
  | T n [] => [n]
  | T _ ks => flat_map leaves ks
  end.

(** no node has exactly one child *)
Fixpoint no_unary (t : tree) : bool :=
  match t with
  | T _ ks => negb (bool_decide (length ks = 1)) && forallb no_unary ks
  end.

(** [subtree u t]: [u] is [t] or sits somewhere below it *)
Inductive subtree (u : tree) : tree -> Prop :=
| subtree_here : subtree u u
| subtree_kid n ks k : k ∈ ks -> subtree u k -> subtree u (T n ks).

(** [path x t l]: [l] lists the subtrees of [t] that hold [x], from the one
    rooted at [x] up to [t] itself *)
Inductive path (x : node) : tree -> list tree -> Prop :=
| path_here ks : path x (T x ks) [T x ks]
| path_kid n ks k l : k ∈ ks -> path x k l -> path x (T n ks) (l ++ [T n ks]).

(** [replaced u u' t t']: [t'] is [t] with one occurrence of the subtree [u]
    replaced by [u'] *)
Inductive replaced (u u' : tree) : tree -> tree -> Prop :=
| replaced_here : replaced u u' u u'
| replaced_kid n ks1 k k' ks2 :
    replaced u u' k k' ->
    replaced u u' (T n (ks1 ++ k :: ks2)) (T n (ks1 ++ k' :: ks2)).

(** [chain prev l]: each tree of [prev :: l] is a child of the next one *)
Fixpoint chain (prev : tree) (l : list tree) : Prop :=
  match l with
  | [] => True
  | t1 :: l' => prev ∈ kids t1 /\ chain t1 l'
  end.

(** [rerooted prev l conn]: the trees of [l], each a child of the next, turned
    upside down: every one loses the child it is entered from ([prev] for
    the first) and gains the next one as its last child; [conn] hangs from
    the last. *)
Fixpoint rerooted (prev : tree) (l : list tree) (conn : tree) : tree :=
  match l with
  | [] => conn
  | t1 :: l' =>
      T (root t1) (filter (fun k => root k <> root prev) (kids t1) ++ [rerooted t1 l' conn])
  end.

(** the tree under the connector of [set_outgroup]: the other child of the
    root when there is one, a new node [fresh] over the others otherwise *)
Definition connector_tree (fresh : node) (sibs : list tree) : tree :=
  match sibs with
  | [z] => z
  | _ => T fresh sibs
  end.

(** the loop iterations of the postorder generator over a tree *)
Fixpoint steps (t : tree) : nat :=
  match t with T _ ks => S (list_sum (map (fun k => S (steps k)) ks)) end.

Section Model.
Context {N : Num}.

(** ** The arena *)

Record TreeNode := mkTreeNode {
  _children : list node;
  _up : option node;
  _dist : F;
  _support : F;
  name : string
}.

Abbreviation store := (list TreeNode) (only parsing).

(** [TreeNode.__init__] with no newick *)
Definition new_node : TreeNode :=
  {| _children := []; _up := None; _dist := f1; _support := f1; name := "NoName"%string |}.

(** A reference always denotes a live object; the default is never read
    through a reference that was obtained from the arena. *)
Definition obj (s : store) (n : node) : TreeNode := default new_node (s !! n).

Definition children (s : store) (n : node) : list node := _children (obj s n).
Definition up (s : store) (n : node) : option node := _up (obj s n).
Definition dist (s : store) (n : node) : F := _dist (obj s n).
Definition support (s : store) (n : node) : F := _support (obj s n).
Definition name_of (s : store) (n : node) : string := name (obj s n).

Definition with_children (v : list node) (o : TreeNode) : TreeNode :=
  mkTreeNode v (_up o) (_dist o) (_support o) (name o).
Definition with_up (v : option node) (o : TreeNode) : TreeNode :=
  mkTreeNode (_children o) v (_dist o) (_support o) (name o).
Definition with_dist (v : F) (o : TreeNode) : TreeNode :=
  mkTreeNode (_children o) (_up o) v (_support o) (name o).
Definition with_support (v : F) (o : TreeNode) : TreeNode :=
  mkTreeNode (_children o) (_up o) (_dist o) v (name o).
Definition with_name (v : string) (o : TreeNode) : TreeNode :=
  mkTreeNode (_children o) (_up o) (_dist o) (_support o) v.

Definition set_children (n : node) (v : list node) (s : store) : store :=
  alter (with_children v) n s.
Definition set_up (n : node) (v : option node) (s : store) : store :=
  alter (with_up v) n s.
Definition set_dist (n : node) (v : F) (s : store) : store :=
  alter (with_dist v) n s.
Definition set_support (n : node) (v : F) (s : store) : store :=
  alter (with_support v) n s.
Definition set_name (n : node) (v : string) (s : store) : store :=
  alter (with_name v) n s.

(** ** Mutating methods: state and exceptions

    A raised exception keeps the mutations made before it. *)

Definition M (A : Type) : Type := store -> store * res A.

Definition ret {A} (a : A) : M A := fun s => (s, Ok a).
Definition raise {A} (e : exn) : M A := fun s => (s, Raise e).
Definition bind {A B} (m : M A) (k : A -> M B) : M B :=
  fun s =>
    match m s with
    | (s', Ok a) => k a s'
    | (s', Raise e) => (s', Raise e)
    | (s', OutOfFuel) => (s', OutOfFuel)
    end.
Definition read {A} (f : store -> A) : M A := fun s => (s, Ok (f s)).
Definition write (f : store -> store) : M unit := fun s => (f s, Ok tt).
Definition lift {A} (f : store -> res A) : M A := fun s => (s, f s).

Notation "'let!' x ':=' c 'in' k" := (bind c (fun x => k))
  (at level 10, x pattern, c at level 100, k at level 200).
Notation "c ';;' k" := (bind c (fun _ => k))
  (at level 100, k at level 200, right associativity).

(** [for x in l: body x] *)
Fixpoint for_each {A} (l : list A) (body : A -> M unit) : M unit :=
  match l with
  | [] => ret tt
  | x :: l' => body x ;; for_each l' body
  end.

(** [self.__class__()] *)
Definition alloc : M node := fun s => (s ++ [new_node], Ok (length s)).

(** [l.remove(x)]: drops the first occurrence, [None] when there is none
    (Python raises ValueError). *)
Fixpoint list_remove (x : node) (l : list node) : option (list node) :=
  match l with
  | [] => None
  | y :: l' => if decide (x = y) then Some l' else cons y <$> list_remove x l'
  end.

(** [n.children.remove(x)] *)
Definition children_remove (n x : node) : M unit :=
  fun s =>
    match list_remove x (children s n) with
    | Some l => (set_children n l s, Ok tt)
    | None => (s, Raise ValueError)
    end.

(** [n.children.append(x)] *)
Definition children_append (n x : node) : M unit :=
  write (fun s => set_children n (children s n ++ [x]) s).

(** ** Topology management *)

(** [add_child]: the overrides go through [add_feature], that is, through the
    properties' setters.  The ancestry test is commented out in the source
    ("it would take too much time to check it every time a node is creted"),
    so nothing is checked before the append. *)
Definition add_child (self : node) (child : option node)
    (nm : option string) (d sp : option F) : M node :=
  let! child := (match child with Some c => ret c | None => alloc end) in
  (match nm with Some v => write (set_name child v) | None => ret tt end) ;;
  (match d with Some v => write (set_dist child v) | None => ret tt end) ;;
  (match sp with Some v => write (set_support child v) | None => ret tt end) ;;
  children_append self child ;;
  write (set_up child (Some self)) ;;
  ret child.

(** [remove_child]: the ValueError of [list.remove] is re-raised as TreeError. *)
Definition remove_child (self child : node) : M node :=
  fun s =>
    match list_remove child (children s self) with
    | None => (s, Raise TreeError)
    | Some l => (set_up child None (set_children self l s), Ok child)
    end.

(** [for ch in self.children: parent.add_child(ch)]: the loop walks the live
    list by index, and [add_child] appends to the parent's list. *)
Fixpoint delete_reparent (fuel i : nat) (self parent : node) : M unit :=
  fun s =>
    match children s self !! i with
    | None => (s, Ok tt)
    | Some ch =>
        match fuel with
        | 0 => (s, OutOfFuel)
        | S fuel' =>
            (add_child parent (Some ch) None None None ;;
             delete_reparent fuel' (S i) self parent) s
        end
    end.

(** [delete(prevent_nondicotomic=False)]: the body up to the cascade. *)
Definition delete_plain (fuel : nat) (self : node) : M unit :=
  let! parent := read (fun s => up s self) in
  match parent with
  | Some p =>
      delete_reparent fuel 0 self p ;;
      remove_child p self ;;
      ret tt
  | None => ret tt
  end.

(** [delete]: the cascade calls [parent.delete(prevent_nondicotomic=False)],
    so it is one level deep.  [parent] is read once, before the surgery. *)
Definition delete (fuel : nat) (self : node) (prevent_nondicotomic : bool) : M unit :=
  let! parent := read (fun s => up s self) in
  delete_plain fuel self ;;
  match parent with
  | Some p =>
      let! n := read (fun s => length (children s p)) in
      if prevent_nondicotomic && bool_decide (n < 2) then delete_plain fuel p else ret tt
  | None => ret tt
  end.

(** [detach] *)
Definition detach (self : node) : M node :=
  let! parent := read (fun s => up s self) in
  match parent with
  | Some p => children_remove p self ;; write (set_up self None) ;; ret self
  | None => ret self
  end.

(** [is_leaf] *)
Definition is_leaf (s : store) (n : node) : bool :=
  bool_decide (length (children s n) = 0).

(** ** Traversal *)

(** [collections.deque.popleft]: it takes no argument; called with one it
    raises TypeError before looking at the deque. *)
Definition deque_popleft (args : list nat) (d : list node) : exn + node * list node :=
  match args with
  | _ :: _ => inl TypeError
  | [] => match d with [] => inl IndexError | x :: d' => inr (x, d') end
  end.

(** [_iter_descendants_preorder]: [extendleft] pushes the children one by one
    on the left, [popleft(0)] is what the source calls, and the bare [except]
    turns any exception into the end of the iteration. *)
Fixpoint _iter_descendants_preorder_loop (fuel : nat) (s : store)
    (to_visit : list node) (nd : option node) : res (list node) :=
  match nd with
  | None => Ok []
  | Some n =>
      match fuel with
      | 0 => OutOfFuel
      | S fuel' =>
          let to_visit := rev (children s n) ++ to_visit in
          let next :=
            match deque_popleft [0] to_visit with
            | inr (x, d') => (Some x, d')
            | inl _ => (None, to_visit)
            end in
          rmap (cons n) (_iter_descendants_preorder_loop fuel' s next.2 next.1)
      end
  end.

Definition _iter_descendants_preorder (fuel : nat) (s : store) (self : node) : res (list node) :=
  _iter_descendants_preorder_loop fuel s [] (Some self).

(** [_iter_descendants_levelorder] *)
Fixpoint _iter_descendants_levelorder_loop (fuel : nat) (s : store)
    (tovisit : list node) : res (list node) :=
  match tovisit with
  | [] => Ok []
  | current :: rest =>
      match fuel with
      | 0 => OutOfFuel
      | S fuel' =>
          rmap (cons current)
            (_iter_descendants_levelorder_loop fuel' s (rest ++ children s current))
      end
  end.

Definition _iter_descendants_levelorder (fuel : nat) (s : store) (self : node) : res (list node) :=
  _iter_descendants_levelorder_loop fuel s [self].

(** [_iter_descendants_postorder]: [current] becomes [None] above a root; if
    [end] is not [None] by then, the next [current.children] raises. *)
Fixpoint _iter_descendants_postorder_loop (fuel : nat) (s : store)
    (endn current : option node) (visited_childs : list node) : res (list node) :=
  if decide (current = endn) then Ok [] else
  match fuel with
  | 0 => OutOfFuel
  | S fuel' =>
      match current with
      | None => Raise AttributeError
      | Some cur =>
          match find (fun c => bool_decide (c ∉ visited_childs)) (children s cur) with
          | Some c => _iter_descendants_postorder_loop fuel' s endn (Some c) visited_childs
          | None =>
              rmap (cons cur)
                (_iter_descendants_postorder_loop fuel' s endn (up s cur) (cur :: visited_childs))
          end
      end
  end.

Definition _iter_descendants_postorder (fuel : nat) (s : store) (self : node) : res (list node) :=
  _iter_descendants_postorder_loop fuel s (up s self) (Some self) [].

(** [traverse]: a generator for the three known strategies; for any other
    string no branch is taken and the method returns [None]. *)
Definition traverse (fuel : nat) (s : store) (self : node) (strategy : string)
    : option (res (list node)) :=
  if decide (strategy = "preorder"%string) then Some (_iter_descendants_preorder fuel s self)
  else if decide (strategy = "levelorder"%string) then Some (_iter_descendants_levelorder fuel s self)
  else if decide (strategy = "postorder"%string) then Some (_iter_descendants_postorder fuel s self)
  else None.

(** [for n in g]: iterating [None] raises TypeError. *)
Definition iterate (g : option (res (list node))) : res (list node) :=
  match g with
  | Some r => r
  | None => Raise TypeError
  end.

(** [iter_leaves] / [get_leaves] *)
Definition get_leaves (fuel : nat) (s : store) (self : node) : res (list node) :=
  let? l := iterate (traverse fuel s self "preorder") in
  Ok (filter (fun n => is_leaf s n = true) l).

(** [iter_descendants] / [get_descendants] *)
Definition get_descendants (fuel : nat) (s : store) (self : node) (strategy : string)
    : res (list node) :=
  let? l := iterate (traverse fuel s self strategy) in
  Ok (filter (fun n => n <> self) l).

(** [search_nodes(name=nm)]: [traverse()] with its default strategy. *)
Definition search_nodes (fuel : nat) (s : store) (self : node) (nm : string) : res (list node) :=
  let? l := iterate (traverse fuel s self "levelorder") in
  Ok (filter (fun n => name_of s n = nm) l).

(** [get_tree_root] *)
Fixpoint get_tree_root (fuel : nat) (s : store) (root : node) : res node :=
  match up s root with
  | None => Ok root
  | Some p => match fuel with 0 => OutOfFuel | S fuel' => get_tree_root fuel' s p end
  end.

(** ** Name resolution *)

(** An argument that names a node: a string or a node instance. *)
Inductive pyarg :=
| ByName (nm : string)
| ByNode (n : node).

(** What [_translate_nodes] returns: the node itself for one argument, a list
    otherwise. *)
Inductive translated :=
| Single (n : node)
| Many (l : list node).

Fixpoint translate_each (fuel : nat) (s : store) (root : node) (nodes : list pyarg)
    : res (list node) :=
  match nodes with
  | [] => Ok []
  | a :: rest =>
      let? n :=
        match a with
        | ByName nm =>
            let? mnodes := search_nodes fuel s root nm in
            match mnodes with
            | [] => Raise ValueError
            | [x] => Ok x
            | _ :: _ :: _ => Raise ValueError
            end
        | ByNode n => Ok n
        end in
      let? l := translate_each fuel s root rest in
      Ok (n :: l)
  end.

Definition _translate_nodes (fuel : nat) (s : store) (root : node) (nodes : list pyarg)
    : res translated :=
  let? target_nodes := translate_each fuel s root nodes in
  match target_nodes with
  | [x] => Ok (Single x)
  | _ => Ok (Many target_nodes)
  end.

(** ** Common ancestor and distance

    Python sets of nodes are lists here; only membership is ever asked. *)

(** [[n for s in current.children for n in s.traverse() if s is not prev_node]] *)
Fixpoint nodes_under (fuel : nat) (s : store) (prev_node : node) (chs : list node)
    : res (list node) :=
  match chs with
  | [] => Ok []
  | c :: rest =>
      let? l := iterate (traverse fuel s c "levelorder") in
      let? r := nodes_under fuel s prev_node rest in
      Ok (filter (fun _ => c <> prev_node) l ++ r)
  end.

Definition issubset (a b : list node) : bool :=
  forallb (fun x => bool_decide (x ∈ b)) a.

(** The [while current is not None] loop; [k] bounds its iterations. *)
Fixpoint get_common_ancestor_loop (k fuel : nat) (s : store) (targets : list node)
    (current : option node) (prev_node : node) (nodes_bellow : list node)
    : res (option node) :=
  match current with
  | None => Ok None
  | Some cur =>
      match k with
      | 0 => OutOfFuel
      | S k' =>
          let? new_nodes := nodes_under fuel s prev_node (children s cur) in
          let nodes_bellow := nodes_bellow ++ new_nodes ++ [cur] in
          if issubset targets nodes_bellow then Ok (Some cur)
          else get_common_ancestor_loop k' fuel s targets (up s cur) cur nodes_bellow
      end
  end.

(** [get_common_ancestor]: the branch for a one-element list reads the
    undefined name [tree_nodes]. *)
Definition get_common_ancestor (fuel : nat) (s : store) (self : node)
    (target_nodes : list pyarg) : res (option node) :=
  let? tn := _translate_nodes fuel s self target_nodes in
  let? target_nodes :=
    match tn with
    | Single n => Ok [n; self]
    | Many l => if decide (length l = 1) then Raise NameError else Ok l
    end in
  let? start := or_raise IndexError (last target_nodes) in
  let? below := get_descendants fuel s start "levelorder" in
  get_common_ancestor_loop fuel fuel s target_nodes (Some start) start (start :: below).

(** The [while current != ancestor] loop of [get_distance], for one leg. *)
Fixpoint distance_leg (fuel : nat) (s : store) (topology_only : bool)
    (target ancestor : node) (current : option node) (d : F) : res F :=
  match current with
  | None => Raise AttributeError
  | Some cur =>
      if decide (cur = ancestor) then Ok d else
      match fuel with
      | 0 => OutOfFuel
      | S fuel' =>
          let d :=
            if topology_only
            then (if decide (cur <> target) then fadd d (of_nat 1) else d)
            else fadd d (dist s cur) in
          distance_leg fuel' s topology_only target ancestor (up s cur) d
      end
  end.

(** [get_distance] *)
Definition get_distance (fuel : nat) (s : store) (self : node)
    (target : pyarg) (target2 : option pyarg) (topology_only : bool) : res F :=
  let? (target2, root) :=
    match target2 with
    | None => let? r := get_tree_root fuel s self in Ok (ByNode self, r)
    | Some t2 => Ok (t2, self)
    end in
  let? tn := _translate_nodes fuel s root [target; target2] in
  match tn with
  | Many [target; target2] =>
      let? ancestor := get_common_ancestor fuel s root [ByNode target; ByNode target2] in
      match ancestor with
      | None => Raise TreeError
      | Some ancestor =>
          let? d := distance_leg fuel s topology_only target ancestor (Some target2) f0 in
          distance_leg fuel s topology_only target ancestor (Some target) d
      end
  | _ => Raise ValueError
  end.

(** What one turn of the loop of [distance_leg] adds at node [cur]. *)
Definition leg_step (s : store) (topology_only : bool) (target : node) (d : F) (cur : node) : F :=
  if topology_only
  then (if decide (cur <> target) then fadd d (of_nat 1) else d)
  else fadd d (dist s cur).

(** ** Rerooting *)

(** [while n.up is not self: n = n.up] *)
Fixpoint subtree_root (fuel : nat) (s : store) (self : node) (n : option node) : res node :=
  match n with
  | None => Raise AttributeError
  | Some x =>
      if decide (up s x = Some self) then Ok x else
      match fuel with
      | 0 => OutOfFuel
      | S fuel' => subtree_root fuel' s self (up s x)
      end
  end.

(** The parent-child swapping loop.  It returns the last [quien_va_ser_padre],
    [quien_fue_padre] and [buffered_dist].  [quien_va_ser_hijo] cannot be
    [None] once [subtree_root] has found its way from the outgroup to [self]. *)
Fixpoint swap_loop (fuel : nat) (self quien_va_ser_padre : node)
    (quien_va_ser_hijo quien_fue_padre : option node) (buffered_dist buffered_support : F)
    : M (node * option node * F) :=
  if decide (quien_va_ser_hijo = Some self)
  then ret (quien_va_ser_padre, quien_fue_padre, buffered_dist)
  else
    match quien_va_ser_hijo with
    | None => raise AttributeError
    | Some hijo =>
        match fuel with
        | 0 => fun s => (s, OutOfFuel)
        | S fuel' =>
            children_append quien_va_ser_padre hijo ;;
            children_remove hijo quien_va_ser_padre ;;
            let! buffered_dist2 := read (fun s => dist s hijo) in
            let! buffered_support2 := read (fun s => support s hijo) in
            write (set_dist hijo buffered_dist) ;;
            write (set_support hijo buffered_support) ;;
            write (set_up quien_va_ser_padre quien_fue_padre) ;;
            let! next := read (fun s => up s hijo) in
            swap_loop fuel' self hijo next (Some quien_va_ser_padre)
              buffered_dist2 buffered_support2
        end
    end.

(** [list.sort()] on nodes: the class defines no comparison, so Python 2
    orders the instances by identity, which is the arena index here. *)
Fixpoint sort_insert (x : node) (l : list node) : list node :=
  match l with
  | [] => [x]
  | y :: l' => if decide (x <= y) then x :: l else y :: sort_insert x l'
  end.
Definition sort_nodes (l : list node) : list node := foldr sort_insert [] l.

(** [set_outgroup] *)
Definition set_outgroup (fuel : nat) (self : node) (outgroup : pyarg) : M unit :=
  let! tn := lift (fun s => _translate_nodes fuel s self [outgroup]) in
  match tn with
  | Many _ => raise AttributeError
  | Single outgroup =>
      if decide (self = outgroup) then raise ValueError else
      let! parent_outgroup := read (fun s => up s outgroup) in
      let! n := lift (fun s => subtree_root fuel s self (Some outgroup)) in
      children_remove self n ;;
      let! rest := read (fun s => children s self) in
      let! down_branch_connector :=
        (if bool_decide (1 < length rest) then
           let! c := alloc in
           write (set_dist c f0) ;;
           let! ns := read (fun s => support s n) in
           write (set_support c ns) ;;
           for_each rest (fun ch =>
             children_append c ch ;;
             write (set_up ch (Some c)) ;;
             children_remove self ch) ;;
           ret c
         else lift (fun s => or_raise IndexError (head (children s self)))) in
      let! outgroup2 :=
        match parent_outgroup with
        | None => raise AttributeError
        | Some quien_va_ser_padre =>
            if decide (quien_va_ser_padre = self) then ret down_branch_connector else
            let! quien_va_ser_hijo := read (fun s => up s quien_va_ser_padre) in
            let! buffered_dist := read (fun s => dist s quien_va_ser_padre) in
            let! buffered_support := read (fun s => support s quien_va_ser_padre) in
            let! r := swap_loop fuel self quien_va_ser_padre quien_va_ser_hijo None
                        buffered_dist buffered_support in
            let '(padre, quien_fue_padre, buffered_dist) := r in
            children_append padre down_branch_connector ;;
            write (set_up down_branch_connector (Some padre)) ;;
            write (set_up padre quien_fue_padre) ;;
            let! cd := read (fun s => dist s down_branch_connector) in
            write (set_dist down_branch_connector (fadd cd buffered_dist)) ;;
            children_remove quien_va_ser_padre outgroup ;;
            write (set_dist quien_va_ser_padre (of_nat 0)) ;;
            ret quien_va_ser_padre
        end in
      write (set_up outgroup (Some self)) ;;
      write (set_up outgroup2 (Some self)) ;;
      write (set_children self [outgroup; outgroup2]) ;;
      let! d2 := read (fun s => dist s outgroup2) in
      let! d1 := read (fun s => dist s outgroup) in
      let middist := fdiv (fadd d2 d1) (of_nat 2) in
      write (set_dist outgroup middist) ;;
      write (set_dist outgroup2 middist) ;;
      let! so := read (fun s => support s outgroup) in
      write (set_support outgroup2 so) ;;
      write (fun s => set_children self (sort_nodes (children s self)) s)
  end.

(** ** Pruning *)

(** [set.add] *)
Definition set_add (x : node) (l : list node) : list node :=
  if decide (x ∈ l) then l else l ++ [x].

(** [for c in node.children: to_detach.remove(c)] *)
Fixpoint remove_each (cs : list node) (l : list node) : res (list node) :=
  match cs with
  | [] => Ok l
  | c :: cs' =>
      let? l' := or_raise ValueError (list_remove c l) in
      remove_each cs' l'
  end.

(** The body of the postorder loop of [prune], on [(to_keep, to_detach)]. *)
Definition prune_visit (s : store) (st : list node * list node) (nd : node)
    : res (list node * list node) :=
  let '(to_keep, to_detach) := st in
  let to_keep :=
    if existsb (fun c => bool_decide (c ∈ to_keep)) (children s nd)
    then set_add nd to_keep else to_keep in
  if decide (nd ∈ to_keep) then Ok (to_keep, to_detach)
  else
    let? to_detach := remove_each (children s nd) (to_detach ++ [nd]) in
    Ok (to_keep, to_detach).

Fixpoint fold_res {A B} (f : A -> B -> res A) (a : A) (l : list B) : res A :=
  match l with
  | [] => Ok a
  | x :: l' => let? a' := f a x in fold_res f a' l'
  end.

(** [prune].  [set(x)] on a single node iterates it, that is, its leaves.
    The set [to_keep] is walked in insertion order. *)
Definition prune (fuel : nat) (self : node) (nodes : list pyarg) : M unit :=
  let! tn := lift (fun s => _translate_nodes fuel s self nodes) in
  let! to_keep :=
    match tn with
    | Many l => ret (remove_dups l)
    | Single n => lift (fun s => rmap remove_dups (get_leaves fuel s n))
    end in
  let! post := lift (fun s => iterate (traverse fuel s self "postorder")) in
  let! st := lift (fun s => fold_res (prune_visit s) (to_keep, []) post) in
  let '(to_keep, to_detach) := st in
  for_each to_detach (fun nd => detach nd ;; ret tt) ;;
  for_each to_keep (fun nd =>
    let! n := read (fun s => length (children s nd)) in
    if decide (n = 1) then delete fuel nd true else ret tt) ;;
  let! chs := read (fun s => children s self) in
  match chs with
  | [c] => if decide (c ∉ to_keep) then delete fuel c true else ret tt
  | _ => ret tt
  end.

(** ** Ultrametric conversion *)

(** The body of the first loop: [node2max_depth]. *)
Definition max_depth_visit (s : store) (node2max_depth : gmap node nat) (nd : node)
    : res (gmap node nat) :=
  if is_leaf s nd then Ok (<[nd := 1]> node2max_depth)
  else
    let? ds := fold_res (fun acc c =>
                 let? d := or_raise KeyError (node2max_depth !! c) in Ok (acc ++ [d]))
               [] (children s nd) in
    Ok (<[nd := max_list ds + 1]> node2max_depth).

(** The body of the second loop: it rewrites [node.dist] and extends
    [node2dist]. *)
Definition ultrametric_visit (strategy : string) (tree_length step : F)
    (node2max_depth : gmap node nat) (node2dist : gmap node F) (nd : node)
    : M (gmap node F) :=
  let above (s : store) : res F :=
    or_raise KeyError (p ← up s nd; node2dist !! p) in
  if decide (strategy = "balanced"%string) then
    let! a := lift above in
    let! m := lift (fun _ => or_raise KeyError (node2max_depth !! nd)) in
    write (set_dist nd (fdiv (fsub tree_length a) (of_nat m))) ;;
    let! d := read (fun s => dist s nd) in
    ret (<[nd := fadd d a]> node2dist)
  else if decide (strategy = "fixed"%string) then
    let! leaf := read (fun s => is_leaf s nd) in
    (if leaf
     then let! a := lift above in write (set_dist nd (fsub tree_length (fmul a step)))
     else write (set_dist nd step)) ;;
    let! a := lift above in
    ret (<[nd := fadd a (of_nat 1)]> node2dist)
  else ret node2dist.

Fixpoint fold_M {A B} (f : A -> B -> M A) (a : A) (l : list B) : M A :=
  match l with
  | [] => ret a
  | x :: l' => let! a' := f a x in fold_M f a' l'
  end.

(** [convert_to_ultrametric].  The level-order generator reads only children
    lists, which the loop body does not write, so it is run up front. *)
Definition convert_to_ultrametric (fuel : nat) (self : node) (tree_length : F)
    (strategy : string) : M unit :=
  let! post := lift (fun s => iterate (traverse fuel s self "postorder")) in
  let! node2max_depth := lift (fun s => fold_res (max_depth_visit s) ∅ post) in
  let node2dist : gmap node F := {[ self := f0 ]} in
  let! m := lift (fun _ => or_raise KeyError (node2max_depth !! self)) in
  let step := fdiv tree_length (of_nat m) in
  let! below := lift (fun s => get_descendants fuel s self "levelorder") in
  fold_M (ultrametric_visit strategy tree_length step node2max_depth) node2dist below ;;
  ret tt.

(** ** Sisters, roots and operators *)

(** [is_root] *)
Definition is_root (s : store) (n : node) : bool := bool_decide (up s n = None).

(** [get_sisters] *)
Definition get_sisters (s : store) (self : node) : list node :=
  match up s self with
  | Some p => filter (fun ch => ch <> self) (children s p)
  | None => []
  end.

(** [add_sister]: it passes no [support] on. *)
Definition add_sister (self : node) (sister : option node)
    (nm : option string) (d : option F) : M node :=
  let! parent := read (fun s => up s self) in
  match parent with
  | None => raise TreeError
  | Some p => add_child p sister nm d None
  end.

(** [remove_sister]: with no sisters the method falls off its end and
    returns [None]. *)
Definition remove_sister (self : node) (sister : option node) : M (option node) :=
  let! sisters := read (fun s => get_sisters s self) in
  match sisters with
  | [] => ret None
  | first :: _ =>
      let sister := default first sister in
      let! parent := read (fun s => up s self) in
      match parent with
      | None => raise AttributeError
      | Some p => let! r := remove_child p sister in ret (Some r)
      end
  end.

(** [swap_children] *)
Definition swap_children (self : node) : M unit :=
  let! chs := read (fun s => children s self) in
  if bool_decide (1 < length chs) then write (set_children self (rev chs)) else ret tt.

(** [unroot]: the warning for a node that has a parent prints to
    [sys.stderr], and the module never imports [sys]. *)
Definition unroot (fuel : nat) (self : node) : M unit :=
  let! r := read (fun s => is_root s self) in
  (if r then ret tt else raise NameError) ;;
  let! chs := read (fun s => children s self) in
  match chs with
  | [c0; c1] =>
      let! l0 := read (fun s => is_leaf s c0) in
      if negb l0 then delete fuel c0 true else
      let! l1 := read (fun s => is_leaf s c1) in
      if negb l1 then delete fuel c1 true else raise TreeError
  | _ => ret tt
  end.

(** [__contains__], for a node instance or a name *)
Definition __contains__ (fuel : nat) (s : store) (self : node) (item : pyarg) : res bool :=
  let? below := get_descendants fuel s self "levelorder" in
  match item with
  | ByNode n => Ok (bool_decide (n ∈ below))
  | ByName nm => Ok (bool_decide (nm ∈ map (name_of s) below))
  end.

(** [__len__] *)
Definition __len__ (fuel : nat) (s : store) (self : node) : res nat :=
  let? l := get_leaves fuel s self in Ok (length l).

(** [get_leaf_names] *)
Definition get_leaf_names (fuel : nat) (s : store) (self : node) : res (list string) :=
  let? l := get_leaves fuel s self in Ok (map (name_of s) l).

(** [self & value]: the first match of [iter_search_nodes(name=value)] *)
Definition __and__ (fuel : nat) (s : store) (self : node) (value : string) : res node :=
  let? l := search_nodes fuel s self value in
  or_raise ValueError (head l).

(** [self + value], for a node instance *)
Definition __add__ (self value : node) : M node :=
  let! new_root := alloc in
  add_child new_root (Some self) None None None ;;
  add_child new_root (Some value) None None None ;;
  ret new_root.

(** [get_leaves_by_name]: [search_nodes(name=name, children=[])] *)
Definition get_leaves_by_name (fuel : nat) (s : store) (self : node) (nm : string)
    : res (list node) :=
  let? l := iterate (traverse fuel s self "levelorder") in
  Ok (filter (fun n => name_of s n = nm /\ children s n = []) l).

(** ** Farthest leaf *)

(** [get_farthest_leaf]: the method calls itself on every child; [fuel]
    bounds the depth.  [max_node] starts as [None] and stays so when no
    candidate passes [d >= max_dist]. *)
Fixpoint get_farthest_leaf {O : NumOrd N} (fuel : nat) (s : store) (self : node)
    (topology_only : bool) : res (option node * F) :=
  match fuel with
  | 0 => OutOfFuel
  | S fuel' =>
      if is_leaf s self then Ok (Some self, f0)
      else
        fold_res (fun (acc : option node * F) ch =>
            let? (nd, d) := get_farthest_leaf fuel' s ch topology_only in
            let d := if topology_only then fadd d f1 else fadd d (dist s ch) in
            if fge d acc.2 then Ok (nd, d) else Ok acc)
          (None, f0) (children s self)
  end.

(** ** What the methods leave behind *)

(** the [name], [dist] and [support] arguments of [add_child], applied *)
Definition with_overrides (c : node) (nm : option string) (d sp : option F) (s : store) : store :=
  let s1 := match nm with Some v => set_name c v s | None => s end in
  let s2 := match d with Some v => set_dist c v s1 | None => s1 end in
  match sp with Some v => set_support c v s2 | None => s2 end.

(** the arena after [for ch in cs: p.add_child(ch)] *)
Definition reparent_all (p : node) (cs : list node) (s : store) : store :=
  foldl (fun s c => set_up c (Some p) (set_children p (children s p ++ [c]) s)) s cs.

(** the value of a count that starts at 0.0 and adds 1 [k] times *)
Definition count_up (k : nat) : F := Nat.iter k (fun d => fadd d (of_nat 1)) f0.

(** ** The parts of [set_outgroup] *)

(** the node that groups the other children of [self]: a new one when
    there are several, the remaining child itself otherwise *)
Definition outgroup_connector (self n : node) (rest : list node) : M node :=
  if bool_decide (1 < length rest) then
    let! c := alloc in
    write (set_dist c f0) ;;
    let! ns := read (fun s => support s n) in
    write (set_support c ns) ;;
    for_each rest (fun ch =>
      children_append c ch ;;
      write (set_up ch (Some c)) ;;
      children_remove self ch) ;;
    ret c
  else lift (fun s => or_raise IndexError (head (children s self))).

(** the statements after the swapping loop that hang the connector in *)
Definition attach {B} (conn : node) (K : M B) (r : node * option node * F) : M B :=
  let '(padre, quien_fue_padre, buffered_dist) := r in
  children_append padre conn ;;
  write (set_up conn (Some padre)) ;;
  write (set_up padre quien_fue_padre) ;;
  let! cd := read (fun s => dist s conn) in
  write (set_dist conn (fadd cd buffered_dist)) ;;
  K.

(** the branch that connects the down branch to [self] or to the outgroup *)
Definition outgroup_swap (fuel : nat) (self outgroup : node) (parent_outgroup : option node)
    (down_branch_connector : node) : M node :=
  match parent_outgroup with
  | None => raise AttributeError
  | Some quien_va_ser_padre =>
      if decide (quien_va_ser_padre = self) then ret down_branch_connector else
      let! quien_va_ser_hijo := read (fun s => up s quien_va_ser_padre) in
      let! buffered_dist := read (fun s => dist s quien_va_ser_padre) in
      let! buffered_support := read (fun s => support s quien_va_ser_padre) in
      let! r := swap_loop fuel self quien_va_ser_padre quien_va_ser_hijo None
                  buffered_dist buffered_support in
      attach down_branch_connector
        (children_remove quien_va_ser_padre outgroup ;;
         write (set_dist quien_va_ser_padre (of_nat 0)) ;;
         ret quien_va_ser_padre) r
  end.

(** the last statements, from [outgroup.up = self] on *)
Definition outgroup_finish (self outgroup outgroup2 : node) : M unit :=
  write (set_up outgroup (Some self)) ;;
  write (set_up outgroup2 (Some self)) ;;
  write (set_children self [outgroup; outgroup2]) ;;
  let! d2 := read (fun s => dist s outgroup2) in
  let! d1 := read (fun s => dist s outgroup) in
  let middist := fdiv (fadd d2 d1) (of_nat 2) in
  write (set_dist outgroup middist) ;;
  write (set_dist outgroup2 middist) ;;
  let! so := read (fun s => support s outgroup) in
  write (set_support outgroup2 so) ;;
  write (fun s => set_children self (sort_nodes (children s self)) s).

(** [for x, y in consecutive nodes of a :: R]: [y] is the parent of [x] in
    [s]; the parent of the last one is [top] *)
Fixpoint chain_up (s : store) (a : node) (R : list node) (top : node) : Prop :=
  match R with
  | [] => up s a = Some top
  | b :: R' =>
      up s a = Some b /\ a ∈ children s b /\ NoDup (children s b) /\ chain_up s b R' top
  end.

(** what the swapping loop and the attachment of the connector leave at the
    nodes above [a]: each has lost the child it came from and gained its
    former parent as last child, with the dist and support of the branch
    between them; the connector hangs from the last one *)
Fixpoint attached (s σ σ' : store) (a : node) (bd bs : F) (R : list node) (conn : node)
    : Prop :=
  match R with
  | [] =>
      up σ' conn = Some a /\ dist σ' conn = fadd (dist σ conn) bd /\
      children σ' conn = children σ conn /\ support σ' conn = support σ conn /\
      name_of σ' conn = name_of σ conn
  | b :: R' =>
      children σ' b = filter (fun y => y <> a) (children s b) ++ [hd conn R'] /\
      up σ' b = Some a /\ dist σ' b = bd /\ support σ' b = bs /\
      name_of σ' b = name_of s b /\
      attached s σ σ' b (dist s b) (support s b) R' conn
  end.

(** ** Arenas that hold a tree *)

(** [shape s t]: in [s], every node of [t] has the children [t] gives it, in
    order, and every node below the root points up at its parent. *)
Inductive shape (s : store) : tree -> Prop :=
| shape_T n ks :
    children s n = map root ks ->
    Forall (fun k => up s (root k) = Some n) ks ->
    Forall (shape s) ks ->
    shape s (T n ks).

(** [hang_ok s' prev l]: in [s'], the subtrees that hang off the trees of
    [l], other than the one each is entered from, are in place *)
Fixpoint hang_ok (s' : store) (prev : tree) (l : list tree) : Prop :=
  match l with
  | [] => True
  | t1 :: l' =>
      (forall k, k ∈ kids t1 -> root k <> root prev ->
         shape s' k /\ up s' (root k) = Some (root t1)) /\
      hang_ok s' t1 l'
  end.

(** [wf s t]: [s] holds the tree [t], each node once, and the parent of the
    root, if it has one, is outside the tree. *)
Definition wf (s : store) (t : tree) : Prop :=
  shape s t /\ NoDup (ids t) /\ forall x, x ∈ ids t -> up s (root t) <> Some x.

(** [climbs s x y]: [y] is reached from [x] by one or more [up] links. *)
Inductive climbs (s : store) : node -> node -> Prop :=
| climbs_one x p : up s x = Some p -> climbs s x p
| climbs_more x p y : up s x = Some p -> climbs s p y -> climbs s x y.

(** no node is its own ancestor *)
Definition acyclic (s : store) : Prop := forall x, ~ climbs s x x.

(** [parents_first s seen l]: every node of [l] is a child of a node in
    [seen] or of one earlier in [l]. *)
Fixpoint parents_first (s : store) (seen l : list node) : Prop :=
  match l with
  | [] => True
  | x :: l' =>
      (exists p, up s x = Some p /\ x ∈ children s p /\ p ∈ seen) /\
      parents_first s (x :: seen) l'
  end.

(** The cumulative distance of [x] from [r]: the sum of [dist] along the
    path between them, by [up] links from [x]. *)
Fixpoint cumulative_dist (fuel : nat) (s : store) (r x : node) : option F :=
  if decide (x = r) then Some f0 else
  match fuel with
  | 0 => None
  | S fuel' => p ← up s x; d ← cumulative_dist fuel' s r p; Some (fadd (dist s x) d)
  end.

(** ** Invariants of [convert_to_ultrametric] *)

(** [good s m x]: the table [node2max_depth] has an entry for [x], and it is
    1 if [x] is a leaf *)
Definition good (s : store) (m : gmap nat nat) (x : node) : Prop :=
  exists d, m !! x = Some d /\ (is_leaf s x = true -> d = 1).

(** what the balanced body leaves behind for [x] below [p], in the arena [s]
    and the table [m] = [node2dist]; [s0] is the arena before the loop *)
Definition E_balanced (s0 : store) (tree_length : F)
    (s : store) (m : gmap nat F) (x p : node) : Prop :=
  exists a, m !! p = Some a /\ m !! x = Some (fadd (dist s x) a) /\
            (is_leaf s0 x = true -> fadd (dist s x) a = tree_length).

(** what the fixed body leaves behind for [x] below [p] *)
Definition E_fixed (s0 : store) (tree_length step : F)
    (s : store) (m : gmap nat F) (x p : node) : Prop :=
  exists a, m !! p = Some a /\ m !! x = Some (fadd a (of_nat 1)) /\
            is_leaf s0 p = false /\
            dist s x = (if is_leaf s0 x then fsub tree_length (fmul a step) else step).

(** The invariant of the second loop once the nodes [seen] are done: only
    dists have changed, the root's entry is 0.0, and each node done has an
    entry and satisfies [E] with its parent, which is done too. *)
Definition loop_inv (s0 : store) (r : node)
    (E : store -> gmap nat F -> node -> node -> Prop)
    (seen : list node) (s : store) (m : gmap nat F) : Prop :=
  (forall z, up s z = up s0 z) /\
  (forall z, children s z = children s0 z) /\
  length s = length s0 /\
  (r ∈ seen /\ m !! r = Some f0) /\
  (forall x, x ∈ seen -> is_Some (m !! x)) /\
  (forall x, x ∈ seen -> x <> r -> exists p, up s0 x = Some p /\ p ∈ seen /\ E s m x p).

(** ** Labelled topology *)

Inductive ltree := L (nm : string) (ks : list ltree).

(** the names under a node, in the shape the children lists give them *)
Fixpoint topology (fuel : nat) (s : store) (r : node) : option ltree :=
  match fuel with
  | 0 => None
  | S fuel' => ks ← mapM (topology fuel' s) (children s r); Some (L (name_of s r) ks)
  end.

(** same labelled topology: equal up to the order of children *)
Inductive iso : ltree -> ltree -> Prop :=
| iso_L nm ks ks' ks'' :
    ks ≡ₚ ks'' -> Forall2 iso ks'' ks' -> iso (L nm ks) (L nm ks').

End Model.

Abbreviation store := (list TreeNode) (only parsing).

Notation "'let!' x ':=' c 'in' k" := (bind c (fun x => k))
  (at level 10, x pattern, c at level 100, k at level 200).
Notation "c ';;' k" := (bind c (fun _ => k))
  (at level 100, k at level 200, right associativity).

(** ** Concrete arenas, on IEEE floats *)

Definition fnode (chs : list node) (u : option node) (d sp : float) (nm : string)
    : @TreeNode float_num :=
  @mkTreeNode float_num chs u d sp nm.

(** a root [0] with the single child [1] *)
Definition two_nodes : list (@TreeNode float_num) :=
  [ fnode [1] None 1 1 "r"; fnode [] (Some 0) 1 1 "o" ].

(** a single node *)
Definition one_node : list (@TreeNode float_num) :=
  [ fnode [] None 1 1 "r" ].

(** two single-node trees side by side *)
Definition two_roots : list (@TreeNode float_num) :=
  [ fnode [] None 1 1 "a"; fnode [] None 1 1 "b" ].

(** [((D),C)]: the root [0] has the children [1] and [2]; [1] has the
    single child [3]. *)
Definition with_unary : list (@TreeNode float_num) :=
  [ fnode [1; 2] None 1 1 "root"; fnode [3] (Some 0) 1 1 "J";
    fnode [] (Some 0) 1 1 "C"; fnode [] (Some 1) 1 1 "D" ].

(** [(A,B)]: the root [0] with the leaves [1] and [2] *)
Definition cherry : list (@TreeNode float_num) :=
  [ fnode [1; 2] None 1 1 "root"; fnode [] (Some 0) 1 1 "A"; fnode [] (Some 0) 1 1 "B" ].

Definition cherry_tree : tree := T 0 [T 1 []; T 2 []].

(** The root [0] has the children [1] (dist 1e16) and [2]; [2] has the single
    child [3]; the other dists are 1.0. *)
Definition long_branch : list (@TreeNode float_num) :=
  [ fnode [1; 2] None 1 1 "root"; fnode [] (Some 0) 1e16 1 "a";
    fnode [3] (Some 0) 1 1 "x"; fnode [] (Some 2) 1 1 "b" ].

(** a chain: the root [0], its child [1], and the leaf [2] below it *)
Definition chain3 : list (@TreeNode float_num) :=
  [ fnode [1] None 1 1 "root"; fnode [2] (Some 0) 1 1 "x"; fnode [] (Some 1) 1 1 "y" ].

(** The root [0] has the child [1], which has the leaf [2] and the node [3];
    [3] has the leaf [4]. *)
Definition lopsided : list (@TreeNode float_num) :=
  [ fnode [1] None 1 1 "root"; fnode [2; 3] (Some 0) 1 1 "x";
    fnode [] (Some 1) 1 1 "y"; fnode [4] (Some 1) 1 1 "z"; fnode [] (Some 3) 1 1 "w" ].

(** the shapes of [two_nodes], [with_unary] and [lopsided] *)
Definition two_nodes_tree : tree := T 0 [T 1 []].
Definition with_unary_tree : tree := T 0 [T 1 [T 3 []]; T 2 []].
Definition lopsided_tree : tree := T 0 [T 1 [T 2 []; T 3 [T 4 []]]].

(** the same tree on exact rationals *)
Definition cherry_q : list (@TreeNode Qc_num) :=
  [ @mkTreeNode Qc_num [1; 2] None 1%Qc 1%Qc "root";
    @mkTreeNode Qc_num [] (Some 0) 1%Qc 1%Qc "A";
    @mkTreeNode Qc_num [] (Some 0) 1%Qc 1%Qc "B" ].

(** * Properties *)

(** ** Trees *)

Lemma tree_ind' (P : tree -> Prop) :
  (forall n ks, Forall P ks -> P (T n ks)) -> forall t, P t.
Proof.
  intros H. fix IH 1. intros [n ks]. apply H.
  induction ks as [|k ks IHks]; constructor; [apply IH | exact IHks].
Qed.

Lemma elem_of_flat_map {A B} (f : A -> list B) (l : list A) (y : B) :
  y ∈ flat_map f l <-> exists x, x ∈ l /\ y ∈ f x.
Proof.
  rewrite list_elem_of_In, in_flat_map. split; intros (x & H1 & H2); exists x.
  - by rewrite !list_elem_of_In.
  - by rewrite <- !list_elem_of_In.
Qed.

Lemma elem_of_rev {A} (x : A) (l : list A) : x ∈ rev l <-> x ∈ l.
Proof. rewrite !list_elem_of_In. symmetry. apply in_rev. Qed.

Lemma size_pos t : 0 < size t.
Proof. destruct t; simpl; lia. Qed.

Lemma list_sum_app (l k : list nat) : list_sum (l ++ k) = list_sum l + list_sum k.
Proof. induction l; simpl; lia. Qed.

Lemma root_in_ids t : root t ∈ ids t.
Proof. destruct t; simpl; left. Qed.

Lemma post_perm t : post t ≡ₚ ids t.
Proof.
  induction t as [n ks IH] using tree_ind'. simpl.
  rewrite Permutation_app_comm. simpl. constructor.
  induction IH as [|k ks Hk _ IHks]; simpl; [done|]. by rewrite Hk, IHks.
Qed.

Lemma steps_size t : steps t + 1 = 2 * size t.
Proof.
  induction t as [n ks IH] using tree_ind'. simpl.
  induction IH as [|k ks Hk _ IHks]; simpl in *; lia.
Qed.

Section Proofs.
Context {N : Num}.

(** ** Reading the arena after a write *)

Lemma obj_alter (f : TreeNode -> TreeNode) (n x : node) (s : store) :
  obj (alter f n s) x = if decide (n = x /\ n < length s) then f (obj s x) else obj s x.
Proof.
  unfold obj. destruct (decide (n = x)) as [->|Hne].
  - rewrite list_lookup_alter_eq. destruct (s !! x) eqn:E; simpl.
    + apply lookup_lt_Some in E. by rewrite decide_True.
    + apply lookup_ge_None in E. rewrite decide_False; [done|lia].
  - rewrite list_lookup_alter_ne by done. rewrite decide_False; [done|tauto].
Qed.

Lemma up_set_up (n : node) (v : option node) (s : store) (x : node) :
  up (set_up n v s) x = if decide (n = x /\ n < length s) then v else up s x.
Proof. unfold up, set_up. rewrite obj_alter. by case_decide. Qed.

Lemma up_set_children (n : node) (v : list node) (s : store) (x : node) :
  up (set_children n v s) x = up s x.
Proof. unfold up, set_children. rewrite obj_alter. by case_decide. Qed.

Lemma up_set_dist (n : node) (v : F) (s : store) (x : node) :
  up (set_dist n v s) x = up s x.
Proof. unfold up, set_dist. rewrite obj_alter. by case_decide. Qed.

Lemma up_set_support (n : node) (v : F) (s : store) (x : node) :
  up (set_support n v s) x = up s x.
Proof. unfold up, set_support. rewrite obj_alter. by case_decide. Qed.

Lemma up_set_name (n : node) (v : string) (s : store) (x : node) :
  up (set_name n v s) x = up s x.
Proof. unfold up, set_name. rewrite obj_alter. by case_decide. Qed.

Lemma children_set_dist (n : node) (v : F) (s : store) (x : node) :
  children (set_dist n v s) x = children s x.
Proof. unfold children, set_dist. rewrite obj_alter. by case_decide. Qed.

Lemma dist_set_dist (n : node) (v : F) (s : store) (x : node) :
  dist (set_dist n v s) x = if decide (n = x /\ n < length s) then v else dist s x.
Proof. unfold dist, set_dist. rewrite obj_alter. by case_decide. Qed.

Lemma length_set_dist (n : node) (v : F) (s : store) :
  length (set_dist n v s) = length s.
Proof. apply length_alter. Qed.

Lemma up_Some_lt (s : store) (x p : node) : up s x = Some p -> x < length s.
Proof.
  unfold up, obj. destruct (s !! x) eqn:E; [|done].
  intros _. by apply lookup_lt_Some in E.
Qed.

(** ** Level order *)

Lemma levelorder_loop_forest (s : store) (fuel : nat) (q : list tree) :
  Forall (shape s) q ->
  list_sum (map size q) <= fuel ->
  exists l,
    _iter_descendants_levelorder_loop fuel s (map root q) = Ok l /\
    l ≡ₚ flat_map ids q /\
    forall seen,
      Forall (fun k => exists p, up s (root k) = Some p /\ root k ∈ children s p /\ p ∈ seen) q ->
      parents_first s seen l.
Proof.
  revert q. induction fuel as [|fuel IH]; intros q Hq Hsz.
  - destruct q as [|k q]; [|pose proof (size_pos k); simpl in Hsz; lia].
    exists []. simpl. by repeat split.
  - destruct q as [|[n ks] q]; [exists []; simpl; by repeat split|].
    apply Forall_cons in Hq as [Hk Hq]. inversion Hk as [? ? Hch Hup Hks]; subst.
    destruct (IH (q ++ ks)) as (l & Hl & Hperm & Hpf).
    { apply Forall_app; split; done. }
    { simpl in Hsz. rewrite map_app, list_sum_app. lia. }
    exists (n :: l). simpl. rewrite Hch, <- map_app, Hl. simpl. split; [done|]. split.
    + constructor. rewrite Hperm, flat_map_app. apply Permutation_app_comm.
    + intros seen Hseen. apply Forall_cons in Hseen as [Hn Hseen]. simpl in Hn.
      split; [done|]. apply Hpf. apply Forall_app; split.
      * eapply Forall_impl; [exact Hseen|]. intros k (p & Hp & Hc & Hin).
        exists p. split; [done|]. split; [done|by right].
      * apply Forall_forall. intros k Hk'. exists n.
        split; [by apply (proj1 (Forall_forall _ _) Hup)|]. split; [|left].
        rewrite Hch. apply list_elem_of_fmap. by exists k.
Qed.

(** ** Post order *)

Lemma rmap_app_app {A} (a b : list A) (r : res (list A)) :
  rmap (app a) (rmap (app b) r) = rmap (app (a ++ b)) r.
Proof. destruct r; simpl; [|done..]. by rewrite app_assoc. Qed.

Lemma find_first_unvisited (V : list node) (done todo : list tree) (k : tree) :
  (forall d, d ∈ done -> root d ∈ V) ->
  root k ∉ V ->
  find (fun c => bool_decide (c ∉ V)) (map root (done ++ k :: todo)) = Some (root k).
Proof.
  intros Hdone Hk. induction done as [|d done IH]; simpl.
  - by rewrite bool_decide_eq_true_2.
  - rewrite bool_decide_eq_false_2.
    + apply IH. intros d' Hd'. apply Hdone. by right.
    + intros Hn. apply Hn, Hdone. left.
Qed.

Lemma find_all_visited (V : list node) (done : list tree) :
  (forall d, d ∈ done -> root d ∈ V) ->
  find (fun c => bool_decide (c ∉ V)) (map root done) = None.
Proof.
  intros Hdone. induction done as [|d done IH]; simpl; [done|].
  rewrite bool_decide_eq_false_2.
  - apply IH. intros d' Hd'. apply Hdone. by right.
  - intros Hn. apply Hn, Hdone. left.
Qed.

Lemma postorder_loop_unfold (fuel : nat) (s : store) (e cur : option node) (V : list node) :
  _iter_descendants_postorder_loop (S fuel) s e cur V =
  if decide (cur = e) then Ok [] else
  match cur with
  | None => Raise AttributeError
  | Some c =>
      match find (fun c => bool_decide (c ∉ V)) (children s c) with
      | Some c' => _iter_descendants_postorder_loop fuel s e (Some c') V
      | None =>
          rmap (cons c) (_iter_descendants_postorder_loop fuel s e (up s c) (c :: V))
      end
  end.
Proof. reflexivity. Qed.

Lemma postorder_loop_tree (s : store) (e : option node) (t : tree) :
  shape s t -> NoDup (ids t) -> (forall x, x ∈ ids t -> Some x <> e) ->
  forall V p f,
    up s (root t) = p ->
    (forall x, x ∈ ids t -> x ∉ V) ->
    _iter_descendants_postorder_loop (steps t + f) s e (Some (root t)) V
    = rmap (app (post t)) (_iter_descendants_postorder_loop f s e p (rev (post t) ++ V)).
Proof.
  induction t as [n ks IH] using tree_ind'.
  intros Hsh Hnd He V p f Hp HV.
  inversion Hsh as [? ? Hch Hup Hks]; subst.
  change (ids (T n ks)) with (n :: flat_map ids ks) in *.
  change (post (T n ks)) with (flat_map post ks ++ [n]).
  change (steps (T n ks)) with (S (list_sum (map (fun k => S (steps k)) ks))).
  change (root (T n ks)) with n.
  apply NoDup_cons in Hnd as [_ Hnd].
  assert (Hen : Some n <> e) by (apply He; left).
  assert (He' : forall x, x ∈ flat_map ids ks -> Some x <> e)
    by (intros x Hx; apply He; by right).
  assert (HV' : forall x, x ∈ flat_map ids ks -> x ∉ V)
    by (intros x Hx; apply HV; by right).
  clear He HV Hsh.
  enough (Hinner : forall todo done V f,
    ks = done ++ todo ->
    (forall d, d ∈ done -> root d ∈ V) ->
    (forall x, x ∈ flat_map ids todo -> x ∉ V) ->
    NoDup (flat_map ids todo) ->
    _iter_descendants_postorder_loop
      (S (list_sum (map (fun k => S (steps k)) todo) + f)) s e (Some n) V
    = rmap (app (flat_map post todo ++ [n]))
        (_iter_descendants_postorder_loop f s e (up s n)
           (rev (flat_map post todo ++ [n]) ++ V))).
  { apply (Hinner ks [] V f); auto. intros d Hd. by apply elem_of_nil in Hd. }
  intros todo. induction todo as [|k todo IHtodo]; intros done V0 f0 Hks0 Hdone Hfresh Hnd0.
  - rewrite app_nil_r in Hks0. subst done.
    change (S (list_sum (map (fun k => S (steps k)) []) + f0)) with (S f0).
    rewrite postorder_loop_unfold, decide_False by done.
    rewrite Hch, find_all_visited by done. done.
  - assert (Hk : k ∈ ks) by (subst ks; apply elem_of_app; right; left).
    rewrite Forall_forall in IH, Hup, Hks.
    change (flat_map ids (k :: todo)) with (ids k ++ flat_map ids todo) in *.
    change (flat_map post (k :: todo)) with (post k ++ flat_map post todo).
    apply NoDup_app in Hnd0 as (Hndk & Hdisj & Hndt).
    set (L := list_sum (map (fun k => S (steps k)) todo)) in *.
    change (list_sum (map (fun k => S (steps k)) (k :: todo))) with (S (steps k) + L).
    replace (S (S (steps k) + L + f0)) with (S (steps k + S (L + f0))) by lia.
    rewrite postorder_loop_unfold, decide_False by done.
    rewrite Hch, Hks0, find_first_unvisited; [|done|].
    2:{ apply Hfresh, elem_of_app. left. apply root_in_ids. }
    rewrite (IH k Hk (Hks k Hk) Hndk) with (p := Some n).
    + rewrite (IHtodo (done ++ [k]) (rev (post k) ++ V0) f0).
      * rewrite rmap_app_app. rewrite <- !app_assoc.
        rewrite (app_assoc (post k)), (rev_app_distr (post k ++ _)), (rev_app_distr (post k)).
        rewrite (rev_app_distr (flat_map post todo)). simpl. by rewrite <- !app_assoc.
      * by rewrite <- app_assoc.
      * intros d Hd. apply elem_of_app. apply elem_of_app in Hd as [Hd|Hd].
        -- right. by apply Hdone.
        -- apply list_elem_of_singleton in Hd as ->. left.
           rewrite elem_of_rev, post_perm. apply root_in_ids.
      * intros x Hx Hin. apply elem_of_app in Hin as [Hin|Hin].
        -- rewrite elem_of_rev, post_perm in Hin. by apply (Hdisj x).
        -- revert Hin. apply Hfresh, elem_of_app. by right.
      * done.
    + intros x Hx. apply He'. subst ks. rewrite flat_map_app. apply elem_of_app. right.
      apply elem_of_app. by left.
    + by apply Hup.
    + intros x Hx. apply Hfresh, elem_of_app. by left.
Qed.

Lemma postorder_loop_done (fuel : nat) (s : store) (e : option node) (V : list node) :
  _iter_descendants_postorder_loop fuel s e e V = Ok [].
Proof. destruct fuel; simpl; by rewrite decide_True. Qed.

(** On an arena that holds [t], the postorder generator yields [post t]. *)
Lemma postorder_tree (s : store) (t : tree) (fuel : nat) :
  wf s t -> steps t <= fuel ->
  _iter_descendants_postorder fuel s (root t) = Ok (post t).
Proof.
  intros (Hsh & Hnd & Hup) Hfuel. unfold _iter_descendants_postorder.
  replace fuel with (steps t + (fuel - steps t)) by lia.
  rewrite (postorder_loop_tree s (up s (root t)) t Hsh Hnd) with (p := up s (root t)).
  - rewrite postorder_loop_done. simpl. by rewrite app_nil_r.
  - intros x Hx Heq. by apply (Hup x).
  - done.
  - intros x _ Hx. by apply elem_of_nil in Hx.
Qed.

(** On an arena that holds [t], the level-order generator yields the root,
    then the other nodes once each, children after their parents. *)
Lemma levelorder_tree (s : store) (t : tree) (fuel : nat) :
  shape s t -> size t <= fuel ->
  exists l,
    _iter_descendants_levelorder fuel s (root t) = Ok (root t :: l) /\
    l ≡ₚ flat_map ids (kids t) /\
    parents_first s [root t] l.
Proof.
  intros Hsh Hfuel. destruct t as [n ks].
  inversion Hsh as [? ? Hch Hup Hks]; subst.
  destruct fuel as [|fuel]; [simpl in Hfuel; lia|].
  destruct (levelorder_loop_forest s fuel ks Hks) as (l & Hl & Hperm & Hpf).
  { simpl in Hfuel. lia. }
  exists l. unfold _iter_descendants_levelorder. simpl. rewrite Hch, Hl.
  split; [done|]. split; [done|]. apply Hpf.
  apply Forall_forall. intros k Hk. exists n.
  split; [by apply (proj1 (Forall_forall _ _) Hup)|]. split; [|left].
  rewrite Hch. apply list_elem_of_fmap. by exists k.
Qed.

Lemma filter_ne_notin (x : node) (l : list node) :
  x ∉ l -> filter (fun n => n <> x) l = l.
Proof.
  induction l as [|y l IH]; intros Hx; [done|].
  apply not_elem_of_cons in Hx as [Hne Hx].
  rewrite filter_cons_True by done. by rewrite IH.
Qed.

Lemma get_descendants_tree (s : store) (t : tree) (fuel : nat) :
  shape s t -> NoDup (ids t) -> size t <= fuel ->
  exists l,
    get_descendants fuel s (root t) "levelorder" = Ok l /\
    l ≡ₚ flat_map ids (kids t) /\
    parents_first s [root t] l.
Proof.
  intros Hsh Hnd Hfuel.
  destruct (levelorder_tree s t fuel Hsh Hfuel) as (l & Hl & Hperm & Hpf).
  exists l. split; [|done]. unfold get_descendants, traverse.
  rewrite decide_False by done. rewrite decide_True by done. simpl. rewrite Hl. simpl.
  rewrite filter_cons_False by (intros H; by apply H).
  rewrite filter_ne_notin; [done|].
  destruct t as [n ks]. simpl in *. apply NoDup_cons in Hnd as [Hn _]. by rewrite Hperm.
Qed.

(** Level order visits every node under the root exactly once. *)
Lemma levelorder_visits_once (s : store) (t : tree) (fuel : nat) :
  shape s t -> NoDup (ids t) -> size t <= fuel ->
  exists l,
    traverse fuel s (root t) "levelorder" = Some (Ok l) /\ l ≡ₚ ids t /\ NoDup l.
Proof.
  intros Hsh Hnd Hfuel.
  destruct (levelorder_tree s t fuel Hsh Hfuel) as (l & Hl & Hperm & _).
  exists (root t :: l). unfold traverse.
  rewrite decide_False by done. rewrite decide_True by done.
  assert (Hp : root t :: l ≡ₚ ids t) by (destruct t; simpl in *; by rewrite Hperm).
  split; [by rewrite Hl|]. split; [done|]. by rewrite Hp.
Qed.

Lemma flat_map_split {A B} (f : A -> list B) (l : list A) (x : A) :
  x ∈ l -> exists l1 l2, flat_map f l = l1 ++ f x ++ l2.
Proof.
  intros Hx. apply list_elem_of_split in Hx as (k1 & k2 & ->).
  exists (flat_map f k1), (flat_map f k2). by rewrite flat_map_app.
Qed.

(** In [post t] the nodes of a subtree stand together, its root last. *)
Lemma post_subtree (u t : tree) :
  subtree u t -> exists l1 l2, post t = l1 ++ (flat_map post (kids u) ++ [root u]) ++ l2.
Proof.
  induction 1 as [|n ks k Hk _ (l1 & l2 & IH)].
  - exists [], []. destruct u. simpl. by rewrite app_nil_r.
  - destruct (flat_map_split post ks k Hk) as (k1 & k2 & Hsplit).
    exists (k1 ++ l1), (l2 ++ k2 ++ [n]). simpl. rewrite Hsplit, IH.
    by rewrite <- !app_assoc.
Qed.

(** X2: Post order visits every node under the root exactly once, each node
    after all of its descendants. *)
Lemma postorder_visits_once (s : store) (t : tree) (fuel : nat) :
  wf s t -> steps t <= fuel ->
  exists l,
    traverse fuel s (root t) "postorder" = Some (Ok l) /\ l ≡ₚ ids t /\ NoDup l /\
    forall u, subtree u t ->
      exists l1 l2, l = l1 ++ (flat_map post (kids u) ++ [root u]) ++ l2.
Proof.
  intros Hwf Hfuel. exists (post t). unfold traverse.
  rewrite decide_False by done. rewrite decide_False by done.
  rewrite decide_True by done. rewrite (postorder_tree s t fuel Hwf Hfuel).
  split; [done|]. split; [apply post_perm|]. split.
  - rewrite post_perm. apply Hwf.
  - intros u Hu. by apply post_subtree.
Qed.

(** ** Subtrees *)

Lemma shape_kids (s : store) (n : node) (ks : list tree) (k : tree) :
  shape s (T n ks) -> k ∈ ks -> shape s k /\ up s (root k) = Some n.
Proof.
  intros Hsh Hk. inversion Hsh as [? ? Hch Hup Hks]; subst.
  rewrite Forall_forall in Hup, Hks. split; [by apply Hks|by apply Hup].
Qed.

Lemma subtree_shape (s : store) (u t : tree) : subtree u t -> shape s t -> shape s u.
Proof.
  induction 1 as [|n ks k Hk _ IH]; [done|].
  intros Hsh. apply IH. by apply (shape_kids s n ks k).
Qed.

Lemma ids_kid (ks : list tree) (k : tree) (x : node) :
  k ∈ ks -> x ∈ ids k -> x ∈ flat_map ids ks.
Proof. intros Hk Hx. apply elem_of_flat_map. by exists k. Qed.

Lemma subtree_ids (u t : tree) (x : node) : subtree u t -> x ∈ ids u -> x ∈ ids t.
Proof.
  induction 1 as [|n ks k Hk _ IH]; [done|].
  intros Hx. simpl. right. apply (ids_kid ks k); [done|by apply IH].
Qed.

Lemma NoDup_kid (ks : list tree) (k : tree) :
  NoDup (flat_map ids ks) -> k ∈ ks -> NoDup (ids k).
Proof.
  induction ks as [|k' ks IH]; intros Hnd Hk; [by apply elem_of_nil in Hk|].
  simpl in Hnd. apply NoDup_app in Hnd as (Hk' & _ & Hks).
  apply elem_of_cons in Hk as [->|Hk]; [done|by apply IH].
Qed.

Lemma subtree_NoDup (u t : tree) : subtree u t -> NoDup (ids t) -> NoDup (ids u).
Proof.
  induction 1 as [|n ks k Hk _ IH]; [done|].
  intros Hnd. simpl in Hnd. apply NoDup_cons in Hnd as [_ Hnd].
  apply IH. by apply (NoDup_kid ks).
Qed.

(** Two children of a node that share a node are the same child. *)
Lemma kids_share (ks : list tree) (k k' : tree) (x : node) :
  NoDup (flat_map ids ks) -> k ∈ ks -> k' ∈ ks -> x ∈ ids k -> x ∈ ids k' -> k = k'.
Proof.
  induction ks as [|k0 ks IH]; intros Hnd Hk Hk' Hx Hx'; [by apply elem_of_nil in Hk|].
  simpl in Hnd. apply NoDup_app in Hnd as (_ & Hdisj & Hks).
  apply elem_of_cons in Hk as [->|Hk], Hk' as [->|Hk']; [done| | |by apply IH].
  - exfalso. apply (Hdisj x Hx). by apply (ids_kid ks k').
  - exfalso. apply (Hdisj x Hx'). by apply (ids_kid ks k).
Qed.

Lemma subtree_trans (u v t : tree) : subtree u v -> subtree v t -> subtree u t.
Proof.
  intros Huv Hvt. induction Hvt as [|n ks k Hk _ IH]; [done|].
  by eapply subtree_kid.
Qed.

Lemma subtree_size (u t : tree) : subtree u t -> u = t \/ size u < size t.
Proof.
  induction 1 as [|n ks k Hk _ IH]; [by left|]. right.
  assert (size k <= list_sum (map size ks)).
  { clear IH. induction ks as [|k0 ks IHks]; [by apply elem_of_nil in Hk|].
    simpl. apply elem_of_cons in Hk as [->|Hk]; [lia|]. specialize (IHks Hk). lia. }
  simpl. destruct IH as [->|IH]; lia.
Qed.

Lemma subtree_antisym (u v : tree) : subtree u v -> subtree v u -> u = v.
Proof.
  intros H1 H2. apply subtree_size in H1 as [->|H1]; [done|].
  apply subtree_size in H2 as [->|H2]; [done|lia].
Qed.

(** A subtree that holds the root of the tree is the tree. *)
Lemma subtree_with_root (v : tree) (n : node) (ks : list tree) :
  NoDup (ids (T n ks)) -> subtree v (T n ks) -> n ∈ ids v -> v = T n ks.
Proof.
  intros Hnd Hv Hn. inversion Hv as [|? ? k Hk Hvk]; subst; [done|].
  exfalso. simpl in Hnd. apply NoDup_cons in Hnd as [Hnot _]. apply Hnot.
  apply (ids_kid ks k); [done|]. by apply (subtree_ids v k).
Qed.

Lemma subtree_wf (s : store) (u t : tree) : subtree u t -> wf s t -> wf s u.
Proof.
  intros Hsub (Hsh & Hnd & Hup). induction Hsub as [|n ks k Hk Hsub IH]; [done|].
  apply IH.
  - by apply (shape_kids s n ks k).
  - simpl in Hnd. apply NoDup_cons in Hnd as [_ Hnd]. by apply (NoDup_kid ks).
  - intros x Hx. destruct (shape_kids s n ks k Hsh Hk) as [_ ->].
    intros [= ->]. simpl in Hnd. apply NoDup_cons in Hnd as [Hnot _].
    apply Hnot. by apply (ids_kid ks k).
Qed.

Lemma leaves_ids (t : tree) (x : node) : x ∈ leaves t -> x ∈ ids t.
Proof.
  induction t as [n ks IH] using tree_ind'. destruct ks as [|k ks].
  - simpl. intros Hx. apply list_elem_of_singleton in Hx as ->. left.
  - intros Hx. change (x ∈ flat_map leaves (k :: ks)) in Hx.
    apply elem_of_flat_map in Hx as (k' & Hk' & Hx).
    rewrite Forall_forall in IH. simpl. right.
    apply (ids_kid (k :: ks) k'); [done|by apply IH].
Qed.

Lemma leaves_children (s : store) (t : tree) (x : node) :
  shape s t -> x ∈ leaves t -> children s x = [].
Proof.
  induction t as [n ks IH] using tree_ind'. intros Hsh Hx. destruct ks as [|k ks].
  - simpl in Hx. apply list_elem_of_singleton in Hx as ->.
    by inversion Hsh as [? ? Hch _ _].
  - change (x ∈ flat_map leaves (k :: ks)) in Hx.
    apply elem_of_flat_map in Hx as (k' & Hk' & Hx).
    rewrite Forall_forall in IH. apply (IH k' Hk'); [|done].
    by apply (shape_kids s n (k :: ks) k').
Qed.

Lemma no_unary_children (s : store) (t : tree) (x : node) :
  shape s t -> no_unary t = true -> x ∈ ids t -> length (children s x) <> 1.
Proof.
  induction t as [n ks IH] using tree_ind'. intros Hsh Hnu Hx.
  simpl in Hnu. apply andb_prop in Hnu as [Hn Hks].
  simpl in Hx. apply elem_of_cons in Hx as [->|Hx].
  - inversion Hsh as [? ? Hch _ _]; subst. rewrite Hch, length_map.
    apply negb_true_iff, bool_decide_eq_false in Hn. done.
  - apply elem_of_flat_map in Hx as (k & Hk & Hx).
    rewrite Forall_forall in IH. apply (IH k Hk); [|  |done].
    + by apply (shape_kids s n ks k).
    + rewrite forallb_forall in Hks. apply Hks. by apply list_elem_of_In.
Qed.

(** ** Pre order *)

Lemma preorder_only_self (fuel : nat) (s : store) (n : node) :
  _iter_descendants_preorder (S fuel) s n = Ok [n].
Proof. unfold _iter_descendants_preorder. simpl. by destruct fuel. Qed.

(** ** Parent links under [add_child] *)

Lemma up_add_child (s : store) (p c : node) (nm : option string) (d sp : option F) (x : node) :
  up (add_child p (Some c) nm d sp s).1 x
  = if decide (c = x /\ c < length s) then Some p else up s x.
Proof.
  unfold add_child, bind, ret, write, children_append.
  destruct nm, d, sp; simpl;
    rewrite up_set_up, up_set_children, ?up_set_support, ?up_set_dist, ?up_set_name;
    unfold set_children, set_support, set_dist, set_name; rewrite ?length_alter; done.
Qed.

Lemma climbs_trans (s : store) (x y z : node) :
  climbs s x y -> climbs s y z -> climbs s x z.
Proof.
  induction 1 as [x p Hp|x p y Hp _ IH]; intros Hz.
  - by eapply climbs_more.
  - eapply climbs_more; [done|]. by apply IH.
Qed.

(** A path in the arena after [add_child(p, c)] is a path that was there
    before, or goes through the new link from [c] to [p]. *)
Lemma climbs_add_child (s : store) (p c : node) (nm : option string) (d sp : option F)
    (x y : node) :
  climbs (add_child p (Some c) nm d sp s).1 x y ->
  climbs s x y \/ ((x = c \/ climbs s x c) /\ (p = y \/ climbs s p y)).
Proof.
  induction 1 as [x q Hq|x q y Hq _ IH]; rewrite up_add_child in Hq; case_decide as Hc.
  - destruct Hc as [-> _]. injection Hq as <-. right. split; by left.
  - left. by apply climbs_one.
  - destruct Hc as [-> _]. injection Hq as <-. right. split; [by left|].
    destruct IH as [IH|[_ IH]]; [by right|done].
  - destruct IH as [IH|[IH1 IH2]].
    + left. by eapply climbs_more.
    + right. split; [|done]. right.
      destruct IH1 as [->|IH1]; [by apply climbs_one|by eapply climbs_more].
Qed.

(** ** Pruning to the leaf set *)

Lemma fold_res_app {A B} (f : A -> B -> res A) (a : A) (l1 l2 : list B) :
  fold_res f a (l1 ++ l2) = rbind (fold_res f a l1) (fun a' => fold_res f a' l2).
Proof.
  revert a. induction l1 as [|x l1 IH]; intros a; simpl; [done|].
  destruct (f a x); simpl; [apply IH|done..].
Qed.

Lemma bind_ok {A B} (m : M A) (k : A -> M B) (s s' : store) (a : A) :
  m s = (s', Ok a) -> bind m k s = k a s'.
Proof. intros H. unfold bind. by rewrite H. Qed.

Lemma bind_lift_ok {A B} (f : store -> res A) (k : A -> M B) (s : store) (a : A) :
  f s = Ok a -> bind (lift f) k s = k a s.
Proof. intros H. unfold bind, lift. by rewrite H. Qed.

Lemma for_each_skip {A} (l : list A) (body : A -> M unit) (s : store) :
  (forall x, x ∈ l -> body x s = (s, Ok tt)) ->
  for_each l body s = (s, Ok tt).
Proof.
  induction l as [|x l IH]; intros H; simpl; [done|].
  unfold bind. rewrite H by left. apply IH. intros y Hy. apply H. by right.
Qed.

Lemma translate_each_instances (fuel : nat) (s : store) (r : node) (K : list node) :
  translate_each fuel s r (map ByNode K) = Ok K.
Proof. induction K as [|x K IH]; simpl; [done|]. by rewrite IH. Qed.

Lemma existsb_kept (keep : list node) (ks : list tree) (k : tree) :
  k ∈ ks -> root k ∈ keep ->
  existsb (fun c => bool_decide (c ∈ keep)) (map root ks) = true.
Proof.
  intros Hk Hin. apply existsb_exists. exists (root k). split.
  - apply list_elem_of_In, list_elem_of_fmap. by exists k.
  - by apply bool_decide_eq_true.
Qed.

Lemma elem_of_set_add (x y : node) (l : list node) :
  y ∈ set_add x l <-> y = x \/ y ∈ l.
Proof.
  unfold set_add. case_decide as Hx.
  - split; [by right|]. by intros [->|].
  - rewrite elem_of_app, list_elem_of_singleton. tauto.
Qed.

(** The marking pass: when the leaves are kept, every node ends up kept and
    nothing is queued for detaching. *)
Lemma prune_visit_all_kept (s : store) (t : tree) :
  shape s t ->
  forall keep,
    (forall x, x ∈ leaves t -> x ∈ keep) ->
    exists keep',
      fold_res (prune_visit s) (keep, []) (post t) = Ok (keep', []) /\
      (forall x, x ∈ keep -> x ∈ keep') /\
      (forall x, x ∈ keep' -> x ∈ keep \/ x ∈ ids t) /\
      root t ∈ keep'.
Proof.
  induction t as [n ks IH] using tree_ind'. intros Hsh keep Hleaves.
  assert (Hinner : forall ks',
    (forall k, k ∈ ks' -> k ∈ ks) ->
    forall keep0, (forall x, x ∈ flat_map leaves ks' -> x ∈ keep0) ->
    exists keep',
      fold_res (prune_visit s) (keep0, []) (flat_map post ks') = Ok (keep', []) /\
      (forall x, x ∈ keep0 -> x ∈ keep') /\
      (forall x, x ∈ keep' -> x ∈ keep0 \/ x ∈ flat_map ids ks') /\
      (forall k, k ∈ ks' -> root k ∈ keep')).
  { rewrite Forall_forall in IH.
    induction ks' as [|k ks' IHks']; intros Hsub keep0 Hl0.
    - exists keep0. simpl. repeat split; auto.
      intros k Hk. by apply elem_of_nil in Hk.
    - assert (Hk : k ∈ ks) by (apply Hsub; left).
      destruct (IH k Hk (proj1 (shape_kids s n ks k Hsh Hk)) keep0)
        as (keep1 & Hf1 & Hmono1 & Hb1 & Hr1).
      { intros x Hx. apply Hl0. simpl. apply elem_of_app. by left. }
      destruct (IHks' (fun k' Hk' => Hsub k' (list_elem_of_further _ _ _ Hk')) keep1)
        as (keep2 & Hf2 & Hmono2 & Hb2 & Hr2).
      { intros x Hx. apply Hmono1, Hl0. simpl. apply elem_of_app. by right. }
      exists keep2. simpl. rewrite fold_res_app, Hf1. simpl. split; [done|].
      split; [auto|]. split.
      + intros x Hx. rewrite elem_of_app.
        destruct (Hb2 x Hx) as [Hx1|Hx1]; [|tauto].
        destruct (Hb1 x Hx1); tauto.
      + intros k' Hk'. apply elem_of_cons in Hk' as [->|Hk']; auto. }
  inversion Hsh as [? ? Hch _ _]; subst.
  destruct ks as [|k ks].
  - exists keep. simpl. rewrite Hch. simpl.
    assert (Hn : n ∈ keep) by (apply Hleaves; simpl; left).
    rewrite decide_True by done. repeat split; auto.
  - destruct (Hinner (k :: ks) (fun _ H => H) keep Hleaves)
      as (keep1 & Hf1 & Hmono1 & Hb1 & Hr1).
    exists (set_add n keep1).
    change (post (T n (k :: ks))) with (flat_map post (k :: ks) ++ [n]).
    rewrite fold_res_app, Hf1. simpl. rewrite Hch.
    rewrite (existsb_kept keep1 (k :: ks) k) by (try left; apply Hr1; left).
    rewrite decide_True by (apply elem_of_set_add; by left).
    split; [done|]. split; [|split].
    + intros x Hx. apply elem_of_set_add. right. auto.
    + intros x Hx. apply elem_of_set_add in Hx as [->|Hx]; [right; left|].
      destruct (Hb1 x Hx) as [?|?]; [by left|right; by right].
    + apply elem_of_set_add. by left.
Qed.

Lemma get_leaves_leaf (fuel : nat) (s : store) (x : node) :
  children s x = [] -> get_leaves (S fuel) s x = Ok [x].
Proof.
  intros Hx. unfold get_leaves, traverse. rewrite decide_True by done.
  simpl iterate. rewrite preorder_only_self. simpl.
  rewrite filter_cons_True; [done|]. unfold is_leaf. rewrite Hx. done.
Qed.


(** ** Ultrametric conversion *)

Lemma max_depth_lookups (m : gmap nat nat) (cs : list node) (acc : list nat) :
  (forall c, c ∈ cs -> is_Some (m !! c)) ->
  exists ds,
    fold_res (fun acc c => let? d := or_raise KeyError (m !! c) in Ok (acc ++ [d])) acc cs
    = Ok ds.
Proof.
  revert acc. induction cs as [|c cs IH]; intros acc H; simpl; [by eexists|].
  destruct (H c) as [d Hd]; [left|]. rewrite Hd. simpl.
  apply IH. intros c' Hc'. apply H. by right.
Qed.

Lemma max_depth_visit_good (s : store) (m : gmap nat nat) (n : node) :
  (forall c, c ∈ children s n -> is_Some (m !! c)) ->
  exists m',
    max_depth_visit s m n = Ok m' /\
    (forall x, good s m x -> good s m' x) /\ good s m' n.
Proof.
  intros Hcs. unfold max_depth_visit. destruct (is_leaf s n) eqn:Hleaf.
  - eexists. split; [done|]. split.
    + intros x (d & Hd & HQ). destruct (decide (n = x)) as [->|Hne].
      * exists 1. by rewrite lookup_insert_eq.
      * exists d. by rewrite lookup_insert_ne.
    + exists 1. by rewrite lookup_insert_eq.
  - destruct (max_depth_lookups m (children s n) [] Hcs) as [ds Hds].
    rewrite Hds. simpl. eexists. split; [done|]. split.
    + intros x (d & Hd & HQ). destruct (decide (n = x)) as [->|Hne].
      * eexists. rewrite lookup_insert_eq. split; [done|]. by rewrite Hleaf.
      * exists d. by rewrite lookup_insert_ne.
    + eexists. rewrite lookup_insert_eq. split; [done|]. by rewrite Hleaf.
Qed.

(** The first loop fills the table for every node of the tree. *)
Lemma max_depth_fold (s : store) (t : tree) :
  shape s t ->
  forall m,
    exists m',
      fold_res (max_depth_visit s) m (post t) = Ok m' /\
      (forall x, good s m x -> good s m' x) /\
      (forall x, x ∈ ids t -> good s m' x).
Proof.
  induction t as [n ks IH] using tree_ind'. intros Hsh m.
  assert (Hinner : forall ks',
    (forall k, k ∈ ks' -> k ∈ ks) ->
    forall m0, exists m',
      fold_res (max_depth_visit s) m0 (flat_map post ks') = Ok m' /\
      (forall x, good s m0 x -> good s m' x) /\
      (forall x, x ∈ flat_map ids ks' -> good s m' x)).
  { rewrite Forall_forall in IH.
    induction ks' as [|k ks' IHks']; intros Hsub m0.
    - exists m0. simpl. repeat split; auto. intros x Hx. by apply elem_of_nil in Hx.
    - assert (Hk : k ∈ ks) by (apply Hsub; left).
      destruct (IH k Hk (proj1 (shape_kids s n ks k Hsh Hk)) m0) as (m1 & Hf1 & Hmono1 & Hg1).
      destruct (IHks' (fun k' Hk' => Hsub k' (list_elem_of_further _ _ _ Hk')) m1)
        as (m2 & Hf2 & Hmono2 & Hg2).
      exists m2. simpl. rewrite fold_res_app, Hf1. simpl. split; [done|].
      split; [auto|]. intros x Hx. apply elem_of_app in Hx as [Hx|Hx]; auto. }
  destruct (Hinner ks (fun _ H => H) m) as (m1 & Hf1 & Hmono1 & Hg1).
  inversion Hsh as [? ? Hch _ _]; subst.
  destruct (max_depth_visit_good s m1 n) as (m2 & Hv & Hmono2 & Hg2).
  { intros c Hc. rewrite Hch in Hc. apply list_elem_of_fmap in Hc as (k & -> & Hk).
    destruct (Hg1 (root k)) as (d & Hd & _); [|by eexists].
    apply (ids_kid ks k); [done|apply root_in_ids]. }
  exists m2. change (post (T n ks)) with (flat_map post ks ++ [n]).
  rewrite fold_res_app, Hf1. simpl. rewrite Hv. simpl. split; [done|].
  split; [auto|]. intros x Hx. simpl in Hx. apply elem_of_cons in Hx as [->|Hx]; auto.
Qed.

Lemma is_leaf_children (s s' : store) (x : node) :
  children s x = children s' x -> is_leaf s x = is_leaf s' x.
Proof. unfold is_leaf. by intros ->. Qed.

Section UltrametricLoop.
Context (s0 : store) (r : node) (strategy : string) (tree_length step : F).
Context (md : gmap nat nat).

(** [E s m x p]: what the loop body establishes for [x] below [p], in the
    arena [s] and the table [m]. *)
Variable E : store -> gmap nat F -> node -> node -> Prop.

Hypothesis E_stable : forall s m x p y v w,
  E s m x p -> y <> x -> y <> p -> E (set_dist y v s) (<[y := w]> m) x p.

Hypothesis E_visit : forall s m x p a,
  up s x = Some p -> children s x = children s0 x -> m !! p = Some a ->
  x <> p -> x < length s -> good s0 md x -> x ∈ children s0 p ->
  exists v w,
    ultrametric_visit strategy tree_length step md m x s
      = (set_dist x v s, Ok (<[x := w]> m)) /\
    E (set_dist x v s) (<[x := w]> m) x p.

Lemma ultrametric_loop (l : list node) :
  forall seen s m,
    parents_first s0 seen l ->
    NoDup l ->
    (forall x, x ∈ l -> (x ∉ seen) /\ good s0 md x) ->
    loop_inv s0 r E seen s m ->
    exists s' m',
      fold_M (ultrametric_visit strategy tree_length step md) m l s = (s', Ok m') /\
      loop_inv s0 r E (rev l ++ seen) s' m'.
Proof.
  induction l as [|x l IH]; intros seen s m Hpf Hnd Hl Hinv.
  - exists s, m. by split.
  - destruct Hpf as [(p & Hp & Hxch & Hpseen) Hpf].
    apply NoDup_cons in Hnd as [Hxl Hnd].
    destruct (Hl x) as [Hxseen Hgood]; [left|].
    destruct Hinv as (Hup & Hch & Hlen & [Hrseen Hr] & Hsome & HE).
    destruct (Hsome p Hpseen) as [a Ha].
    assert (Hxp : x <> p) by (intros ->; done).
    destruct (E_visit s m x p a) as (v & w & Hrun & HEx); auto.
    { by rewrite Hup. }
    { rewrite Hlen. by eapply up_Some_lt. }
    destruct (IH (x :: seen) (set_dist x v s) (<[x := w]> m)) as (s' & m' & Hrun' & Hinv').
    + done.
    + done.
    + intros y Hy. destruct (Hl y) as [Hy1 Hy2]; [by right|]. split; [|done].
      apply not_elem_of_cons. split; [|done]. intros ->. done.
    + repeat split.
      * intros z. by rewrite up_set_dist.
      * intros z. by rewrite children_set_dist.
      * by rewrite length_set_dist.
      * by right.
      * rewrite lookup_insert_ne; [done|]. by intros ->.
      * intros y Hy. apply elem_of_cons in Hy as [->|Hy].
        -- rewrite lookup_insert_eq. by eexists.
        -- rewrite lookup_insert_ne; [by apply Hsome|]. by intros ->.
      * intros y Hy Hyr. apply elem_of_cons in Hy as [->|Hy].
        -- exists p. split; [done|]. split; [by right|done].
        -- destruct (HE y Hy Hyr) as (q & Hq & Hqseen & HEy).
           exists q. split; [done|]. split; [by right|].
           apply E_stable; [done| |]; by intros ->.
    + exists s', m'. split.
      * simpl. by erewrite bind_ok by exact Hrun.
      * simpl. by rewrite <- app_assoc.
Qed.
End UltrametricLoop.

Lemma cumulative_dist_root (fuel : nat) (s : store) (r : node) :
  cumulative_dist fuel s r r = Some f0.
Proof. destruct fuel; simpl; by rewrite decide_True. Qed.

(** If [val] adds up along parent links, it is the cumulative distance. *)
Lemma cumulative_of_val (s0 s : store) (r : node) (val : node -> F) (l : list node) :
  (forall z, up s z = up s0 z) ->
  forall seen,
    parents_first s0 seen l ->
    (forall x, x ∈ seen ->
       forall fuel, length seen <= fuel -> cumulative_dist fuel s r x = Some (val x)) ->
    (forall x, x ∈ l ->
       x <> r /\ forall p, up s0 x = Some p -> x ∈ children s0 p ->
                 val x = fadd (dist s x) (val p)) ->
    forall x, x ∈ l ->
      forall fuel, length seen + length l <= fuel ->
        cumulative_dist fuel s r x = Some (val x).
Proof.
  intros Hup. induction l as [|x0 l IH]; intros seen Hpf Hseen Hl x Hx fuel Hfuel.
  - by apply elem_of_nil in Hx.
  - destruct Hpf as [(p & Hp & Hxch & Hpseen) Hpf].
    assert (H0 : forall fuel, S (length seen) <= fuel ->
                   cumulative_dist fuel s r x0 = Some (val x0)).
    { intros [|f] Hf; [lia|]. destruct (Hl x0) as [Hne Hval]; [left|].
      simpl. rewrite decide_False by done. rewrite Hup, Hp. simpl.
      rewrite (Hseen p Hpseen f) by lia. simpl. by rewrite (Hval p). }
    simpl in Hfuel. apply elem_of_cons in Hx as [->|Hx]; [apply H0; lia|].
    apply (IH (x0 :: seen)); auto.
    + intros y Hy f Hf. simpl in Hf. apply elem_of_cons in Hy as [->|Hy].
      * apply H0. lia.
      * apply Hseen; [done|lia].
    + intros y Hy. apply Hl. by right.
    + simpl. lia.
Qed.

Lemma length_ids (t : tree) : length (ids t) = size t.
Proof.
  induction t as [n ks IH] using tree_ind'. simpl. f_equal.
  induction IH as [|k ks Hk _ IHks]; simpl; [done|]. rewrite length_app. lia.
Qed.

Section Exact.
Context {EN : ExactNum N}.
Context (s0 : store) (r : node) (tree_length step : F) (md : gmap nat nat).

Lemma E_balanced_stable s m x p y v w :
  E_balanced s0 tree_length s m x p -> y <> x -> y <> p ->
  E_balanced s0 tree_length (set_dist y v s) (<[y := w]> m) x p.
Proof.
  intros (a & Hp & Hx & Hleaf) Hyx Hyp. exists a.
  rewrite !lookup_insert_ne by done. rewrite dist_set_dist.
  rewrite decide_False by (intros [? _]; done). done.
Qed.

Lemma E_fixed_stable s m x p y v w :
  E_fixed s0 tree_length step s m x p -> y <> x -> y <> p ->
  E_fixed s0 tree_length step (set_dist y v s) (<[y := w]> m) x p.
Proof.
  intros (a & Hp & Hx & Hleaf & Hd) Hyx Hyp. exists a.
  rewrite !lookup_insert_ne by done. rewrite dist_set_dist.
  rewrite decide_False by (intros [? _]; done). done.
Qed.

Lemma E_balanced_visit s m x p a :
  up s x = Some p -> children s x = children s0 x -> m !! p = Some a ->
  x <> p -> x < length s -> good s0 md x -> x ∈ children s0 p ->
  exists v w,
    ultrametric_visit "balanced" tree_length step md m x s
      = (set_dist x v s, Ok (<[x := w]> m)) /\
    E_balanced s0 tree_length (set_dist x v s) (<[x := w]> m) x p.
Proof.
  intros Hup Hch Hp Hxp Hlt (d & Hd & Hleaf) _.
  exists (fdiv (fsub tree_length a) (of_nat d)).
  exists (fadd (fdiv (fsub tree_length a) (of_nat d)) a).
  assert (Hdist : forall v, dist (set_dist x v s) x = v).
  { intros v. rewrite dist_set_dist. by rewrite decide_True. }
  split.
  - unfold ultrametric_visit. rewrite decide_True by done.
    unfold bind, lift, read, write, ret. rewrite Hup. simpl. rewrite Hp. simpl.
    rewrite Hd. simpl. by rewrite Hdist.
  - exists a. rewrite lookup_insert_ne by done. rewrite lookup_insert_eq, Hdist.
    split; [done|]. split; [done|]. intros Hl. rewrite (Hleaf Hl).
    by rewrite fdiv_1, fsub_add.
Qed.

Lemma E_fixed_visit s m x p a :
  up s x = Some p -> children s x = children s0 x -> m !! p = Some a ->
  x <> p -> x < length s -> good s0 md x -> x ∈ children s0 p ->
  exists v w,
    ultrametric_visit "fixed" tree_length step md m x s
      = (set_dist x v s, Ok (<[x := w]> m)) /\
    E_fixed s0 tree_length step (set_dist x v s) (<[x := w]> m) x p.
Proof.
  intros Hup Hch Hp Hxp Hlt _ Hxch.
  exists (if is_leaf s0 x then fsub tree_length (fmul a step) else step).
  exists (fadd a (of_nat 1)).
  assert (Hdist : forall v, dist (set_dist x v s) x = v).
  { intros v. rewrite dist_set_dist. by rewrite decide_True. }
  assert (Hpl : is_leaf s0 p = false).
  { unfold is_leaf. apply bool_decide_eq_false. intros Hlen.
    destruct (children s0 p); [by apply elem_of_nil in Hxch|done]. }
  split.
  - unfold ultrametric_visit. rewrite decide_False by done. rewrite decide_True by done.
    unfold bind, lift, read, write, ret.
    rewrite (is_leaf_children s s0 x Hch).
    destruct (is_leaf s0 x).
    + rewrite Hup. simpl. rewrite Hp. simpl. rewrite up_set_dist, Hup. simpl.
      by rewrite Hp.
    + rewrite up_set_dist, Hup. simpl. by rewrite Hp.
  - exists a. rewrite lookup_insert_ne by done. rewrite lookup_insert_eq, Hdist. done.
Qed.
End Exact.

Section ExactTheorems.
Context {EN : ExactNum N}.

(** After the second loop, a value [val] adds up along the parent links and
    equals the requested length at the leaves. *)
Lemma ultrametric_vals (s : store) (r : node) (strategy : string) (tree_length step : F)
    (md : gmap nat nat) (l : list node) :
  strategy = "balanced"%string \/ strategy = "fixed"%string ->
  parents_first s [r] l -> NoDup l -> r ∉ l ->
  (forall x, x ∈ l -> good s md x) ->
  exists s' m' val,
    fold_M (ultrametric_visit strategy tree_length step md) {[ r := f0 ]} l s = (s', Ok m') /\
    (forall z, up s' z = up s z) /\
    val r = f0 /\
    (forall x, x ∈ l -> forall p, up s x = Some p -> x ∈ children s p ->
       val x = fadd (dist s' x) (val p)) /\
    (forall x, x ∈ l -> is_leaf s x = true -> val x = tree_length).
Proof.
  intros Hstrat Hpf Hnd Hr Hgood.
  assert (Hinit : forall E, loop_inv s r E [r] s {[ r := f0 ]}).
  { intros E. repeat split.
    - left.
    - by rewrite lookup_singleton_eq.
    - intros x Hx. apply list_elem_of_singleton in Hx as ->.
      rewrite lookup_singleton_eq. by eexists.
    - intros x Hx Hne. by apply list_elem_of_singleton in Hx. }
  assert (Hl : forall x, x ∈ l -> (x ∉ [r]) /\ good s md x).
  { intros x Hx. split; [|by apply Hgood]. intros Hin.
    apply list_elem_of_singleton in Hin as ->. done. }
  assert (Hin : forall x, x ∈ l -> x ∈ rev l ++ [r]).
  { intros x Hx. apply elem_of_app. left. by apply elem_of_rev. }
  destruct Hstrat as [-> | ->].
  - destruct (ultrametric_loop s r "balanced" tree_length step md
                (E_balanced s tree_length)
                (E_balanced_stable s tree_length)
                (E_balanced_visit s tree_length step md)
                l [r] s {[ r := f0 ]} Hpf Hnd Hl (Hinit _))
      as (s' & m' & Hrun & Hup' & _ & _ & [_ Hmr] & _ & HE).
    exists s', m', (fun x => default f0 (m' !! x)).
    split; [done|]. split; [done|]. split; [by rewrite Hmr|]. split.
    + intros x Hx p Hp _. destruct (HE x (Hin x Hx)) as (q & Hq & _ & a & Ha & Hxa & _).
      { intros ->. done. }
      rewrite Hp in Hq. injection Hq as <-. by rewrite Hxa, Ha.
    + intros x Hx Hleaf. destruct (HE x (Hin x Hx)) as (q & Hq & _ & a & Ha & Hxa & HL).
      { intros ->. done. }
      rewrite Hxa. simpl. by apply HL.
  - destruct (ultrametric_loop s r "fixed" tree_length step md
                (E_fixed s tree_length step)
                (E_fixed_stable s tree_length step)
                (E_fixed_visit s tree_length step md)
                l [r] s {[ r := f0 ]} Hpf Hnd Hl (Hinit _))
      as (s' & m' & Hrun & Hup' & _ & _ & [_ Hmr] & _ & HE).
    exists s', m',
      (fun x => if decide (x <> r /\ is_leaf s x = true) then tree_length
                else fmul (default f0 (m' !! x)) step).
    split; [done|]. split; [done|]. split.
    { rewrite decide_False by (intros [? _]; done). rewrite Hmr. simpl. apply fmul_0_l. }
    split.
    + intros x Hx p Hp _.
      destruct (HE x (Hin x Hx)) as (q & Hq & _ & a & Ha & Hxa & Hpl & Hd).
      { intros ->. done. }
      rewrite Hp in Hq. injection Hq as <-.
      rewrite (decide_False (P := p <> r /\ _)) by (intros [_ ?]; congruence).
      rewrite Ha, Hd. simpl. destruct (is_leaf s x) eqn:Hxl.
      * rewrite decide_True; [by rewrite fsub_add|]. split; [|done]. by intros ->.
      * rewrite decide_False by (intros [_ ?]; done). rewrite Hxa. simpl.
        rewrite fmul_add_distr_r, of_nat_1, fmul_1_l. apply fadd_comm.
    + intros x Hx Hleaf. rewrite decide_True; [done|]. split; [|done]. by intros ->.
Qed.


End ExactTheorems.

(** ** Paths to the root *)

Lemma path_exists (x : node) (t : tree) : x ∈ ids t -> exists l, path x t l.
Proof.
  induction t as [n ks IH] using tree_ind'. intros Hx.
  simpl in Hx. apply elem_of_cons in Hx as [->|Hx].
  - eexists. apply path_here.
  - apply elem_of_flat_map in Hx as (k & Hk & Hx).
    rewrite Forall_forall in IH. destruct (IH k Hk Hx) as [l Hl].
    eexists. by eapply path_kid.
Qed.

Lemma path_head (x : node) (t : tree) (l : list tree) :
  path x t l -> exists c0 l', l = c0 :: l' /\ root c0 = x.
Proof.
  induction 1 as [ks|n ks k l Hk _ (c0 & l' & -> & Hr)].
  - by eexists _, _.
  - by eexists _, _.
Qed.

Lemma path_subtree (x : node) (t : tree) (l : list tree) :
  path x t l -> forall c, c ∈ l -> subtree c t /\ x ∈ ids c.
Proof.
  induction 1 as [ks|n ks k l Hk Hp IH]; intros c Hc.
  - apply list_elem_of_singleton in Hc as ->. split; [constructor|left].
  - apply elem_of_app in Hc as [Hc|Hc].
    + destruct (IH c Hc) as [Hsub Hx]. split; [by eapply subtree_kid|done].
    + apply list_elem_of_singleton in Hc as ->. split; [constructor|].
      destruct (path_head _ _ _ Hp) as (c0 & l' & -> & _).
      destruct (IH c0) as [Hsub Hx]; [left|].
      simpl. right. apply (ids_kid ks k); [done|]. by apply (subtree_ids c0 k).
Qed.

Lemma path_in (x : node) (t : tree) (l : list tree) : path x t l -> x ∈ ids t.
Proof.
  intros H. destruct (path_head x t l H) as (c0 & l' & -> & <-).
  destruct (path_subtree _ t _ H c0) as [Hsub _]; [left|].
  apply (subtree_ids c0 t); [done|apply root_in_ids].
Qed.

Lemma path_nested (x : node) (t : tree) (l : list tree) (c0 : tree) (l' : list tree) :
  path x t l -> l = c0 :: l' ->
  forall c, c ∈ l -> forall y, y ∈ ids c0 -> y ∈ ids c.
Proof.
  intros H. revert c0 l'. induction H as [ks|n ks k l Hk Hp IH]; intros c0 l' Hl c Hc y Hy.
  - injection Hl as <- <-. by apply list_elem_of_singleton in Hc as ->.
  - destruct (path_head _ _ _ Hp) as (c1 & l1 & -> & _).
    injection Hl as <- <-.
    apply elem_of_app in Hc as [Hc|Hc]; [by eapply IH|].
    apply list_elem_of_singleton in Hc as ->.
    destruct (path_subtree _ _ _ Hp c1) as [Hsub _]; [left|].
    simpl. right. apply (ids_kid ks k); [done|]. by apply (subtree_ids c1 k).
Qed.

Lemma path_length (x : node) (t : tree) (l : list tree) : path x t l -> length l <= size t.
Proof.
  induction 1 as [ks|n ks k l Hk _ IH]; [simpl; lia|].
  rewrite length_app. simpl.
  assert (size k <= list_sum (map size ks)); [|lia].
  clear IH. induction ks as [|k0 ks IHks]; [by apply elem_of_nil in Hk|].
  simpl. apply elem_of_cons in Hk as [->|Hk]; [lia|]. specialize (IHks Hk). lia.
Qed.

Lemma find_snoc {A} (P : A -> bool) (l : list A) (x : A) :
  find P (l ++ [x]) =
  match find P l with Some c => Some c | None => if P x then Some x else None end.
Proof. induction l as [|y l IH]; simpl; [done|]. by destruct (P y). Qed.

Lemma issubset_spec (a b : list node) :
  issubset a b = true <-> forall x, x ∈ a -> x ∈ b.
Proof.
  unfold issubset. rewrite forallb_forall. split.
  - intros H x Hx. apply list_elem_of_In in Hx. by apply H, bool_decide_eq_true in Hx.
  - intros H x Hx. apply bool_decide_eq_true, H. by apply list_elem_of_In.
Qed.

Lemma issubset_ext (a b b' : list node) :
  (forall y, y ∈ b <-> y ∈ b') -> issubset a b = issubset a b'.
Proof.
  intros H. destruct (issubset a b') eqn:E.
  - apply issubset_spec. intros x Hx. apply H. by apply (proj1 (issubset_spec a b') E).
  - apply not_true_is_false. intros E'. rewrite issubset_spec in E'.
    apply not_true_iff_false in E. apply E, issubset_spec. intros x Hx. by apply H, E'.
Qed.

(** The subtree found first along the path of [x] holds every target, and
    sits inside every subtree that holds [x] and every target. *)
Lemma path_find_spec (targets : list node) (x : node) (t : tree) (l : list tree) :
  path x t l -> NoDup (ids t) ->
  match find (fun c => issubset targets (ids c)) l with
  | Some u =>
      subtree u t /\ issubset targets (ids u) = true /\
      forall v, subtree v t -> x ∈ ids v -> issubset targets (ids v) = true -> subtree u v
  | None => forall v, subtree v t -> x ∈ ids v -> issubset targets (ids v) = false
  end.
Proof.
  induction 1 as [ks|n ks k l Hk Hp IH]; intros Hnd.
  - simpl. destruct (issubset targets (x :: flat_map ids ks)) eqn:E.
    + split; [constructor|]. split; [done|]. intros v Hv Hx _.
      rewrite (subtree_with_root v x ks Hnd Hv Hx). constructor.
    + intros v Hv Hx. by rewrite (subtree_with_root v x ks Hnd Hv Hx).
  - assert (Hndk : NoDup (ids k)).
    { simpl in Hnd. apply NoDup_cons in Hnd as [_ Hnd]. by apply (NoDup_kid ks). }
    assert (Hxk : x ∈ ids k) by (by eapply path_in).
    assert (Hunder : forall v, subtree v (T n ks) -> x ∈ ids v ->
                       v = T n ks \/ subtree v k).
    { intros v Hv Hx. inversion Hv as [|? ? k' Hk' Hvk']; subst; [by left|]. right.
      replace k with k'; [done|].
      simpl in Hnd. apply NoDup_cons in Hnd as [_ Hnd].
      apply (kids_share ks k' k x); auto. by apply (subtree_ids v k'). }
    rewrite find_snoc. specialize (IH Hndk).
    destruct (find (fun c => issubset targets (ids c)) l) as [u|].
    + destruct IH as (Hu & HP & Hmin). split; [by eapply subtree_kid|]. split; [done|].
      intros v Hv Hx HPv. destruct (Hunder v Hv Hx) as [->|Hvk]; [by eapply subtree_kid|auto].
    + destruct (issubset targets (ids (T n ks))) eqn:E.
      * split; [constructor|]. split; [done|]. intros v Hv Hx HPv.
        destruct (Hunder v Hv Hx) as [->|Hvk]; [constructor|].
        rewrite (IH v Hvk Hx) in HPv. done.
      * intros v Hv Hx. destruct (Hunder v Hv Hx) as [->|Hvk]; auto.
Qed.

(** ** Climbing to the common ancestor *)

Lemma traverse_levelorder (fuel : nat) (s : store) (n : node) :
  traverse fuel s n "levelorder" = Some (_iter_descendants_levelorder fuel s n).
Proof. unfold traverse. rewrite decide_False by done. by rewrite decide_True. Qed.

Lemma size_kid (ks : list tree) (k : tree) : k ∈ ks -> size k <= list_sum (map size ks).
Proof.
  induction ks as [|k0 ks IH]; intros Hk; [by apply elem_of_nil in Hk|].
  simpl. apply elem_of_cons in Hk as [->|Hk]; [lia|]. specialize (IH Hk). lia.
Qed.

Lemma filter_const {A} (b : Prop) `{Decision b} (l : list A) :
  filter (fun _ => b) l = if decide b then l else [].
Proof.
  induction l as [|x l IH]; [by case_decide|].
  case_decide.
  - rewrite filter_cons_True by done. by rewrite IH.
  - rewrite filter_cons_False by done. by rewrite IH.
Qed.

Lemma nodes_under_cons (fuel : nat) (s : store) (prev c : node) (rest : list node) :
  nodes_under fuel s prev (c :: rest) =
  let? l := iterate (traverse fuel s c "levelorder") in
  let? r := nodes_under fuel s prev rest in
  Ok (filter (fun _ => c <> prev) l ++ r).
Proof. reflexivity. Qed.

(** The nodes gathered below a node: those of its children's subtrees, the
    child the climb came from left out. *)
Lemma nodes_under_kids (fuel : nat) (s : store) (prev : node) (ks : list tree) :
  Forall (shape s) ks -> list_sum (map size ks) <= fuel ->
  exists l,
    nodes_under fuel s prev (map root ks) = Ok l /\
    forall y, y ∈ l <-> exists k, k ∈ ks /\ root k <> prev /\ y ∈ ids k.
Proof.
  induction ks as [|k ks IH]; intros Hsh Hfuel.
  - exists []. split; [done|]. intros y. split.
    + intros Hy. by apply elem_of_nil in Hy.
    + intros (k & Hk & _). by apply elem_of_nil in Hk.
  - apply Forall_cons in Hsh as [Hk Hks]. simpl in Hfuel.
    destruct (levelorder_tree s k fuel Hk) as (lk & Hlk & Hperm & _); [lia|].
    destruct (IH Hks) as (l & Hl & Hspec); [lia|].
    exists (filter (fun _ => root k <> prev) (root k :: lk) ++ l). split.
    + rewrite map_cons, nodes_under_cons, traverse_levelorder.
      unfold iterate. by rewrite Hlk, Hl.
    + intros y. rewrite elem_of_app, filter_const, Hspec.
      assert (Hids : forall z, z ∈ root k :: lk <-> z ∈ ids k).
      { intros z. destruct k as [n' ks']. simpl in *. by rewrite Hperm. }
      split.
      * intros [Hy|(k' & Hk' & Hne & Hy)].
        -- case_decide; [|by apply elem_of_nil in Hy].
           exists k. split; [left|]. split; [done|]. by apply Hids.
        -- exists k'. split; [by right|done].
      * intros (k' & Hk' & Hne & Hy). apply elem_of_cons in Hk' as [->|Hk'].
        -- left. rewrite decide_True by done. by apply Hids.
        -- right. by exists k'.
Qed.

Lemma gca_loop_unfold (k fuel : nat) (s : store) (targets : list node)
    (cur prev : node) (nb : list node) :
  get_common_ancestor_loop (S k) fuel s targets (Some cur) prev nb =
  let? new_nodes := nodes_under fuel s prev (children s cur) in
  if issubset targets (nb ++ new_nodes ++ [cur]) then Ok (Some cur)
  else get_common_ancestor_loop k fuel s targets (up s cur) cur (nb ++ new_nodes ++ [cur]).
Proof. reflexivity. Qed.

(** One turn of the loop at node [n]: afterwards the gathered nodes are
    exactly those of the subtree of [n]. *)
Lemma gca_iter (k fuel : nat) (s : store) (targets : list node)
    (n : node) (ks : list tree) (prev : node) (nb : list node) :
  shape s (T n ks) -> NoDup (ids (T n ks)) -> size (T n ks) <= fuel ->
  (forall y, y ∈ nb -> y ∈ ids (T n ks)) ->
  (forall kid, kid ∈ ks -> root kid = prev -> forall y, y ∈ ids kid -> y ∈ nb) ->
  exists nb',
    (forall y, y ∈ nb' <-> y ∈ ids (T n ks)) /\
    get_common_ancestor_loop (S k) fuel s targets (Some n) prev nb =
      if issubset targets (ids (T n ks)) then Ok (Some n)
      else get_common_ancestor_loop k fuel s targets (up s n) n nb'.
Proof.
  intros Hsh Hnd Hfuel Hnb Hprev.
  inversion Hsh as [? ? Hch _ Hks]; subst.
  destruct (nodes_under_kids fuel s prev ks Hks) as (l & Hl & Hspec).
  { simpl in Hfuel. lia. }
  exists (nb ++ l ++ [n]).
  assert (Hset : forall y, y ∈ nb ++ l ++ [n] <-> y ∈ ids (T n ks)).
  { intros y. rewrite !elem_of_app, list_elem_of_singleton, Hspec. simpl.
    rewrite elem_of_cons, elem_of_flat_map. split.
    - intros [Hy|[(kid & Hkid & _ & Hy)| ->]]; [|right; by exists kid|by left].
      specialize (Hnb y Hy). simpl in Hnb. apply elem_of_cons in Hnb as [->|Hy'].
      + by left.
      + right. by apply elem_of_flat_map.
    - intros [->|(kid & Hkid & Hy)]; [right; by right|].
      destruct (decide (root kid = prev)) as [He|Hne].
      + left. by apply (Hprev kid).
      + right. left. by exists kid. }
  split; [done|].
  rewrite gca_loop_unfold, Hch, Hl. simpl.
  by rewrite (issubset_ext targets _ _ Hset).
Qed.

(** The loop along the path of [x] in [t]: it stops at the first subtree
    that holds every target, or leaves [t] through its root. *)
Lemma gca_climb (fuel : nat) (s : store) (targets : list node)
    (x : node) (t : tree) (l : list tree) :
  path x t l -> shape s t -> NoDup (ids t) -> size t <= fuel ->
  forall k nb,
    (forall c, c ∈ l -> forall y, y ∈ nb -> y ∈ ids c) ->
    exists nb',
      (forall y, y ∈ nb' <-> y ∈ ids t) /\
      get_common_ancestor_loop (length l + k) fuel s targets (Some x) x nb =
        match find (fun c => issubset targets (ids c)) l with
        | Some c => Ok (Some (root c))
        | None => get_common_ancestor_loop k fuel s targets (up s (root t)) (root t) nb'
        end.
Proof.
  induction 1 as [ks|n ks kd l Hk Hp IH]; intros Hsh Hnd Hfuel k nb Hnb.
  - destruct (gca_iter k fuel s targets x ks x nb Hsh Hnd Hfuel) as (nb' & Hset & Hrun).
    + apply Hnb. left.
    + intros kid Hkid Hroot. exfalso. simpl in Hnd. apply NoDup_cons in Hnd as [Hnot _].
      apply Hnot. apply (ids_kid ks kid); [done|]. rewrite <- Hroot. apply root_in_ids.
    + exists nb'. split; [done|]. simpl length. simpl find.
      change (1 + k) with (S k). rewrite Hrun. simpl.
      by destruct (issubset targets (x :: flat_map ids ks)).
  - destruct (shape_kids s n ks kd Hsh Hk) as [Hshk Hupk].
    assert (Hndk : NoDup (ids kd)).
    { simpl in Hnd. apply NoDup_cons in Hnd as [_ Hnd']. by apply (NoDup_kid ks). }
    pose proof (size_kid ks kd Hk) as Hsz. simpl in Hfuel.
    destruct (IH Hshk Hndk ltac:(lia) (S k) nb) as (nbk & Hsetk & Hrunk).
    { intros c Hc. apply Hnb, elem_of_app. by left. }
    destruct (gca_iter k fuel s targets n ks (root kd) nbk Hsh Hnd) as (nb' & Hset & Hrun).
    + simpl. lia.
    + intros y Hy. simpl. right. apply (ids_kid ks kd); [done|]. by apply Hsetk.
    + intros kid Hkid Hroot y Hy. apply Hsetk.
      replace kd with kid; [done|].
      simpl in Hnd. apply NoDup_cons in Hnd as [_ Hnd'].
      apply (kids_share ks kid kd (root kid)); auto using root_in_ids.
      rewrite Hroot. apply root_in_ids.
    + exists nb'. split; [done|].
      rewrite length_app. simpl length.
      replace (length l + 1 + k) with (length l + S k) by lia.
      rewrite Hrunk, find_snoc.
      destruct (find (fun c => issubset targets (ids c)) l); [done|].
      rewrite Hupk. simpl root. rewrite Hrun.
      by destruct (issubset targets (ids (T n ks))).
Qed.

(** [get_common_ancestor] runs the climb along the path of the last target
    and returns the root of the first subtree on it that holds every target,
    or [None] when it leaves the tree. *)
Lemma get_common_ancestor_run (fuel : nat) (s : store) (t : tree)
    (self : node) (tl : list node) (start : node) (l : list tree) :
  wf s t -> up s (root t) = None ->
  last tl = Some start -> 2 <= length tl -> size t <= fuel ->
  path start t l ->
  get_common_ancestor fuel s self (map ByNode tl)
  = Ok (root <$> find (fun c => issubset tl (ids c)) l).
Proof.
  intros (Hsh & Hnd & _) Hroot Hlast Hlen Hfuel Hp.
  destruct (path_head _ _ _ Hp) as (c0 & l' & Hl & Hc0).
  destruct (path_subtree _ _ _ Hp c0) as [Hsub0 _]; [rewrite Hl; left|].
  pose proof (subtree_shape s c0 t Hsub0 Hsh) as Hsh0.
  pose proof (subtree_NoDup c0 t Hsub0 Hnd) as Hnd0.
  assert (Hsz0 : size c0 <= size t).
  { destruct (subtree_size c0 t Hsub0) as [->|]; lia. }
  destruct (get_descendants_tree s c0 fuel Hsh0 Hnd0) as (below & Hbelow & Hperm & _); [lia|].
  rewrite Hc0 in Hbelow.
  pose proof (path_length _ _ _ Hp) as Hpl.
  destruct (gca_climb fuel s tl start t l Hp Hsh Hnd Hfuel (fuel - length l) (start :: below))
    as (nb' & _ & Hrun).
  { intros c Hc y Hy. apply (path_nested start t l c0 l' Hp Hl c Hc).
    destruct c0 as [n0 ks0]. simpl in *. subst n0.
    apply elem_of_cons in Hy as [->|Hy]; [left|right]. by rewrite <- Hperm. }
  replace (length l + (fuel - length l)) with fuel in Hrun by lia.
  unfold get_common_ancestor, _translate_nodes. rewrite translate_each_instances.
  destruct tl as [|a [|b tl']]; [simpl in Hlen; lia..|].
  cbv beta iota delta [rbind]. rewrite decide_False by (simpl; lia).
  rewrite Hlast. cbv beta iota delta [or_raise]. rewrite Hbelow, Hrun.
  destruct (find (fun c => issubset (a :: b :: tl') (ids c)) l); [done|].
  rewrite Hroot. by destruct (fuel - length l).
Qed.

Lemma last_elem_of {A} (l : list A) (x : A) : last l = Some x -> x ∈ l.
Proof.
  induction l as [|a [|b l] IH]; intros H; [done| |].
  - injection H as ->. left.
  - right. by apply IH.
Qed.

(** C9 (amended): with two or more targets given as nodes, the last of them
    in a tree rooted at a parentless node, [get_common_ancestor] returns the
    root of the smallest subtree holding every target; when some target is
    not in that tree it returns [None] and raises nothing.  The node the
    method is called on plays no part. *)
Theorem get_common_ancestor_nearest (fuel : nat) (s : store) (t : tree)
    (self : node) (tl : list node) (start : node) :
  wf s t -> up s (root t) = None ->
  last tl = Some start -> start ∈ ids t -> 2 <= length tl -> size t <= fuel ->
  exists r,
    get_common_ancestor fuel s self (map ByNode tl) = Ok r /\
    match r with
    | Some c =>
        exists u, subtree u t /\ root u = c /\ (forall x, x ∈ tl -> x ∈ ids u) /\
                  forall v, subtree v t -> (forall x, x ∈ tl -> x ∈ ids v) -> subtree u v
    | None => ~ forall x, x ∈ tl -> x ∈ ids t
    end.
Proof.
  intros Hwf Hroot Hlast Hstart Hlen Hfuel.
  destruct (path_exists start t Hstart) as [l Hp].
  rewrite (get_common_ancestor_run fuel s t self tl start l) by done.
  pose proof (path_find_spec tl start t l Hp (proj1 (proj2 Hwf))) as Hspec.
  pose proof (last_elem_of tl start Hlast) as Hin.
  eexists. split; [done|].
  destruct (find (fun c => issubset tl (ids c)) l) as [u|]; simpl.
  - destruct Hspec as (Hu & HP & Hmin).
    exists u. split; [done|]. split; [done|]. rewrite issubset_spec in HP. split; [done|].
    intros v Hv Hall. apply Hmin; [done|by apply Hall|by apply issubset_spec].
  - intros Hall. specialize (Hspec t ltac:(constructor) Hstart).
    apply not_true_iff_false in Hspec. by apply Hspec, issubset_spec.
Qed.

(** ** The two legs of a distance *)

Lemma distance_leg_unfold (fuel : nat) (s : store) (topo : bool) (target anc cur : node) (d : F) :
  distance_leg (S fuel) s topo target anc (Some cur) d =
  if decide (cur = anc) then Ok d
  else distance_leg fuel s topo target anc (up s cur) (leg_step s topo target d cur).
Proof. reflexivity. Qed.

Lemma distance_leg_arrived (fuel : nat) (s : store) (topo : bool) (target anc : node) (d : F) :
  distance_leg fuel s topo target anc (Some anc) d = Ok d.
Proof. destruct fuel; simpl; by rewrite decide_True. Qed.

Lemma path_last (x : node) (t : tree) (l : list tree) : path x t l -> t ∈ l.
Proof. destruct 1; [left|]. apply elem_of_app. right. left. Qed.

(** A leg climbs the path of [y] inside [k] and leaves [k] through its root. *)
Lemma leg_climb (s : store) (topo : bool) (target : node) (y : node) (k : tree) (l : list tree) :
  path y k l -> shape s k ->
  forall anc, anc ∉ ids k ->
  forall f d,
    distance_leg (length l + f) s topo target anc (Some y) d =
    distance_leg f s topo target anc (up s (root k))
      (foldl (leg_step s topo target) d (map root l)).
Proof.
  induction 1 as [ks|n ks kd l Hk Hp IH]; intros Hsh anc Hanc f d.
  - simpl length. change (1 + f) with (S f). rewrite distance_leg_unfold.
    rewrite decide_False; [done|]. intros ->. apply Hanc. left.
  - destruct (shape_kids s n ks kd Hsh Hk) as [Hshk Hupk].
    rewrite length_app. simpl length.
    replace (length l + 1 + f) with (length l + S f) by lia.
    rewrite IH; [|done|].
    2:{ intros Hin. apply Hanc. simpl. right. by apply (ids_kid ks kd). }
    rewrite Hupk, distance_leg_unfold, decide_False.
    + by rewrite map_app, foldl_app.
    + intros ->. apply Hanc. left.
Qed.

(** A leg from [y] to the root of a subtree [u] that holds [y] adds one step
    for each node of the path strictly below that root. *)
Lemma leg_to_ancestor (fuel : nat) (s : store) (topo : bool) (target : node)
    (y : node) (u : tree) (l : list tree) (d : F) :
  path y u l -> shape s u -> NoDup (ids u) -> size u <= fuel ->
  distance_leg fuel s topo target (root u) (Some y) d =
  Ok (foldl (leg_step s topo target) d (map root (removelast l))).
Proof.
  intros Hp Hsh Hnd Hfuel. pose proof (path_length _ _ _ Hp) as Hlen.
  destruct Hp as [ks|n ks kd l Hk Hp].
  - simpl. apply distance_leg_arrived.
  - rewrite removelast_last. simpl root.
    rewrite length_app in Hlen. simpl in Hlen, Hfuel.
    replace fuel with (length l + (fuel - length l)) by lia.
    rewrite (leg_climb s topo target y kd l Hp).
    + destruct (shape_kids s n ks kd Hsh Hk) as [_ ->]. apply distance_leg_arrived.
    + by destruct (shape_kids s n ks kd Hsh Hk).
    + intros Hin. simpl in Hnd. apply NoDup_cons in Hnd as [Hnot _].
      apply Hnot. by apply (ids_kid ks kd).
Qed.

Lemma path_climbs (s : store) (x : node) (t : tree) (l : list tree) :
  path x t l -> shape s t -> forall c, c ∈ l -> root c = x \/ climbs s x (root c).
Proof.
  induction 1 as [ks|n ks kd l Hk Hp IH]; intros Hsh c Hc.
  - apply list_elem_of_singleton in Hc as ->. by left.
  - destruct (shape_kids s n ks kd Hsh Hk) as [Hshk Hupk].
    apply elem_of_app in Hc as [Hc|Hc]; [by apply IH|].
    apply list_elem_of_singleton in Hc as ->. right. simpl.
    destruct (IH Hshk kd (path_last _ _ _ Hp)) as [<-|Hcl].
    + by apply climbs_one.
    + eapply climbs_trans; [done|]. by apply climbs_one.
Qed.

Lemma path_roots_NoDup (x : node) (t : tree) (l : list tree) :
  path x t l -> NoDup (ids t) -> NoDup (map root l).
Proof.
  induction 1 as [ks|n ks kd l Hk Hp IH]; intros Hnd.
  - simpl. apply NoDup_singleton.
  - simpl in Hnd. apply NoDup_cons in Hnd as [Hnot Hnd].
    rewrite map_app. apply NoDup_app. split; [|split].
    + apply IH. by apply (NoDup_kid ks).
    + intros y Hy Hin. simpl in Hin. apply list_elem_of_singleton in Hin. subst y.
      apply list_elem_of_fmap in Hy as (c & Heq & Hc).
      destruct (path_subtree _ _ _ Hp c Hc) as [Hsub _].
      apply Hnot, (ids_kid ks kd); [done|]. rewrite Heq.
      apply (subtree_ids c kd); [done|apply root_in_ids].
    + apply NoDup_singleton.
Qed.

(** ** Distance between two nodes of a tree *)

(** The common ancestor of two nodes of a tree is the root of the smallest
    subtree that holds both. *)
Lemma get_common_ancestor_pair (fuel : nat) (s : store) (t : tree) (r a b : node) :
  wf s t -> up s (root t) = None -> a ∈ ids t -> b ∈ ids t -> size t <= fuel ->
  exists u,
    subtree u t /\ a ∈ ids u /\ b ∈ ids u /\
    (forall v, subtree v t -> a ∈ ids v -> b ∈ ids v -> subtree u v) /\
    get_common_ancestor fuel s r [ByNode a; ByNode b] = Ok (Some (root u)).
Proof.
  intros Hwf Hroot Ha Hb Hfuel.
  destruct (path_exists b t Hb) as [l Hp].
  pose proof (get_common_ancestor_run fuel s t r [a; b] b l Hwf Hroot) as Hrun.
  pose proof (path_find_spec [a; b] b t l Hp (proj1 (proj2 Hwf))) as Hspec.
  assert (Hboth : forall v, (a ∈ ids v /\ b ∈ ids v) <-> issubset [a; b] (ids v) = true).
  { intros v. rewrite issubset_spec. split.
    - intros [? ?] x Hx. apply elem_of_cons in Hx as [->|Hx]; [done|].
      by apply list_elem_of_singleton in Hx as ->.
    - intros H. split; apply H; [left|right; left]. }
  destruct (find (fun c => issubset [a; b] (ids c)) l) as [u|].
  - destruct Hspec as (Hu & HP & Hmin). apply Hboth in HP as [Hau Hbu].
    exists u. repeat split; try done.
    + intros v Hv Hav Hbv. apply Hmin; [done..|]. by apply Hboth.
    + apply Hrun; [done|simpl; lia|done..].
  - exfalso. specialize (Hspec t ltac:(constructor) Hb).
    apply not_true_iff_false in Hspec. by apply Hspec, Hboth.
Qed.

(** [get_distance] on two nodes of a tree: the two legs below the root of
    the smallest subtree [u] that holds both. *)
Lemma get_distance_legs (fuel : nat) (s : store) (t u : tree) (r a b : node)
    (topo : bool) (la lb : list tree) :
  wf s t -> size t <= fuel -> subtree u t ->
  get_common_ancestor fuel s r [ByNode a; ByNode b] = Ok (Some (root u)) ->
  path a u la -> path b u lb ->
  get_distance fuel s r (ByNode a) (Some (ByNode b)) topo =
  Ok (foldl (leg_step s topo a)
        (foldl (leg_step s topo a) f0 (map root (removelast lb)))
        (map root (removelast la))).
Proof.
  intros (Hsh & Hnd & _) Hfuel Hu Hgca Hla Hlb.
  pose proof (subtree_shape s u t Hu Hsh) as Hshu.
  pose proof (subtree_NoDup u t Hu Hnd) as Hndu.
  assert (Hsz : size u <= fuel) by (destruct (subtree_size u t Hu) as [->|]; lia).
  unfold get_distance. cbv beta iota delta [rbind].
  change (_translate_nodes fuel s r [ByNode a; ByNode b]) with (Ok (Many [a; b])).
  cbv beta iota. rewrite Hgca.
  rewrite (leg_to_ancestor fuel s topo a b u lb f0 Hlb Hshu Hndu Hsz).
  by rewrite (leg_to_ancestor fuel s topo a a u la _ Hla Hshu Hndu Hsz).
Qed.

Lemma foldl_fadd_perm `{!ExactNum N} (g : node -> F) (l l' : list node) (d : F) :
  l ≡ₚ l' -> foldl (fun d x => fadd d (g x)) d l = foldl (fun d x => fadd d (g x)) d l'.
Proof.
  intros Hp. revert d. induction Hp as [|x l l' _ IH|x y l|l l' l'' _ IH1 _ IH2]; intros d.
  - done.
  - simpl. apply IH.
  - simpl. f_equal. rewrite <- !fadd_assoc. f_equal. apply fadd_comm.
  - by rewrite IH1.
Qed.

Lemma foldl_topo_others (s : store) (target : node) (l : list node) (d : F) :
  target ∉ l ->
  foldl (leg_step s true target) d l = Nat.iter (length l) (fun d => fadd d (of_nat 1)) d.
Proof.
  revert d. induction l as [|x l IH]; intros d Hl; [done|].
  apply not_elem_of_cons in Hl as [Hne Hl]. simpl foldl. rewrite IH by done.
  unfold leg_step. rewrite decide_True by done.
  simpl length. by rewrite Nat.iter_succ_r.
Qed.

(** The nodes of a leg from [a], when [b] is in the same subtree and
    neither of the two is above the other: [a] first, once, and never [b]. *)
Lemma leg_nodes (s : store) (u : tree) (a b : node) (la : list tree) :
  path a u la -> shape s u -> NoDup (ids u) -> b ∈ ids u ->
  a <> b -> ~ climbs s a b -> ~ climbs s b a ->
  exists rest, map root (removelast la) = a :: rest /\ (a ∉ rest) /\ (b ∉ a :: rest).
Proof.
  intros Hp Hsh Hnd Hb Hab Hnab Hnba.
  destruct Hp as [ks|n ks kd l Hk Hp].
  - exfalso. destruct (path_exists b _ Hb) as [lb Hlb].
    destruct (path_climbs s b _ lb Hlb Hsh _ (path_last _ _ _ Hlb)) as [Heq|Hcl]; auto.
  - rewrite removelast_last.
    destruct (shape_kids s n ks kd Hsh Hk) as [Hshk _].
    assert (Hndk : NoDup (ids kd)).
    { simpl in Hnd. apply NoDup_cons in Hnd as [_ Hnd']. by apply (NoDup_kid ks). }
    pose proof (path_roots_NoDup a kd l Hp Hndk) as Hroots.
    destruct (path_head _ _ _ Hp) as (c0 & l' & Hl & Hc0).
    exists (map root l'). rewrite Hl in Hroots |- *. simpl in Hroots |- *.
    rewrite Hc0 in Hroots |- *. apply NoDup_cons in Hroots as [Hnot _].
    split; [done|]. split; [done|].
    intros Hin. assert (Hin' : b ∈ map root l) by (by rewrite Hl; simpl; rewrite Hc0).
    apply list_elem_of_fmap in Hin' as (c & Heq & Hc).
    destruct (path_climbs s a kd l Hp Hshk c Hc) as [Hr|Hcl]; [congruence|].
    apply Hnab. by rewrite Heq.
Qed.


(** ** Claims settled by the first lines of a method *)

(** C1 (defect): [traverse(strategy="preorder")] stops after the node it is
    called on, whatever lies below it: [popleft(0)] raises TypeError, which
    the bare [except] reads as the end of the walk.  On [two_nodes] the root
    has a child that the walk never yields, while the other two strategies
    yield both nodes. *)
Theorem preorder_stops_at_self :
  (forall (fuel : nat) (s : store) (n : node),
     traverse (S fuel) s n "preorder" = Some (Ok [n])) /\
  children two_nodes 0 = [1] /\
  traverse 9 two_nodes 0 "preorder" = Some (Ok [0]) /\
  traverse 9 two_nodes 0 "levelorder" = Some (Ok [0; 1]) /\
  traverse 9 two_nodes 0 "postorder" = Some (Ok [1; 0]).
Proof.
  split; [|by vm_compute].
  intros fuel s n. unfold traverse. rewrite decide_True by done.
  by rewrite preorder_only_self.
Qed.

Lemma acyclic_unlink (s s' : store) :
  (forall x, up s' x = up s x \/ up s' x = None) -> acyclic s -> acyclic s'.
Proof.
  intros H Hs.
  assert (Hc : forall x y, climbs s' x y -> climbs s x y).
  { induction 1 as [x p Hp|x p y Hp _ IH]; destruct (H x) as [He|He]; try congruence.
    - apply climbs_one. congruence.
    - eapply climbs_more; [|done]. congruence. }
  intros x Hx. by apply (Hs x), Hc.
Qed.

Lemma up_remove_child (s : store) (p c x : node) :
  up (remove_child p c s).1 x = up s x \/ up (remove_child p c s).1 x = None.
Proof.
  unfold remove_child. destruct (list_remove c (children s p)); [|by left]. simpl.
  rewrite up_set_up, up_set_children. case_decide; [by right|by left].
Qed.

Lemma up_detach (s : store) (n x : node) :
  up (detach n s).1 x = up s x \/ up (detach n s).1 x = None.
Proof.
  unfold detach, bind, read, write, ret, children_remove.
  destruct (up s n) as [p|]; [|by left].
  destruct (list_remove n (children s p)); [|by left]. simpl.
  rewrite up_set_up, up_set_children. case_decide; [by right|by left].
Qed.

(** [remove_child] and [detach] only clear parent links. *)
Lemma remove_child_acyclic (s : store) (p c : node) :
  acyclic s -> acyclic (remove_child p c s).1.
Proof. intros Hs. apply (acyclic_unlink s); [|done]. intros x. apply up_remove_child. Qed.

Lemma detach_acyclic (s : store) (c : node) :
  acyclic s -> acyclic (detach c s).1.
Proof. intros Hs. apply (acyclic_unlink s); [|done]. intros x. apply up_detach. Qed.


(** C3: [set_outgroup] with the node itself, given as an instance or by a
    name that resolves to it, raises ValueError and leaves the arena as it
    was: every node keeps its children, parent, dist and support. *)
Theorem set_outgroup_self (fuel : nat) (s : store) (r : node) (o : pyarg) :
  _translate_nodes fuel s r [o] = Ok (Single r) ->
  set_outgroup fuel r o s = (s, Raise ValueError).
Proof.
  intros H. unfold set_outgroup, bind, lift. rewrite H.
  by rewrite decide_True.
Qed.

(** C7 (amended): [delete] on a node with no parent changes nothing; the
    node keeps its children. *)
Theorem delete_parentless (fuel : nat) (s : store) (n : node) (prevent_nondicotomic : bool) :
  up s n = None ->
  delete fuel n prevent_nondicotomic s = (s, Ok tt).
Proof.
  intros H. unfold delete, delete_plain, bind, read, ret. by rewrite H.
Qed.

(** C10: [traverse] with a strategy other than the three known ones returns
    [None], without yielding or raising; a caller that iterates the result,
    such as [get_descendants], then raises TypeError. *)
Theorem traverse_unknown_strategy (fuel : nat) (s : store) (n : node) (strategy : string) :
  strategy <> "preorder"%string ->
  strategy <> "postorder"%string ->
  strategy <> "levelorder"%string ->
  traverse fuel s n strategy = None /\
  get_descendants fuel s n strategy = Raise TypeError.
Proof.
  intros H1 H2 H3. unfold get_descendants, traverse.
  by rewrite !decide_False.
Qed.

End Proofs.

(** * Further properties of the methods *)

Section Further.
Context {N : Num}.

(** ** Reading a field after a write *)

Ltac field_after_write :=
  intros;
  unfold children, up, dist, support, name_of,
    set_children, set_up, set_dist, set_support, set_name;
  rewrite obj_alter; by case_decide.

Lemma children_set_children (n : node) (v : list node) (s : store) (x : node) :
  children (set_children n v s) x = if decide (n = x /\ n < length s) then v else children s x.
Proof. field_after_write. Qed.

Lemma children_set_up (n : node) (v : option node) (s : store) (x : node) :
  children (set_up n v s) x = children s x.
Proof. field_after_write. Qed.

Lemma children_set_support (n : node) (v : F) (s : store) (x : node) :
  children (set_support n v s) x = children s x.
Proof. field_after_write. Qed.

Lemma children_set_name (n : node) (v : string) (s : store) (x : node) :
  children (set_name n v s) x = children s x.
Proof. field_after_write. Qed.

Lemma dist_set_children (n : node) (v : list node) (s : store) (x : node) :
  dist (set_children n v s) x = dist s x.
Proof. field_after_write. Qed.

Lemma dist_set_up (n : node) (v : option node) (s : store) (x : node) :
  dist (set_up n v s) x = dist s x.
Proof. field_after_write. Qed.

Lemma dist_set_support (n : node) (v : F) (s : store) (x : node) :
  dist (set_support n v s) x = dist s x.
Proof. field_after_write. Qed.

Lemma dist_set_name (n : node) (v : string) (s : store) (x : node) :
  dist (set_name n v s) x = dist s x.
Proof. field_after_write. Qed.

Lemma support_set_children (n : node) (v : list node) (s : store) (x : node) :
  support (set_children n v s) x = support s x.
Proof. field_after_write. Qed.

Lemma support_set_up (n : node) (v : option node) (s : store) (x : node) :
  support (set_up n v s) x = support s x.
Proof. field_after_write. Qed.

Lemma support_set_dist (n : node) (v : F) (s : store) (x : node) :
  support (set_dist n v s) x = support s x.
Proof. field_after_write. Qed.

Lemma support_set_support (n : node) (v : F) (s : store) (x : node) :
  support (set_support n v s) x = if decide (n = x /\ n < length s) then v else support s x.
Proof. field_after_write. Qed.

Lemma support_set_name (n : node) (v : string) (s : store) (x : node) :
  support (set_name n v s) x = support s x.
Proof. field_after_write. Qed.

Lemma name_set_children (n : node) (v : list node) (s : store) (x : node) :
  name_of (set_children n v s) x = name_of s x.
Proof. field_after_write. Qed.

Lemma name_set_up (n : node) (v : option node) (s : store) (x : node) :
  name_of (set_up n v s) x = name_of s x.
Proof. field_after_write. Qed.

Lemma name_set_dist (n : node) (v : F) (s : store) (x : node) :
  name_of (set_dist n v s) x = name_of s x.
Proof. field_after_write. Qed.

Lemma name_set_support (n : node) (v : F) (s : store) (x : node) :
  name_of (set_support n v s) x = name_of s x.
Proof. field_after_write. Qed.

Lemma name_set_name (n : node) (v : string) (s : store) (x : node) :
  name_of (set_name n v s) x = if decide (n = x /\ n < length s) then v else name_of s x.
Proof. field_after_write. Qed.

Lemma length_set_children (n : node) (v : list node) (s : store) :
  length (set_children n v s) = length s.
Proof. apply length_alter. Qed.

Lemma length_set_up (n : node) (v : option node) (s : store) :
  length (set_up n v s) = length s.
Proof. apply length_alter. Qed.

Lemma length_set_support (n : node) (v : F) (s : store) :
  length (set_support n v s) = length s.
Proof. apply length_alter. Qed.

Lemma length_set_name (n : node) (v : string) (s : store) :
  length (set_name n v s) = length s.
Proof. apply length_alter. Qed.

Create Rewrite HintDb arena.

#[local] Hint Rewrite children_set_children children_set_up children_set_dist children_set_support
  children_set_name up_set_up up_set_children up_set_dist up_set_support up_set_name
  dist_set_children dist_set_up dist_set_dist dist_set_support dist_set_name
  support_set_children support_set_up support_set_dist support_set_support support_set_name
  name_set_children name_set_up name_set_dist name_set_support name_set_name
  length_set_children length_set_up length_set_dist length_set_support length_set_name
  : arena.

(** the object a fresh allocation adds *)
Lemma obj_alloc (s : store) (x : node) :
  obj (s ++ [new_node]) x = obj s x.
Proof.
  unfold obj. destruct (decide (x < length s)) as [H|H].
  - by rewrite lookup_app_l.
  - rewrite lookup_app_r by lia. rewrite (lookup_ge_None_2 s) by lia.
    by destruct (x - length s) as [|[|?]].
Qed.

Lemma children_nonempty_lt (s : store) (n : node) : children s n <> [] -> n < length s.
Proof.
  intros H. destruct (decide (n < length s)) as [|Hge]; [done|]. exfalso. apply H.
  unfold children, obj. by rewrite lookup_ge_None_2 by lia.
Qed.

(** two arenas with the same objects are the same arena *)
Lemma store_ext (s s' : store) :
  length s' = length s -> (forall x, x < length s -> obj s' x = obj s x) -> s' = s.
Proof.
  intros Hl H. apply list_eq. intros i. destruct (decide (i < length s)) as [Hi|Hi].
  - specialize (H i Hi). unfold obj in H.
    destruct (lookup_lt_is_Some_2 s i Hi) as [o Ho].
    destruct (lookup_lt_is_Some_2 s' i ltac:(lia)) as [o' Ho'].
    rewrite Ho, Ho' in *. simpl in H. by subst.
  - by rewrite !lookup_ge_None_2 by lia.
Qed.

(** ** Trees in an arena *)

(** the shape of a tree is kept by writes that leave its children lists and
    the parent links below its root alone *)
Lemma shape_frame (s s' : store) (t : tree) :
  shape s t ->
  (forall x, x ∈ ids t -> children s' x = children s x) ->
  (forall x, x ∈ flat_map ids (kids t) -> up s' x = up s x) ->
  shape s' t.
Proof.
  induction t as [n ks IH] using tree_ind'. intros Hs Hc Hu. inversion Hs; subst.
  rewrite Forall_forall in *. constructor.
  - rewrite Hc; [done|]. simpl. by left.
  - rewrite Forall_forall. intros k Hk. rewrite Hu; [by auto|].
    simpl. eapply ids_kid; [done|]. apply root_in_ids.
  - rewrite Forall_forall. intros k Hk. apply IH; [done|by auto|..].
    + intros x Hx. apply Hc. simpl. right. by eapply ids_kid.
    + intros x Hx. apply Hu. simpl. eapply ids_kid; [done|].
      destruct k as [m cs]. simpl in *. by right.
Qed.

(** every node below the root of a tree is a live object *)
Lemma below_lt (s : store) (t : tree) (x : node) :
  shape s t -> x ∈ flat_map ids (kids t) -> x < length s.
Proof.
  induction t as [n ks IH] using tree_ind'. intros Hs Hx. inversion Hs; subst.
  rewrite Forall_forall in *. simpl in Hx.
  apply elem_of_flat_map in Hx as (k & Hk & Hx).
  destruct k as [m cs]. simpl in Hx. apply elem_of_cons in Hx as [->|Hx].
  - eapply up_Some_lt. by apply (H2 (T m cs)).
  - by apply (IH (T m cs)); auto.
Qed.

Lemma ids_lt (s : store) (t : tree) (x : node) :
  shape s t -> root t < length s -> x ∈ ids t -> x < length s.
Proof.
  intros Hs Hr Hx. destruct t as [n ks]. simpl in *.
  apply elem_of_cons in Hx as [->|Hx]; [done|]. by eapply below_lt.
Qed.

Lemma levelorder_run (fuel : nat) (s : store) (t : tree) :
  shape s t -> size t <= fuel ->
  exists l, iterate (traverse fuel s (root t) "levelorder") = Ok (root t :: l) /\
            l ≡ₚ flat_map ids (kids t) /\ parents_first s [root t] l.
Proof.
  intros Hs Hf. destruct (levelorder_tree s t fuel Hs Hf) as (l & Hl & Hp & Hpf).
  exists l. by rewrite traverse_levelorder, <- Hl.
Qed.

(** ** Traversal and search *)

(** X1: The level-order generator, which is the default of [traverse], yields
    the root first and then every other node of the tree once, each after its
    parent. *)
Theorem traverse_levelorder_complete (fuel : nat) (s : store) (t : tree) :
  shape s t -> NoDup (ids t) -> size t <= fuel ->
  exists l,
    traverse fuel s (root t) "levelorder" = Some (Ok (root t :: l)) /\
    root t :: l ≡ₚ ids t /\ NoDup (root t :: l) /\ parents_first s [root t] l.
Proof.
  intros Hs Hnd Hf. destruct (levelorder_tree s t fuel Hs Hf) as (l & Hl & Hp & Hpf).
  exists l. rewrite traverse_levelorder, Hl.
  assert (Hids : root t :: l ≡ₚ ids t) by (destruct t; simpl; by rewrite Hp).
  repeat split; [done| |done]. by rewrite Hids.
Qed.

(** X3: [get_leaves], [len(node)] and [get_leaf_names] go through the preorder
    generator, which stops after the node itself: they see the node when it
    is a leaf and nothing otherwise. *)
Theorem get_leaves_only_self (fuel : nat) (s : store) (n : node) :
  get_leaves (S fuel) s n = Ok (if is_leaf s n then [n] else []) /\
  __len__ (S fuel) s n = Ok (if is_leaf s n then 1 else 0) /\
  get_leaf_names (S fuel) s n = Ok (if is_leaf s n then [name_of s n] else []).
Proof.
  assert (H : get_leaves (S fuel) s n = Ok (if is_leaf s n then [n] else [])).
  { unfold get_leaves, traverse. rewrite decide_True by done.
    rewrite preorder_only_self. simpl. rewrite filter_cons, filter_nil.
    destruct (is_leaf s n); by case_decide. }
  unfold __len__, get_leaf_names. rewrite H. by destruct (is_leaf s n).
Qed.

(** X4: [x in node]: true exactly for the nodes strictly below [node]; a node is
    not in itself.  By name, the names of the nodes below are searched. *)
Theorem contains_descendants (fuel : nat) (s : store) (t : tree) (x : node) (nm : string) :
  shape s t -> NoDup (ids t) -> size t <= fuel ->
  __contains__ fuel s (root t) (ByNode x) = Ok (bool_decide (x ∈ flat_map ids (kids t))) /\
  __contains__ fuel s (root t) (ByNode (root t)) = Ok false /\
  __contains__ fuel s (root t) (ByName nm)
  = Ok (bool_decide (nm ∈ map (name_of s) (flat_map ids (kids t)))).
Proof.
  intros Hs Hnd Hf.
  destruct (get_descendants_tree s t fuel Hs Hnd Hf) as (l & Hl & Hp & _).
  unfold __contains__. rewrite Hl. simpl. repeat split; f_equal.
  - apply bool_decide_ext. by rewrite Hp.
  - apply bool_decide_eq_false. rewrite Hp. destruct t as [n ks]. simpl in *.
    by apply NoDup_cons in Hnd as [? _].
  - apply bool_decide_ext. by rewrite Hp.
Qed.

Lemma search_nodes_run (fuel : nat) (s : store) (t : tree) (nm : string) :
  shape s t -> size t <= fuel ->
  exists l,
    search_nodes fuel s (root t) nm = Ok l /\
    l ≡ₚ filter (fun y => name_of s y = nm) (ids t).
Proof.
  intros Hs Hf. destruct (levelorder_run fuel s t Hs Hf) as (l & Hl & Hp & _).
  unfold search_nodes. rewrite Hl. simpl. eexists. split; [done|].
  destruct t; simpl in *. by rewrite Hp.
Qed.

(** X5: [search_nodes(name=nm)] returns the nodes of the tree that carry the
    name, each once. *)
Theorem search_nodes_complete (fuel : nat) (s : store) (t : tree) (nm : string) :
  shape s t -> NoDup (ids t) -> size t <= fuel ->
  exists l,
    search_nodes fuel s (root t) nm = Ok l /\ NoDup l /\
    forall x, x ∈ l <-> x ∈ ids t /\ name_of s x = nm.
Proof.
  intros Hs Hnd Hf. destruct (search_nodes_run fuel s t nm Hs Hf) as (l & Hl & Hp).
  exists l. split; [done|]. split.
  - rewrite Hp. by apply NoDup_filter.
  - intros x. rewrite Hp, list_elem_of_filter. tauto.
Qed.

(** X6: A name given where a node is expected resolves to the node of the tree
    that carries it when there is exactly one; with none or with several,
    the lookup raises ValueError. *)
Theorem translate_nodes_by_name (fuel : nat) (s : store) (t : tree) (nm : string) :
  shape s t -> size t <= fuel ->
  _translate_nodes fuel s (root t) [ByName nm] =
  match filter (fun y => name_of s y = nm) (ids t) with
  | [x] => Ok (Single x)
  | _ => Raise ValueError
  end.
Proof.
  intros Hs Hf. destruct (search_nodes_run fuel s t nm Hs Hf) as (l & Hl & Hp).
  unfold _translate_nodes. simpl. rewrite Hl. simpl.
  destruct (filter _ (ids t)) as [|x [|y r]].
  - apply Permutation_nil_r in Hp as ->. done.
  - apply Permutation_singleton_r in Hp as ->. done.
  - apply Permutation_length in Hp. by destruct l as [|a [|b l]].
Qed.

(** X7: [node & nm] returns a node of the tree that carries the name, and raises
    ValueError only when no node of the tree does. *)
Theorem and_finds_name (fuel : nat) (s : store) (t : tree) (nm : string) :
  shape s t -> size t <= fuel ->
  match __and__ fuel s (root t) nm with
  | Ok x => x ∈ ids t /\ name_of s x = nm
  | Raise e => e = ValueError /\ forall x, x ∈ ids t -> name_of s x <> nm
  | OutOfFuel => False
  end.
Proof.
  intros Hs Hf. destruct (search_nodes_run fuel s t nm Hs Hf) as (l & Hl & Hp).
  unfold __and__. rewrite Hl. simpl. destruct l as [|a l]; simpl.
  - split; [done|]. intros x Hx Hn.
    assert (H : x ∈ filter (fun y => name_of s y = nm) (ids t))
      by by apply list_elem_of_filter.
    rewrite <- Hp in H. by apply elem_of_nil in H.
  - assert (H : a ∈ filter (fun y => name_of s y = nm) (ids t))
      by (rewrite <- Hp; by left).
    apply list_elem_of_filter in H as [? ?]. done.
Qed.

Lemma filter_flat_map {A B} (P : B -> Prop) `{!forall x, Decision (P x)}
    (f g : A -> list B) (l : list A) :
  Forall (fun a => filter P (f a) = g a) l ->
  filter P (flat_map f l) = flat_map g l.
Proof.
  induction 1 as [|a l Ha _ IH]; [done|]. simpl. by rewrite filter_app, Ha, IH.
Qed.

Lemma leaves_filter (s : store) (t : tree) :
  shape s t -> filter (fun n => children s n = []) (ids t) = leaves t.
Proof.
  induction t as [n ks IH] using tree_ind'. intros Hs. inversion Hs; subst.
  rewrite Forall_forall in *.
  assert (Hk : filter (fun n => children s n = []) (flat_map ids ks) = flat_map leaves ks).
  { apply filter_flat_map. rewrite Forall_forall. intros k Hk. by apply IH; auto. }
  simpl. rewrite filter_cons. destruct ks as [|k ks].
  - rewrite decide_True by done. done.
  - rewrite decide_False by (by rewrite H1). done.
Qed.

(** X8: [get_leaves_by_name] searches in level order, so unlike [get_leaves] it
    does find the leaves of the tree: it returns those that carry the name. *)
Theorem get_leaves_by_name_complete (fuel : nat) (s : store) (t : tree) (nm : string) :
  shape s t -> size t <= fuel ->
  exists l,
    get_leaves_by_name fuel s (root t) nm = Ok l /\
    l ≡ₚ filter (fun y => name_of s y = nm) (leaves t).
Proof.
  intros Hs Hf. destruct (levelorder_run fuel s t Hs Hf) as (l & Hl & Hp & _).
  unfold get_leaves_by_name. rewrite Hl. simpl. eexists. split; [done|].
  rewrite <- (leaves_filter s t Hs), list_filter_filter.
  destruct t; simpl in *. by rewrite Hp.
Qed.

(** Climbing from a node of a tree to the root of one of the subtrees that
    hold it. *)
Lemma get_tree_root_climb (s : store) (x : node) (k : tree) (l : list tree) :
  path x k l -> shape s k ->
  forall f, get_tree_root (length l + f) s x = get_tree_root (S f) s (root k).
Proof.
  induction 1 as [ks|n ks k l Hk Hp IH]; intros Hs f; [done|].
  destruct (shape_kids s n ks k Hs Hk) as [Hsk Hup].
  rewrite length_app. simpl. replace (length l + 1 + f) with (length l + S f) by lia.
  rewrite IH by done. simpl. by rewrite Hup.
Qed.

(** X9: [get_tree_root] from any node of a tree whose root has no parent returns
    that root. *)
Theorem get_tree_root_of_tree (fuel : nat) (s : store) (t : tree) (x : node) :
  shape s t -> up s (root t) = None -> x ∈ ids t -> size t <= fuel ->
  get_tree_root fuel s x = Ok (root t).
Proof.
  intros Hs Hup Hx Hf. destruct (path_exists x t Hx) as [l Hl].
  pose proof (path_length x t l Hl) as Hlen.
  destruct (path_head x t l Hl) as (c0 & l' & -> & _).
  replace fuel with (length (c0 :: l') + (fuel - length (c0 :: l'))) by lia.
  rewrite (get_tree_root_climb s x t _ Hl Hs). simpl. by rewrite Hup.
Qed.

(** ** Replacing a subtree *)

Lemma replaced_root (u u' t t' : tree) :
  replaced u u' t t' -> root u' = root u -> root t' = root t.
Proof. by destruct 1. Qed.

Lemma replaced_subtree (u u' t t' : tree) : replaced u u' t t' -> subtree u t.
Proof.
  induction 1 as [|n ks1 k k' ks2 _ IH]; [constructor|].
  eapply subtree_kid; [|done]. apply elem_of_app. right. by left.
Qed.

Lemma flat_map_middle {A B} (f : A -> list B) (l1 l2 : list A) (x : A) :
  flat_map f (l1 ++ x :: l2) ≡ₚ flat_map f (l1 ++ l2) ++ f x.
Proof.
  rewrite !flat_map_app. simpl. rewrite <- !app_assoc.
  f_equiv. apply Permutation_app_comm.
Qed.

Lemma ids_replaced (u u' t t' : tree) :
  replaced u u' t t' ->
  exists rest, ids t ≡ₚ rest ++ ids u /\ ids t' ≡ₚ rest ++ ids u'.
Proof.
  induction 1 as [|n ks1 k k' ks2 _ (rest & H1 & H2)]; [by exists []|].
  exists (n :: flat_map ids (ks1 ++ ks2) ++ rest). simpl.
  rewrite !flat_map_middle, H1, H2, <- !app_assoc. done.
Qed.

Lemma NoDup_replaced (u u' t t' : tree) :
  replaced u u' t t' -> NoDup (ids t) -> NoDup (ids u') ->
  (forall x, x ∈ ids u' -> x ∈ ids u \/ x ∉ ids t) ->
  NoDup (ids t').
Proof.
  intros Hr Hnd Hu' Hin. destruct (ids_replaced _ _ _ _ Hr) as (rest & H1 & H2).
  rewrite H2. rewrite H1 in Hnd. apply NoDup_app in Hnd as (Hrest & Hdis & _).
  apply NoDup_app. repeat split; [done| |done].
  intros x Hx Hx'. destruct (Hin x Hx') as [H|H].
  - by apply (Hdis x).
  - apply H. rewrite H1. apply elem_of_app. by left.
Qed.

Lemma elem_of_replaced (u u' t t' : tree) (x : node) :
  replaced u u' t t' -> x ∈ ids t' -> x ∈ ids t \/ x ∈ ids u'.
Proof.
  intros Hr Hx. destruct (ids_replaced _ _ _ _ Hr) as (rest & H1 & H2).
  rewrite H2 in Hx. rewrite H1. apply elem_of_app in Hx as [Hx|Hx]; [left|by right].
  apply elem_of_app. by left.
Qed.

(** A surgery that rewrites the subtree [u] into [u'], with the same root and
    the same parent link at it, and touches nothing outside [u], rewrites
    the tree around it accordingly. *)
Lemma shape_replaced (s s' : store) (u u' t t' : tree) :
  replaced u u' t t' -> root u' = root u ->
  shape s t -> NoDup (ids t) ->
  shape s' u' ->
  (forall x, x ∈ ids t -> x ∉ ids u -> children s' x = children s x /\ up s' x = up s x) ->
  up s' (root u) = up s (root u) ->
  shape s' t'.
Proof.
  intros Hr Hroot. induction Hr as [|n ks1 k k' ks2 Hr IH]; intros Hs Hnd Hu' Hout Hup; [done|].
  pose proof (replaced_subtree _ _ _ _ Hr) as Hsub.
  pose proof (replaced_root _ _ _ _ Hr Hroot) as Hrk.
  inversion Hs as [? ? Hch Hups Hshs]; subst.
  rewrite Forall_forall in Hups, Hshs.
  simpl in Hnd. apply NoDup_cons in Hnd as [Hn Hnd].
  assert (Hk : k ∈ ks1 ++ k :: ks2) by (apply elem_of_app; right; by left).
  assert (Hkin : forall x, x ∈ ids k -> x ∈ ids (T n (ks1 ++ k :: ks2))).
  { intros x Hx. simpl. right. by eapply ids_kid. }
  assert (Hsib : forall k0, k0 ∈ ks1 ++ ks2 -> k0 ∈ ks1 ++ k :: ks2 /\
                   forall x, x ∈ ids k0 -> x ∉ ids u).
  { intros k0 Hk0.
    assert (Hk0' : k0 ∈ ks1 ++ k :: ks2).
    { apply elem_of_app in Hk0 as [?|?]; apply elem_of_app; [by left|right; by right]. }
    split; [done|]. intros x Hx Hxu.
    rewrite flat_map_middle in Hnd. apply NoDup_app in Hnd as (_ & Hdis & _).
    apply (Hdis x); [by eapply ids_kid|]. by eapply subtree_ids. }
  assert (Hnu : n ∉ ids u).
  { intros Hnu. apply Hn. eapply ids_kid; [done|]. by eapply subtree_ids. }
  constructor.
  - destruct (Hout n) as [-> _]; [simpl; by left|done|].
    rewrite Hch, !map_app. simpl. by rewrite Hrk.
  - rewrite Forall_forall. intros k0 Hk0. apply elem_of_app in Hk0 as [Hk0|Hk0].
    + destruct (Hsib k0) as [Hin Hno]; [apply elem_of_app; by left|].
      destruct (Hout (root k0)) as [_ ->]; [|by apply Hno, root_in_ids|by apply Hups].
      simpl. right. eapply ids_kid; [done|apply root_in_ids].
    + apply elem_of_cons in Hk0 as [->|Hk0].
      * rewrite Hrk. destruct (decide (root k ∈ ids u)) as [Hin|Hin].
        -- assert (u = k) as ->.
           { destruct k as [m cs]. eapply subtree_with_root; [|done|done].
             by eapply NoDup_kid. }
           rewrite Hup. by apply Hups.
        -- destruct (Hout (root k)) as [_ ->]; [apply Hkin, root_in_ids|done|by apply Hups].
      * destruct (Hsib k0) as [Hin Hno]; [apply elem_of_app; by right|].
        destruct (Hout (root k0)) as [_ ->]; [|by apply Hno, root_in_ids|by apply Hups].
        simpl. right. eapply ids_kid; [done|apply root_in_ids].
  - assert (Hfr : forall k0, k0 ∈ ks1 ++ ks2 -> shape s' k0).
    { intros k0 Hk0. destruct (Hsib k0 Hk0) as [Hin Hno].
      assert (Hall : forall x, x ∈ ids k0 -> children s' x = children s x /\ up s' x = up s x).
      { intros x Hx. apply Hout; [|by apply Hno]. simpl. right. by eapply ids_kid. }
      apply (shape_frame s); [by apply Hshs|intros x Hx; by apply Hall|].
      intros x Hx. apply Hall. destruct k0. simpl in *. by right. }
    rewrite Forall_forall. intros k0 Hk0. apply elem_of_app in Hk0 as [Hk0|Hk0].
    + apply Hfr. apply elem_of_app. by left.
    + apply elem_of_cons in Hk0 as [->|Hk0]; [|apply Hfr; apply elem_of_app; by right].
      apply IH; [by apply Hshs|by eapply NoDup_kid| done | |done].
      intros x Hx. apply Hout. by apply Hkin.
Qed.

Lemma wf_replaced (s s' : store) (u u' t t' : tree) :
  replaced u u' t t' -> root u' = root u ->
  wf s t ->
  shape s' u' -> NoDup (ids u') ->
  (forall x, x ∈ ids u' -> x ∈ ids u \/ x ∉ ids t) ->
  (forall x, x ∈ ids t -> x ∉ ids u -> children s' x = children s x /\ up s' x = up s x) ->
  up s' (root u) = up s (root u) ->
  (forall x, x ∈ ids u' -> up s (root t) <> Some x) ->
  wf s' t'.
Proof.
  intros Hr Hroot (Hs & Hnd & Hup) Hu' Hndu' Hin Hout Hupu Hfresh.
  split; [by eapply shape_replaced|]. split; [by eapply NoDup_replaced|].
  intros x Hx. rewrite (replaced_root _ _ _ _ Hr Hroot).
  assert (Hrt : up s' (root t) = up s (root t)).
  { destruct (decide (root t ∈ ids u)) as [Hi|Hi].
    - assert (u = t) as ->; [|done].
      destruct t as [m cs]. eapply subtree_with_root; [done| |done].
      by eapply replaced_subtree.
    - by apply Hout; [apply root_in_ids|]. }
  rewrite Hrt. destruct (elem_of_replaced _ _ _ _ x Hr Hx); auto.
Qed.

Lemma list_remove_middle (x : node) (l1 l2 : list node) :
  x ∉ l1 -> list_remove x (l1 ++ x :: l2) = Some (l1 ++ l2).
Proof.
  induction l1 as [|y l1 IH]; intros Hx; simpl.
  - by rewrite decide_True.
  - apply not_elem_of_cons in Hx as [Hne Hx]. rewrite decide_False by done.
    by rewrite IH.
Qed.

Lemma roots_in_ids (ks : list tree) (x : node) : x ∈ map root ks -> x ∈ flat_map ids ks.
Proof.
  intros (k & -> & Hk)%list_elem_of_fmap.
  eapply ids_kid; [done|apply root_in_ids].
Qed.

Lemma ids_without_kid (p : node) (ks1 ks2 : list tree) (k : tree) (x : node) :
  x ∈ ids (T p (ks1 ++ ks2)) -> x ∈ ids (T p (ks1 ++ k :: ks2)).
Proof.
  simpl. intros [->|Hx]%elem_of_cons; [by left|]. right.
  rewrite flat_map_middle. apply elem_of_app. by left.
Qed.

(** what a tree with the kid [k] somewhere under its root says about [k] *)
Lemma kid_facts (s : store) (p : node) (ks1 ks2 : list tree) (k : tree) :
  shape s (T p (ks1 ++ k :: ks2)) -> NoDup (ids (T p (ks1 ++ k :: ks2))) ->
  children s p = map root ks1 ++ root k :: map root ks2 /\
  up s (root k) = Some p /\ shape s k /\ NoDup (ids k) /\
  p < length s /\ root k < length s /\
  NoDup (ids (T p (ks1 ++ ks2))) /\
  (p ∉ ids k) /\
  (forall x, x ∈ ids k -> x ∉ ids (T p (ks1 ++ ks2))) /\
  (forall k0, k0 ∈ ks1 ++ ks2 -> shape s k0 /\ up s (root k0) = Some p).
Proof.
  intros Hs Hnd.
  assert (Hk : k ∈ ks1 ++ k :: ks2) by (apply elem_of_app; right; by left).
  destruct (shape_kids s _ _ _ Hs Hk) as [Hsk Hup].
  inversion Hs as [? ? Hch _ _]; subst. rewrite map_app in Hch. simpl in Hch.
  simpl in Hnd. apply NoDup_cons in Hnd as [Hp Hnd].
  rewrite flat_map_middle in Hp, Hnd.
  apply NoDup_app in Hnd as (Hnd1 & Hdis & Hndk).
  repeat split; try done.
  - apply children_nonempty_lt. rewrite Hch. by destruct (map root ks1).
  - by eapply up_Some_lt.
  - simpl. apply NoDup_cons. split; [|done]. intros H. apply Hp, elem_of_app. by left.
  - intros H. apply Hp, elem_of_app. by right.
  - intros x Hx. simpl. intros [->|H]%elem_of_cons.
    + apply Hp, elem_of_app. by right.
    + by apply (Hdis x).
  - apply (shape_kids s _ _ _ Hs).
    apply elem_of_app in H as [?|?]; apply elem_of_app; [by left|right; by right].
  - apply (shape_kids s _ _ _ Hs).
    apply elem_of_app in H as [?|?]; apply elem_of_app; [by left|right; by right].
Qed.

(** X16: [detach] in a tree: the node leaves its parent's children, the rest of
    the tree stays as it was, and the node keeps the subtree below it, now a
    tree of its own with no parent. *)
Theorem detach_splits (s : store) (t t' : tree) (p : node) (ks1 ks2 : list tree) (k : tree) :
  wf s t ->
  replaced (T p (ks1 ++ k :: ks2)) (T p (ks1 ++ ks2)) t t' ->
  exists s',
    detach (root k) s = (s', Ok (root k)) /\
    wf s' t' /\ wf s' k /\ up s' (root k) = None /\
    forall x, dist s' x = dist s x /\ support s' x = support s x /\ name_of s' x = name_of s x.
Proof.
  intros Hwf Hr. pose proof (replaced_subtree _ _ _ _ Hr) as Hsub.
  destruct (subtree_wf s _ _ Hsub Hwf) as (Hsu & Hndu & _).
  destruct (kid_facts s p ks1 ks2 k Hsu Hndu)
    as (Hch & Hup & Hsk & Hndk & Hp & Hc & Hndu' & Hpk & Hdis & Hsibs).
  assert (Hrm : list_remove (root k) (children s p) = Some (map root (ks1 ++ ks2))).
  { rewrite Hch, map_app. apply list_remove_middle. intros H.
    apply (Hdis (root k)); [apply root_in_ids|]. simpl. right.
    rewrite flat_map_app. apply elem_of_app. left. by apply roots_in_ids. }
  set (s' := set_up (root k) None (set_children p (map root (ks1 ++ ks2)) s)).
  assert (Hrun : detach (root k) s = (s', Ok (root k))).
  { unfold detach, bind, read, write, ret, children_remove. by rewrite Hup, Hrm. }
  assert (Hch' : forall x, x <> p -> children s' x = children s x).
  { intros x Hx. unfold s'. autorewrite with arena. by rewrite decide_False by (intros [? _]; congruence). }
  assert (Hup' : forall x, x <> root k -> up s' x = up s x).
  { intros x Hx. unfold s'. autorewrite with arena. by rewrite decide_False by (intros [? _]; congruence). }
  exists s'. split; [done|]. split; [|split; [|split]]; cycle -1.
  { intros x. unfold s'. by autorewrite with arena. }
  - eapply (wf_replaced s s'); [done|done|done| |done| | | |].
    + constructor.
      * unfold s'. autorewrite with arena. by rewrite decide_True.
      * rewrite Forall_forall. intros k0 Hk0. destruct (Hsibs k0 Hk0) as [_ Hu0].
        rewrite Hup'; [done|]. intros He. apply (Hdis (root k0)).
        -- rewrite He. apply root_in_ids.
        -- simpl. right. eapply ids_kid; [done|apply root_in_ids].
      * rewrite Forall_forall. intros k0 Hk0. destruct (Hsibs k0 Hk0) as [Hs0 _].
        assert (Hin0 : forall x, x ∈ ids k0 -> x ∈ ids (T p (ks1 ++ ks2))).
        { intros x Hx. simpl. right. by eapply ids_kid. }
        apply (shape_frame s); [done|..].
        -- intros x Hx. apply Hch'. intros ->.
           simpl in Hndu'. apply NoDup_cons in Hndu' as [Hn _]. apply Hn.
           by eapply ids_kid.
        -- intros x Hx. apply Hup'. intros ->. apply (Hdis (root k)); [apply root_in_ids|].
           apply Hin0. destruct k0. simpl in *. by right.
    + intros x Hx. left. by apply ids_without_kid.
    + intros x Hx Hxu. split.
      * apply Hch'. intros ->. apply Hxu. simpl. by left.
      * apply Hup'. intros ->. apply Hxu. simpl. right.
        eapply ids_kid; [|apply root_in_ids]. apply elem_of_app. right. by left.
    + simpl. apply Hup'. intros He. apply Hpk. rewrite He. apply root_in_ids.
    + intros x Hx. destruct Hwf as (_ & _ & Hroot). apply Hroot.
      eapply subtree_ids; [done|]. by apply ids_without_kid.
  - split; [|split; [done|]].
    + apply (shape_frame s); [done|..].
      * intros x Hx. apply Hch'. by intros ->.
      * intros x Hx. apply Hup'. intros ->.
        destruct k as [c cs]. simpl in *. by apply NoDup_cons in Hndk as [? _].
    + intros x _. unfold s'. autorewrite with arena. by rewrite decide_True.
  - unfold s'. autorewrite with arena. by rewrite decide_True.
Qed.

(** ** Deleting a node *)

Lemma add_child_plain (s : store) (p c : node) :
  add_child p (Some c) None None None s
  = (set_up c (Some p) (set_children p (children s p ++ [c]) s), Ok c).
Proof. reflexivity. Qed.

Lemma delete_reparent_run (n p : node) (suf : list node) :
  n <> p ->
  forall fuel pre s,
    children s n = pre ++ suf -> length suf <= fuel ->
    delete_reparent fuel (length pre) n p s = (reparent_all p suf s, Ok tt).
Proof.
  intros Hne. induction suf as [|c suf IH]; intros fuel pre s Hch Hf.
  - destruct fuel; simpl; rewrite Hch, lookup_ge_None_2; try done;
      rewrite app_nil_r; lia.
  - destruct fuel as [|fuel]; [simpl in Hf; lia|]. simpl.
    rewrite Hch, list_lookup_middle by done.
    unfold bind at 1. rewrite add_child_plain.
    replace (S (length pre)) with (length (pre ++ [c])) by (rewrite length_app; simpl; lia).
    apply IH; [|simpl in Hf; lia].
    autorewrite with arena. rewrite decide_False by (intros [? _]; congruence).
    by rewrite Hch, <- app_assoc.
Qed.

Lemma reparent_all_fields (p : node) (cs : list node) (s : store) :
  p < length s -> (forall c, c ∈ cs -> c < length s) ->
  length (reparent_all p cs s) = length s /\
  (forall x, children (reparent_all p cs s) x
             = if decide (x = p) then children s p ++ cs else children s x) /\
  (forall x, up (reparent_all p cs s) x = if decide (x ∈ cs) then Some p else up s x) /\
  (forall x, dist (reparent_all p cs s) x = dist s x /\
             support (reparent_all p cs s) x = support s x /\
             name_of (reparent_all p cs s) x = name_of s x).
Proof.
  revert s. induction cs as [|c cs IH]; intros s Hp Hcs.
  - simpl. repeat split; try done.
    intros x. case_decide; [subst; by rewrite app_nil_r|done].
  - simpl. set (s1 := set_up c (Some p) (set_children p (children s p ++ [c]) s)).
    assert (Hl1 : length s1 = length s) by (unfold s1; by autorewrite with arena).
    destruct (IH s1) as (Hl & Hch & Hup & Hrest).
    { by rewrite Hl1. }
    { intros c' Hc'. rewrite Hl1. apply Hcs. by right. }
    assert (Hc : c < length s) by (apply Hcs; by left).
    split; [by rewrite Hl|]. split; [|split].
    + intros x. rewrite Hch. unfold s1. autorewrite with arena.
      case_decide; subst.
      * rewrite decide_True by done. by rewrite <- app_assoc.
      * by rewrite decide_False by (intros [? _]; congruence).
    + intros x. rewrite Hup. unfold s1. autorewrite with arena.
      destruct (decide (x ∈ cs)) as [Hx|Hx].
      * rewrite decide_True; [done|by right].
      * destruct (decide (c = x)) as [->|Hne].
        -- rewrite decide_True by done. rewrite decide_True; [done|by left].
        -- rewrite decide_False by (intros [? _]; congruence).
           rewrite decide_False; [done|]. by intros [?|?]%elem_of_cons.
    + intros x. destruct (Hrest x) as (-> & -> & ->). unfold s1.
      by autorewrite with arena.
Qed.

Lemma NoDup_regroup (A B : list node) (p n : node) :
  NoDup (p :: A) -> NoDup (n :: B) ->
  (forall x, x ∈ n :: B -> x ∉ p :: A) ->
  NoDup (p :: A ++ B).
Proof.
  intros [Hp HA]%NoDup_cons [Hn HB]%NoDup_cons Hdis. apply NoDup_cons. split.
  - intros [H|H]%elem_of_app; [done|]. apply (Hdis p); [by right|by left].
  - apply NoDup_app. repeat split; [done| |done].
    intros x Hx Hx'. apply (Hdis x); by right.
Qed.

(** The body of [delete] up to the cascade, on a node [n] below [p]: the
    children of [n] move to the end of [p]'s children, and [n] leaves. *)
Lemma delete_plain_elides (fuel : nat) (s : store) (t t' : tree)
    (p n : node) (ks1 ks2 cs : list tree) :
  wf s t ->
  replaced (T p (ks1 ++ T n cs :: ks2)) (T p ((ks1 ++ ks2) ++ cs)) t t' ->
  length cs <= fuel ->
  exists s',
    delete_plain fuel n s = (s', Ok tt) /\
    wf s' t' /\ up s' n = None /\ children s' n = map root cs /\
    children s' p = map root ((ks1 ++ ks2) ++ cs) /\ up s' p = up s p /\
    forall x, dist s' x = dist s x /\ support s' x = support s x /\ name_of s' x = name_of s x.
Proof.
  intros Hwf Hr Hf. pose proof (replaced_subtree _ _ _ _ Hr) as Hsub.
  destruct (subtree_wf s _ _ Hsub Hwf) as (Hsu & Hndu & _).
  destruct (kid_facts s p ks1 ks2 (T n cs) Hsu Hndu)
    as (Hch & Hup & Hsk & Hndk & Hp & Hc & Hndu' & Hpk & Hdis & Hsibs).
  simpl root in *.
  inversion Hsk as [? ? Hchn Hupcs Hshcs]; subst. rewrite Forall_forall in Hupcs, Hshcs.
  assert (Hnp : n <> p) by (intros ->; apply Hpk; simpl; by left).
  assert (Hcs : forall c, c ∈ map root cs -> c < length s).
  { intros c (k & -> & Hk)%list_elem_of_fmap. eapply up_Some_lt. by apply Hupcs. }
  destruct (reparent_all_fields p (map root cs) s Hp Hcs) as (Hl1 & Hch1 & Hup1 & Hrest1).
  set (s1 := reparent_all p (map root cs) s) in *.
  assert (Hrm : list_remove n (children s1 p) = Some (map root ((ks1 ++ ks2) ++ cs))).
  { rewrite Hch1, decide_True, Hch by done. rewrite <- app_assoc. simpl.
    rewrite list_remove_middle.
    - by rewrite !map_app, app_assoc.
    - intros H. apply (Hdis n); [simpl; by left|]. simpl. right.
      rewrite flat_map_app. apply elem_of_app. left. by apply roots_in_ids. }
  set (s' := set_up n None (set_children p (map root ((ks1 ++ ks2) ++ cs)) s1)).
  assert (Hrun : delete_plain fuel n s = (s', Ok tt)).
  { assert (Hrp : delete_reparent fuel 0 n p s = (s1, Ok tt)).
    { apply (delete_reparent_run n p (map root cs) Hnp fuel [] s); [done|].
      by rewrite length_map. }
    unfold delete_plain, bind at 1, read. rewrite Hup.
    unfold bind at 1. rewrite Hrp.
    unfold bind, remove_child. by rewrite Hrm. }
  assert (Hp1 : p < length s1) by by rewrite Hl1.
  assert (Hn1 : n < length s1) by by rewrite Hl1.
  assert (Hch' : forall x, x <> p -> children s' x = children s x).
  { intros x Hx. unfold s'. autorewrite with arena.
    rewrite decide_False by (intros [? _]; congruence).
    by rewrite Hch1, decide_False. }
  assert (Hchp : children s' p = map root ((ks1 ++ ks2) ++ cs)).
  { unfold s'. autorewrite with arena. by rewrite decide_True. }
  assert (Hupn : up s' n = None).
  { unfold s'. autorewrite with arena. by rewrite decide_True. }
  assert (Hupc : forall c, c ∈ cs -> up s' (root c) = Some p).
  { intros c Hc'. unfold s'. autorewrite with arena.
    rewrite decide_False.
    - rewrite Hup1, decide_True; [done|]. apply list_elem_of_fmap. by exists c.
    - intros [He _]. simpl in Hndk. apply NoDup_cons in Hndk as [Hn _]. apply Hn.
      rewrite He. eapply ids_kid; [done|apply root_in_ids]. }
  assert (Hup' : forall x, x <> n -> x ∉ map root cs -> up s' x = up s x).
  { intros x Hx Hxc. unfold s'. autorewrite with arena.
    rewrite decide_False by (intros [? _]; congruence).
    by rewrite Hup1, decide_False. }
  assert (Hupo : forall x, x ∉ ids (T n cs) -> up s' x = up s x).
  { intros x Hx. apply Hup'.
    - intros ->. apply Hx. simpl. by left.
    - intros H. apply Hx. simpl. right. by apply roots_in_ids. }
  assert (Hsub' : forall x, x ∈ ids (T p ((ks1 ++ ks2) ++ cs)) ->
            x ∈ ids (T p (ks1 ++ T n cs :: ks2))).
  { simpl. intros x [->|Hx]%elem_of_cons; [by left|]. right.
    rewrite flat_map_middle. simpl. rewrite flat_map_app in Hx.
    apply elem_of_app in Hx as [Hx|Hx]; apply elem_of_app; [by left|right; by right]. }
  exists s'. split; [done|]. split; [|split; [done|split; [|split; [done|split]]]]; cycle 1.
  { rewrite Hch'; done. }
  { apply Hupo. done. }
  { intros x. unfold s'. autorewrite with arena. apply Hrest1. }
  eapply (wf_replaced s s'); [done|done|done| | | | | |].
  - constructor; [done|..].
    + rewrite Forall_forall. intros k0 [Hk0|Hk0]%elem_of_app; [|by apply Hupc].
      destruct (Hsibs k0 Hk0) as [_ Hu0]. rewrite Hupo; [done|].
      intros H. apply (Hdis (root k0) H). simpl. right.
      eapply ids_kid; [done|apply root_in_ids].
    + rewrite Forall_forall. intros k0 [Hk0|Hk0]%elem_of_app.
      * destruct (Hsibs k0 Hk0) as [Hs0 _].
        assert (Hin0 : forall x, x ∈ ids k0 -> x ∈ ids (T p (ks1 ++ ks2))).
        { intros x Hx. simpl. right. by eapply ids_kid. }
        apply (shape_frame s); [done|..].
        -- intros x Hx. apply Hch'. intros ->.
           simpl in Hndu'. apply NoDup_cons in Hndu' as [Hn _]. apply Hn.
           by eapply ids_kid.
        -- intros x Hx. apply Hupo. intros H. apply (Hdis x H).
           apply Hin0. destruct k0. simpl in *. by right.
      * apply (shape_frame s); [by apply Hshcs|..].
        -- intros x Hx. apply Hch'. intros ->. apply Hpk. simpl. right.
           by eapply ids_kid.
        -- intros x Hx. simpl in Hndk. apply NoDup_cons in Hndk as [Hn Hndcs].
           apply Hup'.
           ++ intros ->. apply Hn. eapply ids_kid; [done|].
              destruct k0. simpl in *. by right.
           ++ intros (c' & He & Hc')%list_elem_of_fmap.
              assert (Hxk0 : x ∈ ids k0) by (destruct k0; simpl in *; by right).
              assert (c' = k0) as ->.
              { eapply (kids_share cs); [done|done|done| |done].
                rewrite He. apply root_in_ids. }
              pose proof (NoDup_kid cs k0 Hndcs Hk0) as Hnd0.
              destruct k0 as [m ms]. simpl in *. apply NoDup_cons in Hnd0 as [H0 _].
              by subst.
  - simpl. rewrite flat_map_app. apply NoDup_regroup with (n := n); [done|done|].
    intros x Hx. by apply Hdis.
  - intros x Hx. left. by apply Hsub'.
  - intros x Hx Hxu. split.
    + apply Hch'. intros ->. apply Hxu. simpl. by left.
    + apply Hupo. intros H. apply Hxu. simpl. right.
      eapply ids_kid; [|done]. apply elem_of_app. right. by left.
  - simpl. by apply Hupo.
  - intros x Hx. destruct Hwf as (_ & _ & Hroot). apply Hroot.
    eapply subtree_ids; [done|]. by apply Hsub'.
Qed.

Lemma delete_elides_run (fuel : nat) (s : store) (t t' : tree)
    (p n : node) (ks1 ks2 cs : list tree) (prevent_nondicotomic : bool) :
  wf s t ->
  replaced (T p (ks1 ++ T n cs :: ks2)) (T p ((ks1 ++ ks2) ++ cs)) t t' ->
  length cs <= fuel ->
  prevent_nondicotomic = false \/ 2 <= length ((ks1 ++ ks2) ++ cs) \/ up s p = None ->
  exists s',
    delete fuel n prevent_nondicotomic s = (s', Ok tt) /\
    wf s' t' /\ up s' n = None /\ up s' p = up s p /\
    forall x, dist s' x = dist s x /\ support s' x = support s x /\ name_of s' x = name_of s x.
Proof.
  intros Hwf Hr Hf Hcase.
  destruct (delete_plain_elides fuel s t t' p n ks1 ks2 cs Hwf Hr Hf)
    as (s' & Hrun & Hwf' & Hupn & _ & Hchp & Hupp & Hrest).
  pose proof (replaced_subtree _ _ _ _ Hr) as Hsub.
  destruct (subtree_wf s _ _ Hsub Hwf) as (Hsu & Hndu & _).
  destruct (kid_facts s p ks1 ks2 (T n cs) Hsu Hndu) as (_ & Hup & _).
  exists s'. split; [|done].
  unfold delete, bind at 1, read. simpl in Hup. rewrite Hup.
  unfold bind at 1. rewrite Hrun. unfold bind, read. rewrite Hchp, length_map.
  destruct Hcase as [->|[H|H]]; [done| |].
  - rewrite bool_decide_eq_false_2 by lia. by rewrite andb_false_r.
  - destruct (_ && _); [|done]. unfold delete_plain, bind, read. by rewrite Hupp, H.
Qed.

(** X18: [delete] removes a node from under its parent: its children move to the
    end of the parent's children, with the dists they had, and the rest of
    the tree is untouched.  This is the whole effect when the cascade is off,
    when the parent keeps two children or more, or when the parent is a
    root. *)
Theorem delete_elides (fuel : nat) (s : store) (t t' : tree)
    (p n : node) (ks1 ks2 cs : list tree) (prevent_nondicotomic : bool) :
  wf s t ->
  replaced (T p (ks1 ++ T n cs :: ks2)) (T p ((ks1 ++ ks2) ++ cs)) t t' ->
  length cs <= fuel ->
  prevent_nondicotomic = false \/ 2 <= length ((ks1 ++ ks2) ++ cs) \/ up s p = None ->
  exists s',
    delete fuel n prevent_nondicotomic s = (s', Ok tt) /\
    wf s' t' /\ up s' n = None /\
    forall x, dist s' x = dist s x /\ support s' x = support s x /\ name_of s' x = name_of s x.
Proof.
  intros Hwf Hr Hf Hcase.
  destruct (delete_elides_run fuel s t t' p n ks1 ks2 cs prevent_nondicotomic Hwf Hr Hf Hcase)
    as (s' & Hrun & Hwf' & Hupn & _ & Hrest).
  by exists s'.
Qed.

(** X19: The cascade of [delete]: when the parent is left with fewer than two
    children and has a parent itself, it is removed in turn, its remaining
    child moving up to the grandparent. *)
Theorem delete_cascades (fuel : nat) (s : store) (t t' t'' : tree)
    (g p n : node) (gs1 gs2 ks1 ks2 cs : list tree) :
  wf s t ->
  replaced (T p (ks1 ++ T n cs :: ks2)) (T p ((ks1 ++ ks2) ++ cs)) t t' ->
  replaced (T g (gs1 ++ T p ((ks1 ++ ks2) ++ cs) :: gs2))
           (T g ((gs1 ++ gs2) ++ ((ks1 ++ ks2) ++ cs))) t' t'' ->
  length ((ks1 ++ ks2) ++ cs) < 2 ->
  2 <= fuel ->
  exists s'',
    delete fuel n true s = (s'', Ok tt) /\ wf s'' t'' /\ up s'' p = None.
Proof.
  intros Hwf Hr Hr' Hlen Hf.
  assert (Hcs : length cs <= fuel) by (rewrite length_app in Hlen; lia).
  destruct (delete_plain_elides fuel s t t' p n ks1 ks2 cs Hwf Hr Hcs)
    as (s' & Hrun & Hwf' & Hupn & _ & Hchp & Hupp & Hrest).
  destruct (delete_plain_elides fuel s' t' t'' g p gs1 gs2 _ Hwf' Hr' ltac:(lia))
    as (s'' & Hrun' & Hwf'' & Hupp' & _).
  pose proof (replaced_subtree _ _ _ _ Hr) as Hsub.
  destruct (subtree_wf s _ _ Hsub Hwf) as (Hsu & Hndu & _).
  destruct (kid_facts s p ks1 ks2 (T n cs) Hsu Hndu) as (_ & Hup & _).
  exists s''. split; [|done].
  unfold delete, bind at 1, read. simpl in Hup. rewrite Hup.
  unfold bind at 1. rewrite Hrun. unfold bind, read. rewrite Hchp, length_map.
  rewrite bool_decide_eq_true_2 by lia. by simpl.
Qed.

(** ** Unrooting *)

Lemma below_has_parent (s : store) (t : tree) (x : node) :
  shape s t -> x ∈ flat_map ids (kids t) -> exists p, up s x = Some p /\ p ∈ ids t.
Proof.
  induction t as [n ks IH] using tree_ind'. intros Hs Hx. inversion Hs; subst.
  rewrite Forall_forall in *. simpl in Hx.
  apply elem_of_flat_map in Hx as (k & Hk & Hx).
  destruct k as [m cs]. simpl in Hx. apply elem_of_cons in Hx as [->|Hx].
  - exists n. split; [by apply (H2 (T m cs))|simpl; by left].
  - destruct (IH (T m cs) Hk) as (p & Hp & Hin); [by auto|done|].
    exists p. split; [done|]. simpl. right. by eapply ids_kid.
Qed.

Lemma unroot_root (fuel : nat) (s : store) (r c0 c1 : node) :
  up s r = None -> children s r = [c0; c1] ->
  unroot fuel r s =
  if negb (is_leaf s c0) then delete fuel c0 true s
  else if negb (is_leaf s c1) then delete fuel c1 true s
  else (s, Raise TreeError).
Proof.
  intros Hup Hch. unfold unroot.
  rewrite (bind_ok _ _ s s true) by (unfold read, is_root; by rewrite Hup).
  rewrite (bind_ok _ _ s s tt) by done.
  rewrite (bind_ok _ _ s s [c0; c1]) by (unfold read; by rewrite Hch).
  rewrite (bind_ok _ _ s s (is_leaf s c0)) by done.
  destruct (is_leaf s c0); [|done]. cbn [negb].
  rewrite (bind_ok _ _ s s (is_leaf s c1)) by done.
  by destruct (is_leaf s c1).
Qed.

(** X21: [unroot] on the root of a tree with two children, one of them internal:
    the first internal child is removed and its children join the root's, so
    the root ends with three children or more. *)
Theorem unroot_elides_child (fuel : nat) (s : store) (r : node) (a b : tree) :
  wf s (T r [a; b]) -> up s r = None ->
  kids a <> [] \/ kids b <> [] ->
  length (kids a) <= fuel -> length (kids b) <= fuel ->
  exists s',
    unroot fuel r s = (s', Ok tt) /\
    wf s' (if decide (kids a = []) then T r (a :: kids b) else T r (b :: kids a)) /\
    up s' r = None /\
    forall x, dist s' x = dist s x.
Proof.
  intros Hwf Hup Hint Hfa Hfb. pose proof Hwf as (Hs & _).
  inversion Hs as [? ? Hch Hups Hshs]; subst.
  apply Forall_cons in Hshs as [Hsa Hshs]. apply Forall_cons in Hshs as [Hsb _].
  destruct a as [na ca], b as [nb cb]. simpl in *.
  inversion Hsa as [? ? Hcha _ _]; subst. inversion Hsb as [? ? Hchb _ _]; subst.
  rewrite (unroot_root fuel s r na nb Hup Hch). unfold is_leaf.
  rewrite Hcha, Hchb, !length_map.
  destruct (decide (ca = [])) as [->|Hca].
  - simpl. destruct Hint as [?|Hcb]; [done|].
    rewrite bool_decide_eq_false_2 by (by destruct cb). simpl.
    destruct (delete_elides_run fuel s (T r [T na []; T nb cb]) (T r (([T na []] ++ []) ++ cb))
                r nb [T na []] [] cb true) as (s' & Hd & Hwf' & _ & Hupr & Hdist).
    { done. } { apply replaced_here. } { done. }
    { right. left. destruct cb; [done|]. simpl. lia. }
    exists s'. split; [done|]. split; [done|]. split; [congruence|apply Hdist].
  - rewrite bool_decide_eq_false_2 by (by destruct ca). simpl.
    destruct (delete_elides_run fuel s (T r [T na ca; T nb cb]) (T r (([] ++ [T nb cb]) ++ ca))
                r na [] [T nb cb] ca true) as (s' & Hd & Hwf' & _ & Hupr & Hdist).
    { done. } { apply replaced_here. } { done. }
    { right. left. destruct ca; [done|]. simpl. lia. }
    exists s'. split; [done|]. split; [done|]. split; [congruence|apply Hdist].
Qed.

(** X22: [unroot] on a node that has a parent raises NameError before it touches
    anything (the warning it means to print goes to [sys.stderr], and [sys]
    is never imported); on the root of a tree of two leaves it raises
    TreeError; a root with any other number of children is left as it is. *)
Theorem unroot_refusals (fuel : nat) (s : store) (t : tree) (x : node) :
  shape s t -> up s (root t) = None ->
  (x ∈ flat_map ids (kids t) -> unroot fuel x s = (s, Raise NameError)) /\
  (Forall (fun k => kids k = []) (kids t) -> length (kids t) = 2 ->
   unroot fuel (root t) s = (s, Raise TreeError)) /\
  (length (kids t) <> 2 -> unroot fuel (root t) s = (s, Ok tt)).
Proof.
  intros Hs Hup. repeat split.
  - intros Hx. destruct (below_has_parent s t x Hs Hx) as (p & Hp & _).
    unfold unroot.
    rewrite (bind_ok _ _ s s false); [done|].
    unfold read, is_root. by rewrite Hp.
  - intros Hl Hlen. destruct t as [r [|a [|b [|? ?]]]]; try done. simpl in *.
    inversion Hs as [? ? Hch _ Hshs]; subst.
    apply Forall_cons in Hshs as [Hsa Hshs]. apply Forall_cons in Hshs as [Hsb _].
    apply Forall_cons in Hl as [Ha Hl]. apply Forall_cons in Hl as [Hb _].
    destruct a as [na ca], b as [nb cb]. simpl in *. subst.
    inversion Hsa as [? ? Hcha _ _]; subst. inversion Hsb as [? ? Hchb _ _]; subst.
    rewrite (unroot_root fuel s r na nb Hup Hch). unfold is_leaf.
    by rewrite Hcha, Hchb.
  - intros Hlen. destruct t as [r ks]. simpl in *. inversion Hs as [? ? Hch _ _]; subst.
    unfold unroot.
    rewrite (bind_ok _ _ s s true) by (unfold read, is_root; by rewrite Hup).
    rewrite (bind_ok _ _ s s tt) by done.
    rewrite (bind_ok _ _ s s (map root ks)) by (unfold read; by rewrite Hch).
    by destruct ks as [|a [|b [|? ?]]].
Qed.

(** ** Adding children *)

Lemma with_overrides_fields (c : node) (nm : option string) (d sp : option F) (s : store) :
  length (with_overrides c nm d sp s) = length s /\
  (forall x, children (with_overrides c nm d sp s) x = children s x /\
             up (with_overrides c nm d sp s) x = up s x) /\
  (forall x, x <> c ->
     dist (with_overrides c nm d sp s) x = dist s x /\
     support (with_overrides c nm d sp s) x = support s x /\
     name_of (with_overrides c nm d sp s) x = name_of s x) /\
  (c < length s ->
     dist (with_overrides c nm d sp s) c = default (dist s c) d /\
     support (with_overrides c nm d sp s) c = default (support s c) sp /\
     name_of (with_overrides c nm d sp s) c = default (name_of s c) nm).
Proof.
  unfold with_overrides.
  destruct nm, d, sp; simpl; repeat split; intros; autorewrite with arena;
    rewrite ?decide_True by done; rewrite ?decide_False by (intros [? _]; congruence);
    done.
Qed.

Lemma add_child_run (s : store) (p c : node) (nm : option string) (d sp : option F) :
  add_child p (Some c) nm d sp s
  = (set_up c (Some p)
       (set_children p (children s p ++ [c]) (with_overrides c nm d sp s)), Ok c).
Proof.
  destruct (with_overrides_fields c nm d sp s) as (_ & Hcu & _).
  destruct (Hcu p) as [<- _].
  by destruct nm, d, sp.
Qed.

(** [add_child] with an existing node: the tree below the child becomes the
    last subtree of the parent. *)
Lemma add_child_grafts_run (s : store) (t t' tc : tree) (p : node) (ks : list tree)
    (nm : option string) (d sp : option F) :
  wf s t -> up s (root t) = None -> root t < length s ->
  shape s tc -> NoDup (ids tc) -> root tc < length s ->
  (forall x, x ∈ ids tc -> x ∉ ids t) ->
  replaced (T p ks) (T p (ks ++ [tc])) t t' ->
  exists s',
    add_child p (Some (root tc)) nm d sp s = (s', Ok (root tc)) /\
    wf s' t' /\ up s' (root t') = None /\ length s' = length s /\
    (forall x, x <> p -> children s' x = children s x) /\
    (forall x, x <> root tc -> up s' x = up s x) /\
    (forall x, x <> root tc ->
       dist s' x = dist s x /\ support s' x = support s x /\ name_of s' x = name_of s x) /\
    dist s' (root tc) = default (dist s (root tc)) d /\
    support s' (root tc) = default (support s (root tc)) sp /\
    name_of s' (root tc) = default (name_of s (root tc)) nm.
Proof.
  intros Hwf Hupr Hrt Hstc Hndc Hc Hdis Hr.
  pose proof (replaced_subtree _ _ _ _ Hr) as Hsub.
  destruct (subtree_wf s _ _ Hsub Hwf) as (Hsu & Hndu & _).
  pose proof Hwf as (Hst & Hndt & _).
  assert (Hpt : p ∈ ids t) by (eapply subtree_ids; [done|simpl; by left]).
  assert (Hp : p < length s) by by eapply ids_lt.
  assert (Hpc : p <> root tc).
  { intros ->. by apply (Hdis (root tc)); [apply root_in_ids|]. }
  destruct (with_overrides_fields (root tc) nm d sp s) as (Hl0 & Hcu0 & Hother0 & Hc0).
  set (s0 := with_overrides (root tc) nm d sp s) in *.
  set (s' := set_up (root tc) (Some p) (set_children p (children s p ++ [root tc]) s0)).
  assert (Hch' : forall x, x <> p -> children s' x = children s x).
  { intros x Hx. unfold s'. autorewrite with arena.
    rewrite decide_False by (intros [? _]; congruence). apply Hcu0. }
  assert (Hup' : forall x, x <> root tc -> up s' x = up s x).
  { intros x Hx. unfold s'. autorewrite with arena.
    rewrite decide_False by (intros [? _]; congruence). apply Hcu0. }
  assert (Hnum : forall x, dist s' x = dist s0 x /\ support s' x = support s0 x /\
                           name_of s' x = name_of s0 x).
  { intros x. unfold s'. by autorewrite with arena. }
  inversion Hsu as [? ? Hchp Hups Hshs]; subst. rewrite Forall_forall in Hups, Hshs.
  exists s'. split; [by rewrite add_child_run|].
  assert (Hwf' : wf s' t').
  { eapply (wf_replaced s s'); [done|done|done| | | | | |].
    - constructor.
      + unfold s'. autorewrite with arena. rewrite decide_True by (by rewrite Hl0).
        rewrite Hchp, map_app. done.
      + rewrite Forall_forall. intros k [Hk|Hk]%elem_of_app.
        * rewrite Hup'; [by apply Hups|]. intros He.
          apply (Hdis (root tc)); [apply root_in_ids|]. eapply subtree_ids; [done|].
          simpl. right. rewrite <- He. eapply ids_kid; [done|apply root_in_ids].
        * apply list_elem_of_singleton in Hk as ->. unfold s'. autorewrite with arena.
          rewrite decide_True; [done|]. by rewrite Hl0.
      + rewrite Forall_forall. intros k [Hk|Hk]%elem_of_app.
        * apply (shape_frame s); [by apply Hshs|..].
          -- intros x Hx. apply Hch'. intros ->. simpl in Hndu.
             apply NoDup_cons in Hndu as [Hn _]. apply Hn. by eapply ids_kid.
          -- intros x Hx. apply Hup'. intros ->.
             apply (Hdis (root tc)); [apply root_in_ids|]. eapply subtree_ids; [done|].
             simpl. right. eapply ids_kid; [done|]. destruct k. simpl in *. by right.
        * apply list_elem_of_singleton in Hk as ->.
          apply (shape_frame s); [done|..].
          -- intros x Hx. apply Hch'. intros ->. by apply (Hdis p).
          -- intros x Hx. apply Hup'. intros ->. destruct tc. simpl in *.
             by apply NoDup_cons in Hndc as [? _].
    - simpl. rewrite flat_map_app. simpl. rewrite app_nil_r, app_comm_cons.
      apply NoDup_app. repeat split; [done| |done].
      intros x Hx Hx'. apply (Hdis x Hx'). by eapply subtree_ids.
    - simpl. intros x [->|Hx]%elem_of_cons; [left; by left|].
      rewrite flat_map_app in Hx. simpl in Hx. rewrite app_nil_r in Hx.
      apply elem_of_app in Hx as [Hx|Hx]; [left; by right|right; by apply Hdis].
    - intros x Hx Hxu. split.
      + apply Hch'. intros ->. apply Hxu. simpl. by left.
      + apply Hup'. intros ->. by apply (Hdis (root tc)); [apply root_in_ids|].
    - simpl. by apply Hup'.
    - intros x _. by rewrite Hupr. }
  split; [done|]. split.
  { rewrite (replaced_root _ _ _ _ Hr) by done. rewrite Hup'; [done|].
    intros He. apply (Hdis (root tc)); [apply root_in_ids|]. rewrite <- He. apply root_in_ids. }
  split; [unfold s'; by autorewrite with arena|].
  split; [done|]. split; [done|]. split.
  { intros x Hx. destruct (Hnum x) as (-> & -> & ->). by apply Hother0. }
  destruct (Hnum (root tc)) as (-> & -> & ->). by apply Hc0.
Qed.

(** X10: [add_child] with a node that roots a tree of its own: that tree becomes
    the last subtree of the parent, wherever the parent sits; the overrides
    land on the child and nothing else changes. *)
Theorem add_child_grafts (s : store) (t t' tc : tree) (p : node) (ks : list tree)
    (nm : option string) (d sp : option F) :
  wf s t -> up s (root t) = None -> root t < length s ->
  shape s tc -> NoDup (ids tc) -> root tc < length s ->
  (forall x, x ∈ ids tc -> x ∉ ids t) ->
  replaced (T p ks) (T p (ks ++ [tc])) t t' ->
  exists s',
    add_child p (Some (root tc)) nm d sp s = (s', Ok (root tc)) /\
    wf s' t' /\
    dist s' (root tc) = default (dist s (root tc)) d /\
    support s' (root tc) = default (support s (root tc)) sp /\
    name_of s' (root tc) = default (name_of s (root tc)) nm /\
    forall x, x <> root tc ->
      dist s' x = dist s x /\ support s' x = support s x /\ name_of s' x = name_of s x.
Proof.
  intros Hwf Hupr Hrt Hstc Hndc Hc Hdis Hr.
  destruct (add_child_grafts_run s t t' tc p ks nm d sp Hwf Hupr Hrt Hstc Hndc Hc Hdis Hr)
    as (s' & Hrun & Hwf' & _ & _ & _ & _ & Hother & Hd & Hsp & Hnm).
  by exists s'.
Qed.

Lemma add_child_alloc (s : store) (p : node) (nm : option string) (d sp : option F) :
  add_child p None nm d sp s = add_child p (Some (length s)) nm d sp (s ++ [new_node]).
Proof. reflexivity. Qed.

Lemma shape_same_obj (s s' : store) (t : tree) :
  (forall x, obj s' x = obj s x) -> shape s t -> shape s' t.
Proof.
  intros H Hs. apply (shape_frame s); [done|..]; intros x _; unfold children, up; by rewrite H.
Qed.

Lemma wf_alloc (s : store) (t : tree) : wf s t -> wf (s ++ [new_node]) t.
Proof.
  intros (Hs & Hnd & Hup). split; [|split; [done|]].
  - apply (shape_same_obj s); [|done]. apply obj_alloc.
  - intros x Hx. unfold up. rewrite obj_alloc. by apply Hup.
Qed.

Lemma obj_fresh (s : store) (x : node) : length s <= x -> obj s x = new_node.
Proof. intros H. unfold obj. by rewrite lookup_ge_None_2. Qed.

Lemma wf_fresh_leaf (s : store) : wf (s ++ [new_node]) (T (length s) []).
Proof.
  split; [|split].
  - constructor; [|done|done]. unfold children. by rewrite obj_alloc, obj_fresh.
  - simpl. apply NoDup_singleton.
  - intros x _. unfold up. by rewrite obj_alloc, obj_fresh.
Qed.

(** X11: [add_child()] with no node: a new node is created with the defaults
    (name NoName, dist 1.0, support 1.0) unless overridden, and becomes the
    last child of the parent as a leaf. *)
Theorem add_child_new (s : store) (t t' : tree) (p : node) (ks : list tree)
    (nm : option string) (d sp : option F) :
  wf s t -> up s (root t) = None -> root t < length s ->
  replaced (T p ks) (T p (ks ++ [T (length s) []])) t t' ->
  exists s',
    add_child p None nm d sp s = (s', Ok (length s)) /\
    wf s' t' /\
    dist s' (length s) = default f1 d /\
    support s' (length s) = default f1 sp /\
    name_of s' (length s) = default "NoName"%string nm /\
    forall x, x <> length s ->
      dist s' x = dist s x /\ support s' x = support s x /\ name_of s' x = name_of s x.
Proof.
  intros Hwf Hupr Hrt Hr. rewrite add_child_alloc.
  destruct (add_child_grafts_run (s ++ [new_node]) t t' (T (length s) []) p ks nm d sp)
    as (s' & Hrun & Hwf' & _ & _ & _ & _ & Hother & Hd & Hsp & Hnm); try done.
  - by apply wf_alloc.
  - unfold up. by rewrite obj_alloc.
  - rewrite length_app. simpl. lia.
  - apply wf_fresh_leaf.
  - apply NoDup_singleton.
  - simpl. rewrite length_app. simpl. lia.
  - simpl. intros x ->%list_elem_of_singleton Hx. destruct Hwf as (Hs & _).
    pose proof (ids_lt s t _ Hs Hrt Hx). lia.
  - assert (Hsame : forall x, dist (s ++ [new_node]) x = dist s x /\
                      support (s ++ [new_node]) x = support s x /\
                      name_of (s ++ [new_node]) x = name_of s x).
    { intros x. unfold dist, support, name_of. by rewrite obj_alloc. }
    assert (Hnew : dist s (length s) = f1 /\ support s (length s) = f1 /\
                   name_of s (length s) = "NoName"%string).
    { unfold dist, support, name_of. by rewrite obj_fresh. }
    simpl in *. destruct (Hsame (length s)) as (Hd0 & Hsp0 & Hnm0).
    destruct Hnew as (Hd1 & Hsp1 & Hnm1).
    rewrite Hd0, Hd1 in Hd. rewrite Hsp0, Hsp1 in Hsp. rewrite Hnm0, Hnm1 in Hnm.
    exists s'. split; [done|]. split; [done|]. split; [done|]. split; [done|].
    split; [done|]. intros x Hx. destruct (Hother x Hx) as (-> & -> & ->). apply Hsame.
Qed.

(** X12: [add_child] does not take the child away from a parent it already has:
    the former parent still lists it, so the node is the child of two. *)
Theorem add_child_keeps_former_parent (s : store) (p q c : node)
    (nm : option string) (d sp : option F) :
  c ∈ children s q -> up s c = Some q -> q <> p -> p < length s ->
  exists s',
    add_child p (Some c) nm d sp s = (s', Ok c) /\
    c ∈ children s' q /\ c ∈ children s' p /\ up s' c = Some p.
Proof.
  intros Hc Hup Hne Hp. rewrite add_child_run. eexists. split; [done|].
  destruct (with_overrides_fields c nm d sp s) as (Hl0 & Hcu0 & _).
  autorewrite with arena. rewrite Hl0.
  rewrite decide_False by (intros [? _]; congruence).
  pose proof (up_Some_lt s c q Hup) as Hlt.
  rewrite !decide_True by done.
  destruct (Hcu0 q) as [-> _]. repeat split; [done|].
  apply elem_of_app. right. by left.
Qed.

Lemma obj_fields_eq (o o' : TreeNode) :
  _children o = _children o' -> _up o = _up o' -> _dist o = _dist o' ->
  _support o = _support o' -> name o = name o' -> o = o'.
Proof. destruct o, o'. simpl. by intros -> -> -> -> ->. Qed.

(** X13: [remove_child] undoes [add_child]: attaching a parentless node that the
    parent does not list yet and removing it again leaves the arena exactly
    as it was. *)
Theorem add_then_remove_child (s : store) (p c : node) :
  p < length s -> up s c = None -> c ∉ children s p ->
  (add_child p (Some c) None None None ;; remove_child p c) s = (s, Ok c).
Proof.
  intros Hp Hup Hc. unfold bind. rewrite add_child_plain. unfold remove_child.
  autorewrite with arena. rewrite decide_True by done.
  rewrite (list_remove_middle c (children s p) []) by done. rewrite app_nil_r.
  f_equal. apply store_ext; [by autorewrite with arena|].
  intros x Hx. apply obj_fields_eq.
  - change (children (set_up c None (set_children p (children s p)
              (set_up c (Some p) (set_children p (children s p ++ [c]) s)))) x
            = children s x).
    autorewrite with arena.
    destruct (decide (p = x /\ p < length s)) as [[-> _]|_]; done.
  - change (up (set_up c None (set_children p (children s p)
              (set_up c (Some p) (set_children p (children s p ++ [c]) s)))) x
            = up s x).
    autorewrite with arena.
    destruct (decide (c = x /\ c < length s)) as [[-> _]|_]; done.
  - change (dist (set_up c None (set_children p (children s p)
              (set_up c (Some p) (set_children p (children s p ++ [c]) s)))) x
            = dist s x).
    by autorewrite with arena.
  - change (support (set_up c None (set_children p (children s p)
              (set_up c (Some p) (set_children p (children s p ++ [c]) s)))) x
            = support s x).
    by autorewrite with arena.
  - change (name_of (set_up c None (set_children p (children s p)
              (set_up c (Some p) (set_children p (children s p ++ [c]) s)))) x
            = name_of s x).
    by autorewrite with arena.
Qed.

(** X15: [a + b] makes a new root with the defaults and hangs the two trees from
    it, [a] first; the nodes of [a] and [b] keep their dists, supports and
    names. *)
Theorem add_trees (s : store) (ta tb : tree) :
  wf s ta -> wf s tb -> root ta < length s -> root tb < length s ->
  (forall x, x ∈ ids tb -> x ∉ ids ta) ->
  exists s',
    __add__ (root ta) (root tb) s = (s', Ok (length s)) /\
    wf s' (T (length s) [ta; tb]) /\ up s' (length s) = None /\
    dist s' (length s) = f1 /\ support s' (length s) = f1 /\
    forall x, x <> length s ->
      dist s' x = dist s x /\ support s' x = support s x /\ name_of s' x = name_of s x.
Proof.
  intros Hwfa Hwfb Hra Hrb Hdis.
  pose proof Hwfa as (Hsa & Hnda & _). pose proof Hwfb as (Hsb & Hndb & _).
  set (s0 := s ++ [new_node]). set (n0 := length s).
  assert (Hl0 : length s0 = S n0) by (unfold s0, n0; rewrite length_app; simpl; lia).
  assert (Hn0a : n0 ∉ ids ta).
  { intros H. pose proof (ids_lt s ta _ Hsa Hra H). unfold n0 in *. lia. }
  assert (Hn0b : n0 ∉ ids tb).
  { intros H. pose proof (ids_lt s tb _ Hsb Hrb H). unfold n0 in *. lia. }
  assert (Hsame : forall x, dist s0 x = dist s x /\ support s0 x = support s x /\
                            name_of s0 x = name_of s x).
  { intros x. unfold dist, support, name_of, s0. by rewrite obj_alloc. }
  destruct (add_child_grafts_run s0 (T n0 []) (T n0 ([] ++ [ta])) ta n0 [] None None None)
    as (s1 & Hrun1 & Hwf1 & Hup1 & Hl1 & Hch1 & Hu1 & Hoth1 & Hd1 & Hsp1 & Hnm1).
  { apply wf_fresh_leaf. }
  { simpl. unfold up, s0, n0. by rewrite obj_alloc, obj_fresh. }
  { simpl. lia. }
  { apply (shape_same_obj s); [apply obj_alloc|done]. }
  { done. } { lia. }
  { simpl. intros x Hx ->%list_elem_of_singleton. done. }
  { apply replaced_here. }
  destruct (add_child_grafts_run s1 (T n0 [ta]) (T n0 ([ta] ++ [tb])) tb n0 [ta] None None None)
    as (s2 & Hrun2 & Hwf2 & Hup2 & Hl2 & Hch2 & Hu2 & Hoth2 & Hd2 & Hsp2 & Hnm2).
  { done. } { done. } { simpl. lia. }
  { apply (shape_frame s0).
    - apply (shape_same_obj s); [apply obj_alloc|done].
    - intros x Hx. apply Hch1. by intros ->.
    - intros x Hx. apply Hu1. intros ->. apply (Hdis (root ta)); [|apply root_in_ids].
      destruct tb. simpl in *. by right. }
  { done. } { lia. }
  { simpl. intros x Hx [->|Hx']%elem_of_cons; [done|].
    rewrite app_nil_r in Hx'. by apply (Hdis x). }
  { apply replaced_here. }
  simpl in *. exists s2. split.
  { unfold __add__.
    rewrite (bind_ok _ _ s s0 n0) by done.
    rewrite (bind_ok _ _ s0 s1 (root ta)) by done.
    rewrite (bind_ok _ _ s1 s2 (root tb)) by done. done. }
  split; [done|]. split; [done|].
  assert (Hne : n0 <> root ta) by (intros H; apply Hn0a; rewrite H; apply root_in_ids).
  assert (Hne' : n0 <> root tb) by (intros H; apply Hn0b; rewrite H; apply root_in_ids).
  destruct (Hoth2 n0 Hne') as (Hx1 & Hx2 & _). destruct (Hoth1 n0 Hne) as (Hy1 & Hy2 & _).
  destruct (Hsame n0) as (Hz1 & Hz2 & _).
  split; [|split].
  - rewrite Hx1, Hy1, Hz1. unfold dist. by rewrite obj_fresh.
  - rewrite Hx2, Hy2, Hz2. unfold support. by rewrite obj_fresh.
  - intros x Hx.
    assert (H1 : dist s1 x = dist s x /\ support s1 x = support s x /\ name_of s1 x = name_of s x).
    { destruct (decide (x = root ta)) as [->|Hxa].
      - rewrite Hd1, Hsp1, Hnm1. simpl. apply Hsame.
      - destruct (Hoth1 x Hxa) as (-> & -> & ->). apply Hsame. }
    destruct (decide (x = root tb)) as [->|Hxb].
    + by rewrite Hd2, Hsp2, Hnm2.
    + by destruct (Hoth2 x Hxb) as (-> & -> & ->).
Qed.

(** X14: [add_sister()] on a child of [p] adds a new last child to [p]; on a node
    with no parent it raises TreeError. *)
Theorem add_sister_new (s : store) (t t' : tree) (p : node) (ks : list tree) (k : tree)
    (nm : option string) (d : option F) :
  wf s t -> up s (root t) = None -> root t < length s ->
  replaced (T p ks) (T p (ks ++ [T (length s) []])) t t' -> k ∈ ks ->
  add_sister (root t) None nm d s = (s, Raise TreeError) /\
  exists s',
    add_sister (root k) None nm d s = (s', Ok (length s)) /\
    wf s' t' /\
    dist s' (length s) = default f1 d /\ support s' (length s) = f1.
Proof.
  intros Hwf Hupr Hrt Hr Hk. split.
  { unfold add_sister, bind, read. by rewrite Hupr. }
  pose proof (replaced_subtree _ _ _ _ Hr) as Hsub.
  destruct (subtree_wf s _ _ Hsub Hwf) as (Hsu & _).
  destruct (shape_kids s p ks k Hsu Hk) as [_ Hupk].
  assert (Hrun : add_sister (root k) None nm d s = add_child p None nm d None s).
  { unfold add_sister. by rewrite (bind_ok _ _ s s (Some p)) by (unfold read; by rewrite Hupk). }
  rewrite Hrun, add_child_alloc.
  destruct (add_child_grafts_run (s ++ [new_node]) t t' (T (length s) []) p ks nm d None)
    as (s' & Hrun' & Hwf' & _ & _ & _ & _ & _ & Hd & Hsp & _); try done.
  - by apply wf_alloc.
  - unfold up. by rewrite obj_alloc.
  - rewrite length_app. simpl. lia.
  - apply wf_fresh_leaf.
  - apply NoDup_singleton.
  - simpl. rewrite length_app. simpl. lia.
  - simpl. intros x ->%list_elem_of_singleton Hx. destruct Hwf as (Hs & _).
    pose proof (ids_lt s t _ Hs Hrt Hx). lia.
  - simpl in *. exists s'. split; [done|]. split; [done|].
    rewrite Hd, Hsp. unfold dist, support. by rewrite obj_alloc, obj_fresh.
Qed.

Lemma flat_map_rev {A B} (f : A -> list B) (l : list A) :
  flat_map f (rev l) ≡ₚ flat_map f l.
Proof.
  induction l as [|a l IH]; [done|]. simpl.
  rewrite flat_map_app, IH. simpl. rewrite app_nil_r. apply Permutation_app_comm.
Qed.

(** X20: [swap_children] reverses the order of the subtrees under the node and
    changes nothing else; doing it twice restores the arena. *)
Theorem swap_children_reverses (s : store) (t t' : tree) (n : node) (ks : list tree) :
  wf s t -> replaced (T n ks) (T n (rev ks)) t t' ->
  exists s',
    swap_children n s = (s', Ok tt) /\ wf s' t' /\
    (swap_children n ;; swap_children n) s = (s, Ok tt).
Proof.
  intros Hwf Hr. pose proof (replaced_subtree _ _ _ _ Hr) as Hsub.
  destruct (subtree_wf s _ _ Hsub Hwf) as (Hsu & Hndu & _).
  inversion Hsu as [? ? Hch Hups Hshs]; subst. rewrite Forall_forall in Hups, Hshs.
  set (s' := if bool_decide (1 < length (children s n))
             then set_children n (rev (children s n)) s else s).
  assert (Hrun : swap_children n s = (s', Ok tt)).
  { unfold swap_children, s', bind, read. by case_bool_decide. }
  assert (Hchn : children s' n = rev (children s n)).
  { unfold s'. case_bool_decide as Hlen.
    - autorewrite with arena. rewrite decide_True; [done|].
      split; [done|]. apply children_nonempty_lt. intros He. rewrite He in Hlen.
      simpl in Hlen. lia.
    - destruct (children s n) as [|a [|b l]]; simpl in *; try done. lia. }
  assert (Hch' : forall x, x <> n -> children s' x = children s x).
  { intros x Hx. unfold s'. case_bool_decide; [|done]. autorewrite with arena.
    by rewrite decide_False by (intros [? _]; congruence). }
  assert (Hup' : forall x, up s' x = up s x).
  { intros x. unfold s'. case_bool_decide; [|done]. by autorewrite with arena. }
  assert (Hids : forall x, x ∈ ids (T n (rev ks)) <-> x ∈ ids (T n ks)).
  { intros x. simpl. by rewrite flat_map_rev. }
  exists s'. split; [done|]. split.
  - eapply (wf_replaced s s'); [done|done|done| | | | | |].
    + constructor; [by rewrite Hchn, Hch, map_rev|..].
      * rewrite Forall_forall. intros k Hk. apply (proj1 (elem_of_rev _ _)) in Hk. rewrite Hup'. by apply Hups.
      * rewrite Forall_forall. intros k Hk. apply (proj1 (elem_of_rev _ _)) in Hk.
        apply (shape_frame s); [by apply Hshs|..]; [|by intros; apply Hup'].
        intros x Hx. apply Hch'. intros ->. simpl in Hndu.
        apply NoDup_cons in Hndu as [Hn _]. apply Hn. by eapply ids_kid.
    + simpl. rewrite flat_map_rev. done.
    + intros x Hx. left. by apply Hids.
    + intros x Hx Hxu. split; [|apply Hup']. apply Hch'. intros ->. apply Hxu. simpl. by left.
    + apply Hup'.
    + intros x Hx. destruct Hwf as (_ & _ & Hroot). apply Hroot.
      eapply subtree_ids; [done|]. by apply Hids.
  - unfold bind. rewrite Hrun. unfold swap_children, bind, read. rewrite Hchn, length_rev.
    unfold s'. case_bool_decide as Hlen; [|done]. unfold write. f_equal.
    rewrite rev_involutive. apply store_ext; [by autorewrite with arena|].
    intros x Hx. unfold set_children. rewrite !obj_alter.
    rewrite length_alter. case_decide as Hd; [|done]. destruct Hd as [-> _].
    apply obj_fields_eq; done.
Qed.

(** ** Rerooting *)

Lemma bind_read {A B} (f : store -> A) (k : A -> M B) (s : store) :
  bind (read f) k s = k (f s) s.
Proof. reflexivity. Qed.

Lemma bind_write {B} (f : store -> store) (k : unit -> M B) (s : store) :
  bind (write f) k s = k tt (f s).
Proof. reflexivity. Qed.

Lemma bind_ret {A B} (a : A) (k : A -> M B) (s : store) : bind (ret a) k s = k a s.
Proof. reflexivity. Qed.

Ltac step := first [rewrite bind_read | rewrite bind_write | rewrite bind_ret]; cbv beta.

Lemma subtree_root_climb (s : store) (self x : node) (k : tree) (l : list tree) :
  path x k l -> shape s k ->
  (forall c, c ∈ l -> up s (root c) <> Some self) ->
  forall f, subtree_root (length l + f) s self (Some x) = subtree_root f s self (up s (root k)).
Proof.
  induction 1 as [ks|n ks k l Hk Hp IH]; intros Hs Hno f.
  - simpl. rewrite decide_False; [done|]. apply (Hno (T x ks)). by left.
  - destruct (shape_kids s n ks k Hs Hk) as [Hsk Hup].
    rewrite length_app. simpl. replace (length l + 1 + f) with (length l + S f) by lia.
    rewrite IH; [|done|].
    + rewrite Hup. simpl. rewrite decide_False; [done|].
      apply (Hno (T n ks)). apply elem_of_app. right. by left.
    + intros c Hc. apply Hno. apply elem_of_app. by left.
Qed.

(** X23: [set_outgroup] with a node that is not below [self] raises
    AttributeError before it changes anything: the climb from the outgroup
    runs past the root. *)
Theorem set_outgroup_not_below (fuel : nat) (s : store) (t : tree) (self o : node) :
  shape s t -> up s (root t) = None -> o ∈ ids t ->
  self <> o -> ~ climbs s o self -> size t <= fuel ->
  set_outgroup fuel self (ByNode o) s = (s, Raise AttributeError).
Proof.
  intros Hs Hup Ho Hne Hcl Hf. destruct (path_exists o t Ho) as [l Hl].
  pose proof (path_length o t l Hl) as Hlen.
  assert (Hsr : subtree_root fuel s self (Some o) = Raise AttributeError).
  { replace fuel with (length l + (fuel - length l)) by lia.
    rewrite (subtree_root_climb s self o t l Hl Hs).
    - rewrite Hup. by destruct (fuel - length l).
    - intros c Hc Hupc. apply Hcl.
      destruct (path_climbs s o t l Hl Hs c Hc) as [<-|Hc'].
      + by apply climbs_one.
      + eapply climbs_trans; [done|]. by apply climbs_one. }
  unfold set_outgroup. rewrite (bind_lift_ok _ _ s (Single o)) by done.
  rewrite decide_False by done. step.
  unfold bind, lift. by rewrite Hsr.
Qed.

Lemma subtree_root_finds (fuel : nat) (s : store) (self x : node) (u : tree) (l : list tree) :
  path x u l -> shape s u -> up s (root u) = Some self -> self ∉ ids u ->
  length l <= fuel ->
  subtree_root fuel s self (Some x) = Ok (root u).
Proof.
  intros Hp Hs Hup Hself Hf. inversion Hp as [ks|n ks k l0 Hk Hp0]; subst.
  - destruct fuel; simpl in *; by rewrite decide_True.
  - destruct (shape_kids s n ks k Hs Hk) as [Hsk Hupk].
    rewrite length_app in Hf. simpl in Hf.
    replace fuel with (length l0 + (fuel - length l0)) by lia.
    rewrite (subtree_root_climb s self x k l0 Hp0 Hsk).
    + rewrite Hupk. destruct (fuel - length l0); simpl in *; by rewrite decide_True.
    + intros c Hc Hupc. destruct (path_subtree x k l0 Hp0 c Hc) as [Hsub _].
      destruct (below_has_parent s (T n ks) (root c)) as (q & Hq & Hin); [done| |].
      * simpl. eapply ids_kid; [done|]. eapply subtree_ids; [done|apply root_in_ids].
      * apply Hself. congruence.
Qed.


(** ** Ultrametric conversion, on any floats *)

Lemma ultrametric_visit_runs (s0 s : store) (strategy : string) (tree_length step : F)
    (md : gmap nat nat) (m : gmap nat F) (x p : node) (a : F) :
  strategy = "balanced"%string \/ strategy = "fixed"%string ->
  up s x = Some p -> m !! p = Some a -> good s0 md x ->
  exists v w,
    ultrametric_visit strategy tree_length step md m x s
    = (set_dist x v s, Ok (<[x := w]> m)).
Proof.
  intros [-> | ->] Hup Hp (d & Hd & _).
  - eexists _, _. unfold ultrametric_visit. rewrite decide_True by done.
    unfold bind, lift, read, write, ret. rewrite Hup. simpl. rewrite Hp. simpl.
    rewrite Hd. simpl. done.
  - exists (if is_leaf s x then fsub tree_length (fmul a step) else step).
    eexists. unfold ultrametric_visit.
    rewrite decide_False by done. rewrite decide_True by done.
    unfold bind, lift, read, write, ret.
    destruct (is_leaf s x).
    + rewrite Hup. simpl. rewrite Hp. simpl. rewrite up_set_dist, Hup. simpl.
      by rewrite Hp.
    + rewrite up_set_dist, Hup. simpl. by rewrite Hp.
Qed.

(** whatever one turn of the second loop does, it writes at most the dist of
    the node it visits *)
Lemma ultrametric_visit_writes (s s1 : store) (strategy : string) (tree_length step : F)
    (md : gmap nat nat) (m : gmap nat F) (x : node) (r : res (gmap nat F)) :
  ultrametric_visit strategy tree_length step md m x s = (s1, r) ->
  s1 = s \/ exists v, s1 = set_dist x v s.
Proof.
  unfold ultrametric_visit, bind, lift, read, write, ret.
  repeat case_decide.
  - destruct (or_raise KeyError (up s x ≫= _)); simpl; [|by intros [= <- _]; left..].
    destruct (or_raise KeyError (md !! x)); simpl; intros [= <- _]; eauto.
  - destruct (is_leaf s x).
    + destruct (or_raise KeyError (up s x ≫= _)); simpl; [|by intros [= <- _]; left..].
      destruct (or_raise KeyError (up (set_dist _ _ _) x ≫= _)); simpl; intros [= <- _]; eauto.
    + destruct (or_raise KeyError (up (set_dist _ _ _) x ≫= _)); simpl; intros [= <- _]; eauto.
  - intros [= <- _]. by left.
Qed.

Lemma ultrametric_fold_writes (strategy : string) (tree_length step : F)
    (md : gmap nat nat) (l : list node) :
  forall m s s' r,
    fold_M (ultrametric_visit strategy tree_length step md) m l s = (s', r) ->
    forall z, children s' z = children s z /\ up s' z = up s z /\
              support s' z = support s z /\ name_of s' z = name_of s z /\
              (z ∉ l -> dist s' z = dist s z).
Proof.
  induction l as [|x l IH]; intros m s s' r H z.
  - injection H as <- _. done.
  - simpl in H. unfold bind in H.
    destruct (ultrametric_visit strategy tree_length step md m x s) as [s1 r1] eqn:Hv.
    assert (H1 : children s1 z = children s z /\ up s1 z = up s z /\
                 support s1 z = support s z /\ name_of s1 z = name_of s z /\
                 (z <> x -> dist s1 z = dist s z)).
    { destruct (ultrametric_visit_writes _ _ _ _ _ _ _ _ _ Hv) as [->|[v ->]]; [done|].
      autorewrite with arena. repeat split; try done.
      intros Hz. by rewrite decide_False by (intros [? _]; congruence). }
    destruct r1 as [m1| |].
    + destruct (IH m1 s1 s' r H z) as (-> & -> & -> & -> & Hd).
      destruct H1 as (-> & -> & -> & -> & Hd1). repeat split; try done.
      intros [Hzx Hzl]%not_elem_of_cons. rewrite Hd, Hd1; done.
    + injection H as <- _. destruct H1 as (-> & -> & -> & -> & Hd1). repeat split; try done.
      intros [Hzx Hzl]%not_elem_of_cons. by apply Hd1.
    + injection H as <- _. destruct H1 as (-> & -> & -> & -> & Hd1). repeat split; try done.
      intros [Hzx Hzl]%not_elem_of_cons. by apply Hd1.
Qed.

Lemma fold_M_skip {A B} (f : A -> B -> M A) (l : list B) (a : A) (s : store) :
  (forall a x, f a x = ret a) -> fold_M f a l s = (s, Ok a).
Proof.
  intros Hf. induction l as [|x l IH]; [done|]. simpl. rewrite Hf.
  unfold bind, ret. apply IH.
Qed.

(** X29: [convert_to_ultrametric] returns on every tree, with any tree length and
    on any floats, and writes nothing but the dists of the nodes below the
    root: children, parents, supports and names stay, and so do the dist of
    the root and every node outside the tree.  A strategy other than
    "balanced" and "fixed" is accepted silently and leaves the arena as it
    was. *)
Theorem convert_to_ultrametric_keeps_topology (fuel : nat) (s : store) (t : tree)
    (tree_length : F) (strategy : string) :
  wf s t -> 2 * size t <= fuel ->
  exists s',
    convert_to_ultrametric fuel (root t) tree_length strategy s = (s', Ok tt) /\
    (forall z, children s' z = children s z /\ up s' z = up s z /\
               support s' z = support s z /\ name_of s' z = name_of s z) /\
    dist s' (root t) = dist s (root t) /\
    (forall z, z ∉ ids t -> dist s' z = dist s z) /\
    (strategy <> "balanced"%string -> strategy <> "fixed"%string -> s' = s).
Proof.
  intros Hwf Hfuel. pose proof Hwf as (Hsh & Hnd & Hup).
  pose proof (steps_size t) as Hsteps.
  destruct (max_depth_fold s t Hsh ∅) as (md & Hmd & _ & Hgood).
  destruct (Hgood (root t) (root_in_ids t)) as (m & Hm & _).
  destruct (get_descendants_tree s t fuel Hsh Hnd) as (l & Hl & Hperm & Hpf); [lia|].
  assert (Hids : ids t = root t :: flat_map ids (kids t)) by (by destruct t).
  rewrite Hids in Hnd. apply NoDup_cons in Hnd as [Hrl Hndl].
  rewrite <- Hperm in Hrl, Hndl.
  set (step := fdiv tree_length (of_nat m)).
  assert (Hloop : exists s' m',
    fold_M (ultrametric_visit strategy tree_length step md) {[ root t := f0 ]} l s
    = (s', Ok m') /\
    (strategy <> "balanced"%string -> strategy <> "fixed"%string -> s' = s)).
  { destruct (decide (strategy = "balanced"%string \/ strategy = "fixed"%string)) as [Hst|Hst].
    - destruct (ultrametric_loop s (root t) strategy tree_length step md
                  (fun _ _ _ _ => True)) with (l := l) (seen := [root t]) (s := s)
                  (m := ({[ root t := f0 ]} : gmap nat F))
        as (s' & m' & Hrun & _); try done.
      + intros s1 m1 x p a Hupx _ Hp _ _ Hg _.
        destruct (ultrametric_visit_runs s s1 strategy tree_length step md m1 x p a)
          as (v & w & Hv); try done.
        by exists v, w.
      + intros x Hx. split.
        * intros ->%list_elem_of_singleton. done.
        * apply Hgood. rewrite Hids. right. by rewrite <- Hperm.
      + repeat split.
        * left.
        * by rewrite lookup_singleton_eq.
        * intros x ->%list_elem_of_singleton. rewrite lookup_singleton_eq. by eexists.
        * intros x ->%list_elem_of_singleton Hne. done.
      + exists s', m'. split; [done|]. intros H1 H2. destruct Hst; done.
    - exists s, {[ root t := f0 ]}. split; [|done].
      apply fold_M_skip. intros a x. unfold ultrametric_visit.
      by rewrite !decide_False by tauto. }
  destruct Hloop as (s' & m' & Hrun & Hsame).
  pose proof (ultrametric_fold_writes _ _ _ _ _ _ _ _ _ Hrun) as Hw.
  exists s'. split; [|split; [|split; [|split; [|done]]]].
  - unfold convert_to_ultrametric.
    rewrite (bind_lift_ok _ _ s (post t)).
    2:{ unfold traverse. rewrite decide_False by done. rewrite decide_False by done.
        rewrite decide_True by done. simpl. apply postorder_tree; [done|lia]. }
    rewrite (bind_lift_ok _ _ s md Hmd).
    rewrite (bind_lift_ok _ _ s m) by (by rewrite Hm).
    rewrite (bind_lift_ok _ _ s l Hl).
    by erewrite bind_ok by exact Hrun.
  - intros z. destruct (Hw z) as (-> & -> & -> & -> & _). done.
  - by apply Hw.
  - intros z Hz. apply Hw. intros Hzl. apply Hz. rewrite Hids. right. by rewrite <- Hperm.
Qed.

(** ** Ancestors and distances along a lineage *)

Lemma get_common_ancestor_of_descendant_run (fuel : nat) (s : store) (t u : tree)
    (self b : node) :
  wf s t -> up s (root t) = None -> subtree u t -> b ∈ ids u -> size t <= fuel ->
  get_common_ancestor fuel s self [ByNode (root u); ByNode b] = Ok (Some (root u)) /\
  get_common_ancestor fuel s self [ByNode b; ByNode (root u)] = Ok (Some (root u)).
Proof.
  intros Hwf Hup Hsub Hb Hf. pose proof Hwf as (_ & Hnd & _).
  assert (Hru : root u ∈ ids t) by (eapply subtree_ids; [done|apply root_in_ids]).
  assert (Hbt : b ∈ ids t) by by eapply subtree_ids.
  assert (Huniq : forall v, subtree v t -> root u ∈ ids v -> subtree v u -> v = u).
  { intros v Hv Hin Hvu. destruct u as [n ks]. eapply subtree_with_root; [|done|done].
    by eapply subtree_NoDup. }
  split.
  - destruct (get_common_ancestor_pair fuel s t self (root u) b Hwf Hup Hru Hbt Hf)
      as (v & Hv & Ha & Hbv & Hmin & ->).
    by rewrite (Huniq v Hv Ha (Hmin u Hsub (root_in_ids u) Hb)).
  - destruct (get_common_ancestor_pair fuel s t self b (root u) Hwf Hup Hbt Hru Hf)
      as (v & Hv & Hbv & Ha & Hmin & ->).
    by rewrite (Huniq v Hv Ha (Hmin u Hsub Hb (root_in_ids u))).
Qed.

(** X26: The common ancestor of a node and one of its descendants is the node
    itself, in either order of the arguments; with a single target, the
    node the method is called on takes the place of the second. *)
Theorem get_common_ancestor_of_descendant (fuel : nat) (s : store) (t u : tree)
    (self b : node) :
  wf s t -> up s (root t) = None -> subtree u t -> b ∈ ids u -> size t <= fuel ->
  get_common_ancestor fuel s self [ByNode (root u); ByNode b] = Ok (Some (root u)) /\
  get_common_ancestor fuel s self [ByNode b; ByNode (root u)] = Ok (Some (root u)) /\
  get_common_ancestor fuel s (root u) [ByNode b] = Ok (Some (root u)).
Proof.
  intros Hwf Hup Hsub Hb Hf.
  destruct (get_common_ancestor_of_descendant_run fuel s t u self b Hwf Hup Hsub Hb Hf)
    as (H1 & H2).
  destruct (get_common_ancestor_of_descendant_run fuel s t u (root u) b Hwf Hup Hsub Hb Hf)
    as (_ & H3).
  split; [done|]. split; [done|]. rewrite <- H3. reflexivity.
Qed.

Lemma foldl_count {A} (l : list A) (d : F) :
  foldl (fun d _ => fadd d (of_nat 1)) d l = Nat.iter (length l) (fun d => fadd d (of_nat 1)) d.
Proof.
  revert d. induction l as [|x l IH]; intros d; [done|]. simpl. rewrite IH.
  clear IH. induction (length l) as [|k IHk]; [done|]. simpl. by rewrite IHk.
Qed.

Lemma foldl_leg_step_topo (s : store) (target : node) (l : list node) (d : F) :
  target ∉ l ->
  foldl (leg_step s true target) d l = foldl (fun d _ => fadd d (of_nat 1)) d l.
Proof.
  revert d. induction l as [|x l IH]; intros d Hl; [done|].
  apply not_elem_of_cons in Hl as [Hne Hl]. simpl. rewrite <- IH by done.
  unfold leg_step at 2. by rewrite decide_True by congruence.
Qed.

(** X27: [get_distance] between a node and one of its descendants: by branch
    length it is the sum of the dists on the way up, whichever node is given
    first; in topology-only mode it is the number of branches when the
    ancestor is given first, and one less when the descendant is. *)
Theorem get_distance_lineage (fuel : nat) (s : store) (t u : tree) (r b : node)
    (l : list tree) :
  wf s t -> up s (root t) = None -> subtree u t -> path b u l -> size t <= fuel ->
  get_distance fuel s r (ByNode (root u)) (Some (ByNode b)) false
    = Ok (foldl (fun d x => fadd d (dist s x)) f0 (map root (removelast l))) /\
  get_distance fuel s r (ByNode b) (Some (ByNode (root u))) false
    = Ok (foldl (fun d x => fadd d (dist s x)) f0 (map root (removelast l))) /\
  get_distance fuel s r (ByNode (root u)) (Some (ByNode b)) true
    = Ok (count_up (length l - 1)) /\
  get_distance fuel s r (ByNode b) (Some (ByNode (root u))) true
    = Ok (count_up (length l - 2)).
Proof.
  intros Hwf Hup Hsub Hl Hf. pose proof Hwf as (_ & Hnd & _).
  assert (Hb : b ∈ ids u) by by eapply path_in.
  destruct (get_common_ancestor_of_descendant_run fuel s t u r b Hwf Hup Hsub Hb Hf)
    as (Hg1 & Hg2).
  assert (Hself : path (root u) u [u]) by (destruct u; constructor).
  pose proof (get_distance_legs fuel s t u r (root u) b) as Hab.
  pose proof (get_distance_legs fuel s t u r b (root u)) as Hba.
  assert (Hndr : NoDup (map root l)).
  { eapply path_roots_NoDup; [done|]. by eapply subtree_NoDup. }
  destruct (path_head b u l Hl) as (c0 & l' & -> & Hc0).
  assert (Hlast : exists l0, c0 :: l' = l0 ++ [u]).
  { inversion Hl; subst; [by exists []|]. by eexists. }
  destruct Hlast as [l0 Hl0]. rewrite Hl0 in *.
  rewrite removelast_last in *. rewrite length_app. simpl.
  rewrite map_app in Hndr. simpl in Hndr.
  apply NoDup_app in Hndr as (Hnd0 & Hdis0 & _).
  assert (Hu0 : root u ∉ map root l0).
  { intros H. apply (Hdis0 _ H). by left. }
  repeat split.
  - rewrite (Hab false [u] (l0 ++ [u])) by done. by rewrite removelast_last.
  - rewrite (Hba false (l0 ++ [u]) [u]) by done. by rewrite removelast_last.
  - rewrite (Hab true [u] (l0 ++ [u])) by done. rewrite removelast_last. simpl.
    rewrite foldl_leg_step_topo by done. rewrite foldl_count, length_map.
    unfold count_up. f_equal. f_equal. lia.
  - rewrite (Hba true (l0 ++ [u]) [u]) by done. rewrite removelast_last. simpl.
    destruct l0 as [|c1 l1].
    + done.
    + simpl in Hl0. injection Hl0 as <- _. simpl.
      rewrite decide_False by (intros H; by apply H).
      simpl in Hnd0. apply NoDup_cons in Hnd0 as [Hc Hnd0].
      rewrite Hc0 in Hc. rewrite foldl_leg_step_topo by done.
      rewrite foldl_count, length_map. unfold count_up. f_equal. f_equal. lia.
Qed.


(** X17: Unlinking never closes a cycle: [remove_child] and [detach] keep the
    parent links acyclic, whatever their arguments. *)
Theorem unlink_keeps_acyclic (s : store) (p c : node) :
  acyclic s ->
  acyclic (remove_child p c s).1 /\ acyclic (detach c s).1.
Proof. intros Hs. split; [by apply remove_child_acyclic|by apply detach_acyclic]. Qed.

(** ** Rerooting below the children of the root *)

Lemma list_remove_filter (x : node) (l : list node) :
  NoDup l -> x ∈ l -> list_remove x l = Some (filter (fun y => y <> x) l).
Proof.
  induction l as [|y l IH]; intros Hnd Hx; [by apply elem_of_nil in Hx|].
  apply NoDup_cons in Hnd as [Hy Hnd]. simpl. rewrite filter_cons.
  destruct (decide (x = y)) as [->|Hne].
  - rewrite decide_False by (intros H; by apply H). f_equal.
    symmetry. by apply filter_ne_notin.
  - rewrite decide_True by congruence.
    apply elem_of_cons in Hx as [?|Hx]; [done|]. by rewrite IH.
Qed.

Lemma obj_alter_ne (f : TreeNode -> TreeNode) (n x : node) (s : store) :
  n <> x -> obj (alter f n s) x = obj s x.
Proof. intros H. rewrite obj_alter. by rewrite decide_False by (intros [? _]; congruence). Qed.

Lemma attached_frame (s σ σ1 σ' : store) (a : node) (bd bs : F) (R : list node) (conn : node) :
  (forall x, x ∈ R ++ [conn] -> obj σ1 x = obj σ x) ->
  attached s σ1 σ' a bd bs R conn -> attached s σ σ' a bd bs R conn.
Proof.
  revert a bd bs. induction R as [|b R IH]; intros a bd bs Hf H; simpl in *.
  - assert (Hc : obj σ1 conn = obj σ conn) by (apply Hf; by left).
    unfold dist, children, support, name_of in *. by rewrite <- Hc.
  - destruct H as (? & ? & ? & ? & ? & H). repeat split; try done.
    apply IH; [|done]. intros x Hx. apply Hf. by right.
Qed.

Lemma swap_loop_attach {B} (s : store) (r conn : node) (K : M B) (R : list node) :
  forall a σ fue bd bs f,
    NoDup (a :: R ++ [conn]) -> r ∉ a :: R ->
    (forall x, x ∈ a :: R ++ [conn] -> x < length σ) ->
    chain_up s a R r ->
    up σ a = up s a ->
    (forall x, x ∈ R -> obj σ x = obj s x) ->
    exists σ',
      bind (swap_loop (length R + f) r a (up σ a) fue bd bs) (attach conn K) σ = K σ' /\
      length σ' = length σ /\
      (forall x, x ∉ a :: R ++ [conn] -> obj σ' x = obj σ x) /\
      children σ' a = children σ a ++ [hd conn R] /\ up σ' a = fue /\
      dist σ' a = dist σ a /\ support σ' a = support σ a /\ name_of σ' a = name_of σ a /\
      attached s σ σ' a bd bs R conn.
Proof.
  induction R as [|b R IH]; intros a σ fue bd bs f Hnd Hr Hlt Hchain Hupa Hagree.
  - simpl in *. rewrite Hupa, Hchain.
    assert (Ha : a < length σ) by (apply Hlt; by left).
    assert (Hc : conn < length σ) by (apply Hlt; right; by left).
    assert (Hac : a <> conn).
    { apply NoDup_cons in Hnd as [Hn _]. intros ->. apply Hn. by left. }
    eexists. split.
    { unfold bind at 1. destruct f; simpl; rewrite decide_True by done;
        unfold ret, attach, children_append; repeat step; reflexivity. }
    autorewrite with arena.
    split; [done|]. split.
    { intros x Hx. unfold set_dist, set_up, set_children. rewrite !obj_alter_ne; [done|..];
        intros ->; apply Hx; (by left) || (right; by left). }
    repeat (first [rewrite decide_True by first [done | split; [done|lia]]
                  |rewrite decide_False by (intros [? _]; congruence)]).
    done.
  - simpl in Hchain. destruct Hchain as (Hupab & Hab & Hndb & Hchain).
    assert (Ha : a < length σ) by (apply Hlt; by left).
    assert (Hb : b < length σ) by (apply Hlt; right; by left).
    assert (Hneab : a <> b).
    { apply NoDup_cons in Hnd as [Hn _]. intros ->. apply Hn. by left. }
    assert (Hbr : b <> r).
    { intros ->. apply Hr. right. by left. }
    assert (Hob : obj σ b = obj s b) by (apply Hagree; by left).
    assert (Hchb : children σ b = children s b) by (unfold children; by rewrite Hob).
    set (σ1 := set_children a (children σ a ++ [b]) σ).
    set (σ2 := set_children b (filter (fun y => y <> a) (children s b)) σ1).
    set (σ5 := set_up a fue (set_support b bs (set_dist b bd σ2))).
    assert (Hstep :
      swap_loop (length (b :: R) + f) r a (up σ a) fue bd bs σ
      = swap_loop (length R + f) r b (up σ5 b) (Some a) (dist s b) (support s b) σ5).
    { rewrite Hupa, Hupab. simpl.
      rewrite decide_False by congruence.
      unfold children_append. step. fold σ1.
      rewrite (bind_ok _ _ σ1 σ2 tt).
      2:{ unfold children_remove, σ1. autorewrite with arena.
          rewrite decide_False by (intros [? _]; congruence).
          rewrite Hchb. by rewrite (list_remove_filter a (children s b)). }
      repeat step.
      assert (Hd : dist σ2 b = dist s b).
      { unfold σ2, σ1. autorewrite with arena. unfold dist. by rewrite Hob. }
      assert (Hsp : support σ2 b = support s b).
      { unfold σ2, σ1. autorewrite with arena. unfold support. by rewrite Hob. }
      rewrite Hd, Hsp. fold σ5. done. }
    unfold bind at 1. rewrite Hstep.
    change (match swap_loop (length R + f) r b (up σ5 b) (Some a) (dist s b) (support s b) σ5 with
            | (s', Ok a0) => attach conn K a0 s'
            | (s', Raise e) => (s', Raise e)
            | (s', OutOfFuel) => (s', OutOfFuel)
            end)
      with (bind (swap_loop (length R + f) r b (up σ5 b) (Some a) (dist s b) (support s b))
              (attach conn K) σ5).
    assert (Hl5 : length σ5 = length σ) by (unfold σ5, σ2, σ1; by autorewrite with arena).
    assert (Hup5 : forall x, x <> a -> up σ5 x = up σ x).
    { intros x Hx. unfold σ5, σ2, σ1. autorewrite with arena.
      by rewrite decide_False by (intros [? _]; congruence). }
    assert (Hobj5 : forall x, x <> a -> x <> b -> obj σ5 x = obj σ x).
    { intros x Hxa Hxb. unfold σ5, σ2, σ1, set_up, set_support, set_dist, set_children.
      by rewrite !obj_alter_ne by congruence. }
    apply NoDup_cons in Hnd as [Hna Hnd].
    destruct (IH b σ5 (Some a) (dist s b) (support s b) f) as
      (σ' & Hrun & Hl' & Hframe & Hchb' & Hupb' & Hdb' & Hsb' & Hnb' & Hatt).
    { done. }
    { intros H. apply Hr. by right. }
    { intros x Hx. rewrite Hl5. apply Hlt. by right. }
    { done. }
    { rewrite Hup5 by congruence. unfold up. by rewrite Hob. }
    { intros x Hx. rewrite Hobj5.
      - apply Hagree. by right.
      - intros ->. apply Hna. simpl. right. apply elem_of_app. by left.
      - intros ->. simpl in Hnd. apply NoDup_cons in Hnd as [Hn _]. apply Hn.
        apply elem_of_app. by left. }
    exists σ'. split; [done|]. split; [congruence|].
    assert (Hfa : obj σ' a = obj σ5 a).
    { apply Hframe. intros H. by apply Hna. }
    split.
    { intros x Hx. rewrite Hframe.
      - apply Hobj5; intros ->; apply Hx; [by left|right; by left].
      - intros H. apply Hx. by right. }
    assert (Hσ5 : children σ5 a = children σ a ++ [b] /\ up σ5 a = fue /\
                  dist σ5 a = dist σ a /\ support σ5 a = support σ a /\
                  name_of σ5 a = name_of σ a /\
                  children σ5 b = filter (fun y => y <> a) (children s b) /\
                  dist σ5 b = bd /\ support σ5 b = bs).
    { unfold σ5, σ2, σ1. autorewrite with arena.
      repeat (first [rewrite decide_True by first [done | split; [done|lia]]
                    |rewrite decide_False by (intros [? _]; congruence)]).
      done. }
    destruct Hσ5 as (Hc5 & Hu5 & Hd5 & Hs5 & Hn5 & Hcb5 & Hdb5 & Hsb5).
    unfold children, up, dist, support, name_of. rewrite Hfa.
    fold (children σ5 a) (up σ5 a) (dist σ5 a) (support σ5 a) (name_of σ5 a).
    fold (children σ a) (dist σ a) (support σ a) (name_of σ a).
    split; [done|]. split; [done|]. split; [done|]. split; [done|]. split; [done|].
    simpl. fold (children σ' b) (up σ' b) (dist σ' b) (support σ' b) (children s b)
      (name_of σ' b) (name_of s b).
    split; [by rewrite Hchb', Hcb5|]. split; [done|].
    split; [by rewrite Hdb'|]. split; [by rewrite Hsb'|].
    split.
    { rewrite Hnb'. unfold σ5, σ2, σ1. autorewrite with arena. unfold name_of. by rewrite Hob. }
    apply (attached_frame s σ σ5); [|done].
    intros x Hx. apply Hobj5.
    + intros ->. apply Hna. by right.
    + intros ->. simpl in Hnd. by apply NoDup_cons in Hnd as [Hn _].
Qed.

Lemma set_outgroup_parts (fuel : nat) (self o : node) (s : store) :
  set_outgroup fuel self (ByNode o) s =
  (if decide (self = o) then raise ValueError else
   let! parent_outgroup := read (fun s => up s o) in
   let! n := lift (fun s => subtree_root fuel s self (Some o)) in
   children_remove self n ;;
   let! rest := read (fun s => children s self) in
   let! down_branch_connector := outgroup_connector self n rest in
   let! outgroup2 := outgroup_swap fuel self o parent_outgroup down_branch_connector in
   outgroup_finish self o outgroup2) s.
Proof. reflexivity. Qed.

Ltac decides :=
  repeat (first [rewrite decide_True by first [done | split; [done|lia]]
                |rewrite decide_False by (intros [? _]; congruence)]).

(** the loop that moves the other children of [r] under the new connector *)
Lemma connector_loop (r c : node) (todo : list node) :
  forall σ,
    children σ r = todo -> c <> r -> r < length σ -> c < length σ ->
    (forall ch, ch ∈ todo -> ch < length σ) ->
    exists σ',
      for_each todo (fun ch =>
        children_append c ch ;; write (set_up ch (Some c)) ;; children_remove r ch) σ
      = (σ', Ok tt) /\
      length σ' = length σ /\
      children σ' r = [] /\ children σ' c = children σ c ++ todo /\
      (forall ch, ch ∈ todo -> up σ' ch = Some c) /\
      (forall x, x ∉ todo -> up σ' x = up σ x) /\
      (forall x, x <> r -> x <> c -> children σ' x = children σ x) /\
      (forall x, dist σ' x = dist σ x /\ support σ' x = support σ x /\
                 name_of σ' x = name_of σ x).
Proof.
  induction todo as [|ch todo IH]; intros σ Hch Hcr Hr Hc Hlt.
  - exists σ. simpl. rewrite app_nil_r. repeat split; try done.
    intros ch Hin. by apply elem_of_nil in Hin.
  - set (σb := set_up ch (Some c) (set_children c (children σ c ++ [ch]) σ)).
    set (σc := set_children r todo σb).
    assert (Hchr : children σb r = ch :: todo).
    { unfold σb. autorewrite with arena. by decides. }
    assert (Hlc : length σc = length σ) by (unfold σc, σb; by autorewrite with arena).
    destruct (IH σc) as (σ' & Hrun & Hl & Hr' & Hc' & Hup & Hupo & Hcho & Hnum).
    { unfold σc, σb. autorewrite with arena. by decides. }
    { done. } { by rewrite Hlc. } { by rewrite Hlc. }
    { intros x Hx. rewrite Hlc. apply Hlt. by right. }
    assert (Hchlt : ch < length σ) by (apply Hlt; by left).
    exists σ'. split.
    { simpl. unfold children_append. unfold bind at 1.
      repeat step. fold σb.
      assert (Hrm : children_remove r ch σb = (σc, Ok tt)).
      { unfold children_remove. rewrite Hchr. simpl. by rewrite decide_True. }
      rewrite Hrm. exact Hrun. }
    split; [congruence|]. split; [done|]. split.
    { rewrite Hc'. unfold σc, σb. autorewrite with arena. decides.
      by rewrite <- app_assoc. }
    split.
    { intros x [->|Hx]%elem_of_cons; [|by apply Hup].
      destruct (decide (ch ∈ todo)) as [Hin|Hin]; [by apply Hup|].
      rewrite Hupo by done. unfold σc, σb. autorewrite with arena. by decides. }
    split.
    { intros x [Hne Hx]%not_elem_of_cons. rewrite Hupo by done.
      unfold σc, σb. autorewrite with arena. by decides. }
    split.
    { intros x Hxr Hxc. rewrite Hcho by done.
      unfold σc, σb. autorewrite with arena. by decides. }
    intros x. destruct (Hnum x) as (-> & -> & ->).
    unfold σc, σb. by autorewrite with arena.
Qed.

Lemma connector_new_run (r n : node) (rest : list node) (s : store) :
  1 < length rest -> children s r = rest -> r < length s ->
  (forall ch, ch ∈ rest -> ch < length s) ->
  exists s1,
    outgroup_connector r n rest s = (s1, Ok (length s)) /\
    length s1 = S (length s) /\
    children s1 r = [] /\ children s1 (length s) = rest /\
    (forall ch, ch ∈ rest -> up s1 ch = Some (length s)) /\
    (forall x, x ∉ rest -> up s1 x = up s x) /\
    (forall x, x <> r -> x <> length s -> children s1 x = children s x) /\
    dist s1 (length s) = f0 /\ support s1 (length s) = support s n /\
    (forall x, x <> length s ->
       dist s1 x = dist s x /\ support s1 x = support s x /\ name_of s1 x = name_of s x).
Proof.
  intros Hlen Hch Hr Hlt.
  set (c := length s).
  set (σ0 := set_support c (support s n) (set_dist c f0 (s ++ [new_node]))).
  assert (Hall : forall x, obj (s ++ [new_node]) x = obj s x) by apply obj_alloc.
  assert (Hl0 : length σ0 = S (length s)).
  { unfold σ0. autorewrite with arena. rewrite length_app. simpl. lia. }
  assert (Hf0 : forall x, children σ0 x = children s x /\ up σ0 x = up s x /\
                          name_of σ0 x = name_of s x).
  { intros x. unfold σ0. autorewrite with arena. unfold children, up, name_of.
    by rewrite Hall. }
  assert (Hd0 : forall x, x <> c -> dist σ0 x = dist s x /\ support σ0 x = support s x).
  { intros x Hx. unfold σ0. autorewrite with arena. decides.
    unfold dist, support. by rewrite Hall. }
  assert (Hc0 : dist σ0 c = f0 /\ support σ0 c = support s n).
  { unfold σ0. autorewrite with arena. rewrite length_app. simpl.
    unfold c. by decides. }
  destruct (connector_loop r c rest σ0) as (s1 & Hrun & Hl & Hr' & Hc' & Hup & Hupo & Hcho & Hnum).
  { by rewrite (proj1 (Hf0 r)). } { unfold c. lia. } { lia. } { unfold c. lia. }
  { intros ch Hc. specialize (Hlt ch Hc). lia. }
  exists s1. split.
  { unfold outgroup_connector. rewrite bool_decide_eq_true_2 by done.
    unfold alloc. unfold bind at 1. fold c. repeat step.
    assert (Hsn : support (set_dist c f0 (s ++ [new_node])) n = support s n).
    { autorewrite with arena. unfold support. by rewrite Hall. }
    rewrite Hsn. fold σ0. by rewrite (bind_ok _ _ σ0 s1 tt). }
  split; [by rewrite Hl, Hl0|]. split; [done|]. split.
  { rewrite Hc'. rewrite (proj1 (Hf0 c)). unfold children. by rewrite obj_fresh. }
  split; [done|]. split.
  { intros x Hx. rewrite Hupo by done. apply Hf0. }
  split.
  { intros x Hxr Hxc. rewrite Hcho by done. apply Hf0. }
  destruct (Hnum c) as (-> & -> & _). split; [apply Hc0|]. split; [apply Hc0|].
  intros x Hx. destruct (Hnum x) as (-> & -> & ->). destruct (Hd0 x Hx) as (-> & ->).
  by rewrite (proj2 (proj2 (Hf0 x))).
Qed.

(** the last statements of [set_outgroup] *)
Lemma outgroup_finish_run (r o g : node) (s : store) :
  r <> o -> r <> g -> o <> g -> r < length s -> o < length s -> g < length s ->
  exists s',
    outgroup_finish r o g s = (s', Ok tt) /\
    length s' = length s /\
    children s' r = sort_nodes [o; g] /\
    (forall x, x <> r -> children s' x = children s x) /\
    up s' o = Some r /\ up s' g = Some r /\
    (forall x, x <> o -> x <> g -> up s' x = up s x) /\
    dist s' o = fdiv (fadd (dist s g) (dist s o)) (of_nat 2) /\
    dist s' g = fdiv (fadd (dist s g) (dist s o)) (of_nat 2) /\
    (forall x, x <> o -> x <> g -> dist s' x = dist s x) /\
    support s' g = support s o /\
    (forall x, x <> g -> support s' x = support s x) /\
    (forall x, name_of s' x = name_of s x).
Proof.
  intros Hro Hrg Hog Hr Ho Hg. unfold outgroup_finish. repeat step.
  eexists. split; [reflexivity|]. autorewrite with arena.
  repeat split; intros; autorewrite with arena; decides; done.
Qed.

(** *** The path from the outgroup, bottom up *)

Lemma chain_snoc (t0 k t : tree) (sp : list tree) :
  chain t0 sp -> last (t0 :: sp) = Some k -> k ∈ kids t -> chain t0 (sp ++ [t]).
Proof.
  revert t0. induction sp as [|t1 sp IH]; intros t0 Hc Hl Hk.
  - simpl in *. injection Hl as ->. done.
  - destruct Hc as [H0 Hc]. split; [done|]. apply IH; [done| |done].
    by rewrite last_cons_cons in Hl.
Qed.

Lemma path_chain (x : node) (t : tree) (l : list tree) :
  path x t l ->
  exists t0 sp, l = t0 :: sp /\ root t0 = x /\ chain t0 sp /\ last l = Some t.
Proof.
  induction 1 as [ks|n ks k l Hk Hp (t0 & sp & -> & Hr & Hc & Hl)].
  - by exists (T x ks), [].
  - exists t0, (sp ++ [T n ks]). split; [done|]. split; [done|]. split.
    + by eapply chain_snoc.
    + apply last_snoc.
Qed.

Lemma subtree_at (k : tree) (y : node) : y ∈ ids k -> exists v, subtree v k /\ root v = y.
Proof.
  induction k as [n ks IH] using tree_ind'. rewrite Forall_forall in IH.
  simpl. intros [->|Hy]%elem_of_cons.
  - exists (T n ks). split; [constructor|done].
  - apply elem_of_flat_map in Hy as (k & Hk & Hy).
    destruct (IH k Hk Hy) as (v & Hv & Hr). exists v. split; [|done].
    by eapply subtree_kid.
Qed.

Lemma same_root_subtree (t v c : tree) :
  NoDup (ids t) -> subtree v t -> subtree c t -> root v = root c -> v = c.
Proof.
  induction t as [n ks IH] using tree_ind'. rewrite Forall_forall in IH.
  intros Hnd Hv Hc Hr.
  assert (Htop : forall w, subtree w (T n ks) -> root w = n -> w = T n ks).
  { intros w Hw Hrw. eapply subtree_with_root; [done|done|]. rewrite <- Hrw. apply root_in_ids. }
  inversion Hv as [|? ? k Hk Hvk]; subst.
  { symmetry. apply Htop; [done|]. by rewrite <- Hr. }
  inversion Hc as [|? ? k' Hk' Hck]; subst.
  { by apply Htop. }
  simpl in Hnd. apply NoDup_cons in Hnd as [_ Hnd].
  assert (k = k') as <-.
  { eapply (kids_share ks); [done|done|done|..].
    - eapply subtree_ids; [done|apply root_in_ids].
    - rewrite Hr. eapply subtree_ids; [done|apply root_in_ids]. }
  apply (IH k Hk); try done. by eapply NoDup_kid.
Qed.

(** a subtree whose root is on the path from [x] holds [x] *)
Lemma path_root_holds (x : node) (t v : tree) (l : list tree) :
  NoDup (ids t) -> path x t l -> subtree v t -> root v ∈ map root l -> x ∈ ids v.
Proof.
  intros Hnd Hp Hv (c & Hr & Hc)%list_elem_of_fmap.
  destruct (path_subtree x t l Hp c Hc) as [Hct Hx].
  by rewrite (same_root_subtree t v c Hnd Hv Hct Hr).
Qed.

(** no node of a subtree that does not hold [x] is on the path from [x] *)
Lemma off_path (x : node) (t k : tree) (l : list tree) (y : node) :
  NoDup (ids t) -> path x t l -> subtree k t -> x ∉ ids k -> y ∈ ids k ->
  y ∉ map root l.
Proof.
  intros Hnd Hp Hk Hx Hy Hin. destruct (subtree_at k y Hy) as (v & Hv & <-).
  apply Hx. eapply subtree_ids; [done|].
  eapply path_root_holds; [done|done| |done]. by eapply subtree_trans.
Qed.

Lemma filter_other_kids (ks1 ks2 : list tree) (prev : tree) :
  NoDup (flat_map ids (ks1 ++ prev :: ks2)) ->
  filter (fun k => root k <> root prev) (ks1 ++ prev :: ks2) = ks1 ++ ks2.
Proof.
  intros Hnd.
  assert (Hother : forall k, k ∈ ks1 ++ ks2 -> root k <> root prev).
  { intros k Hk He. rewrite flat_map_middle in Hnd.
    apply NoDup_app in Hnd as (_ & Hdis & _).
    apply (Hdis (root k)); [eapply ids_kid; [done|apply root_in_ids]|].
    rewrite He. apply root_in_ids. }
  assert (Hall : forall l : list tree, (forall k, k ∈ l -> root k <> root prev) ->
            filter (fun k => root k <> root prev) l = l).
  { induction l as [|k l IHl]; intros Hl; [done|]. rewrite filter_cons.
    rewrite decide_True by (apply Hl; by left). f_equal. apply IHl.
    intros k' Hk'. apply Hl. by right. }
  rewrite filter_app, filter_cons. rewrite decide_False by (intros H; by apply H).
  rewrite !Hall; [done|..]; intros k Hk; apply Hother, elem_of_app; [by right|by left].
Qed.

Lemma kid_split_perm (t1 prev : tree) :
  prev ∈ kids t1 -> NoDup (ids t1) ->
  ids t1 ≡ₚ root t1 :: flat_map ids (filter (fun k => root k <> root prev) (kids t1))
            ++ ids prev.
Proof.
  destruct t1 as [n ks]. simpl. intros Hk [_ Hnd]%NoDup_cons.
  apply list_elem_of_split in Hk as (ks1 & ks2 & ->).
  rewrite filter_other_kids by done. by rewrite flat_map_middle.
Qed.

Lemma root_rerooted (prev : tree) (l : list tree) (ct : tree) :
  root (rerooted prev l ct) = hd (root ct) (map root l).
Proof. by destruct l. Qed.

Lemma ids_rerooted (ct : tree) (l : list tree) :
  forall prev,
    chain prev l -> Forall (fun t => NoDup (ids t)) l ->
    ids prev ++ ids (rerooted prev l ct) ≡ₚ ids (default prev (last l)) ++ ids ct.
Proof.
  induction l as [|t1 l IH]; intros prev Hc Hnd; [done|].
  destruct Hc as [Hk Hc]. apply Forall_cons in Hnd as [Hnd1 Hnd].
  change (ids (rerooted prev (t1 :: l) ct))
    with (root t1 :: flat_map ids (filter (fun k => root k <> root prev) (kids t1)
                                   ++ [rerooted t1 l ct])).
  rewrite flat_map_app. simpl flat_map. rewrite app_nil_r.
  transitivity (ids t1 ++ ids (rerooted t1 l ct)).
  - rewrite (kid_split_perm t1 prev Hk Hnd1).
    set (A := flat_map ids (filter (fun k => root k <> root prev) (kids t1))).
    set (B := ids (rerooted t1 l ct)).
    rewrite <- Permutation_middle. simpl. f_equiv.
    rewrite <- !app_assoc. rewrite (Permutation_app_comm (ids prev)).
    rewrite <- !app_assoc. f_equiv. apply Permutation_app_comm.
  - rewrite IH by done. f_equiv. destruct l as [|t2 l]; [done|].
    rewrite last_cons_cons.
    destruct (proj2 (last_is_Some (t2 :: l)) ltac:(done)) as [z Hz]. by rewrite Hz.
Qed.

Lemma map_root_filter (a : node) (ks : list tree) :
  map root (filter (fun k => root k <> a) ks) = filter (fun y => y <> a) (map root ks).
Proof.
  induction ks as [|k ks IH]; [done|]. simpl. rewrite !filter_cons.
  case_decide; simpl; by rewrite IH.
Qed.

Lemma shape_agree (s s' : store) (k : tree) :
  (forall x, x ∈ ids k -> obj s' x = obj s x) -> shape s k -> shape s' k.
Proof.
  intros H Hs. apply (shape_frame s); [done|..].
  - intros x Hx. unfold children. by rewrite H.
  - intros x Hx. unfold up. rewrite H; [done|]. destruct k. simpl in *. by right.
Qed.

Lemma roots_NoDup (ks : list tree) : NoDup (flat_map ids ks) -> NoDup (map root ks).
Proof.
  induction ks as [|k ks IH]; [constructor|]. simpl. intros Hnd.
  apply NoDup_app in Hnd as (Hk & Hdis & Hnd). apply NoDup_cons. split; [|by apply IH].
  intros H. apply (Hdis (root k)); [apply root_in_ids|]. by apply roots_in_ids.
Qed.

(** *** The connector *)

Lemma connector_phase (s : store) (r n : node) (sibs : list tree) :
  sibs <> [] ->
  Forall (fun k => shape s k /\ up s (root k) = Some r) sibs ->
  NoDup (r :: flat_map ids sibs) -> r < length s ->
  let ct := connector_tree (length s) sibs in
  let s_a := set_children r (map root sibs) s in
  exists s1,
    outgroup_connector r n (map root sibs) s_a = (s1, Ok (root ct)) /\
    shape s1 ct /\ NoDup (ids ct) /\
    (forall x, x ∈ ids ct -> x ∈ flat_map ids sibs \/ x = length s) /\
    (forall x, x <> r -> x ∉ ids ct -> obj s1 x = obj s x) /\
    up s1 r = up s r /\
    length s <= length s1 /\ root ct < length s1 /\
    dist s1 (root ct) = (match sibs with [z] => dist s (root z) | _ => f0 end) /\
    (forall x, x ∈ ids ct -> x < length s1) /\
    (forall x, x < length s ->
       dist s1 x = dist s x /\ support s1 x = support s x /\ name_of s1 x = name_of s x).
Proof.
  intros Hne Hsibs Hnd Hr ct s_a. rewrite Forall_forall in Hsibs.
  apply NoDup_cons in Hnd as [Hrs Hnd].
  assert (Hlt : forall x, x ∈ flat_map ids sibs -> x < length s).
  { intros x (k & Hk & Hx)%elem_of_flat_map. destruct (Hsibs k Hk) as [Hsk Hupk].
    eapply ids_lt; [done| |done]. by eapply up_Some_lt. }
  assert (Hcha : children s_a r = map root sibs).
  { unfold s_a. autorewrite with arena. by decides. }
  assert (Hobja : forall x, x <> r -> obj s_a x = obj s x).
  { intros x Hx. unfold s_a, set_children. by rewrite obj_alter_ne. }
  assert (Hupa : forall x, up s_a x = up s x).
  { intros x. unfold s_a. by autorewrite with arena. }
  assert (Hla : length s_a = length s) by (unfold s_a; by autorewrite with arena).
  destruct sibs as [|z [|z' sibs']]; [done|..].
  - (* one other child: it is the connector *)
    simpl in *. exists s_a. rewrite app_nil_r in *.
    destruct (Hsibs z) as [Hsz Hupz]; [by left|].
    split.
    { unfold outgroup_connector. simpl. unfold lift. by rewrite Hcha. }
    split.
    { apply (shape_agree s); [|done]. intros x Hx. apply Hobja. by intros ->. }
    split; [done|]. split; [by left|]. split; [by intros; apply Hobja|].
    split; [done|]. split; [lia|]. split.
    { rewrite Hla. by eapply up_Some_lt. }
    split.
    { unfold dist. rewrite Hobja; [done|]. intros He. apply Hrs. rewrite <- He. apply root_in_ids. }
    split.
    { intros x Hx. rewrite Hla. by apply Hlt. }
    intros x _. unfold s_a. by autorewrite with arena.
  - (* several: a new node groups them *)
    set (sibs := z :: z' :: sibs') in *.
    assert (Hct : ct = T (length s) sibs) by done. clearbody ct. subst ct.
    destruct (connector_new_run r n (map root sibs) s_a)
      as (s1 & Hrun & Hl1 & Hchr & Hchc & Hupc & Hupo & Hcho & Hdc & Hsc & Hnum).
    { simpl. lia. } { done. } { by rewrite Hla. }
    { intros ch Hc. rewrite Hla. apply Hlt. by apply roots_in_ids. }
    rewrite Hla in *.
    assert (Hcs : length s ∉ flat_map ids sibs).
    { intros H. specialize (Hlt _ H). lia. }
    exists s1. split; [done|].
    assert (Hkid : forall k x, k ∈ sibs -> x ∈ ids k -> x <> r /\ x <> length s).
    { intros k x Hk Hx. split; intros ->.
      - apply Hrs. by eapply ids_kid.
      - apply Hcs. by eapply ids_kid. }
    split.
    { constructor; [done|..].
      - rewrite Forall_forall. intros k Hk. apply Hupc. apply list_elem_of_fmap. by exists k.
      - rewrite Forall_forall. intros k Hk. destruct (Hsibs k Hk) as [Hsk _].
        apply (shape_frame s); [done|..].
        + intros x Hx. destruct (Hkid k x Hk Hx). rewrite Hcho by done.
          unfold children. by rewrite Hobja.
        + intros x Hx. rewrite Hupo, Hupa; [done|].
          intros (k' & He & Hk')%list_elem_of_fmap.
          assert (Hxk : x ∈ ids k) by (destruct k; simpl in *; by right).
          assert (k' = k) as ->.
          { eapply (kids_share sibs); [done|done|done| |done]. rewrite He. apply root_in_ids. }
          pose proof (NoDup_kid sibs k Hnd Hk) as Hndk.
          destruct k as [m ms]. simpl in *. apply NoDup_cons in Hndk as [H0 _]. by subst. }
    split.
    { simpl. by apply NoDup_cons. }
    split.
    { simpl. intros x [->|Hx]%elem_of_cons; [by right|by left]. }
    split.
    { intros x Hxr Hxc. change (x ∉ length s :: flat_map ids sibs) in Hxc.
      apply not_elem_of_cons in Hxc as [Hxc Hxs].
      destruct (Hnum x Hxc) as (Hd & Hsp & Hnm).
      rewrite <- (Hobja x Hxr). apply obj_fields_eq.
      - by apply Hcho.
      - apply Hupo. intros H. apply Hxs. by apply roots_in_ids.
      - done.
      - done.
      - done. }
    split.
    { rewrite Hupo, Hupa; [done|]. intros H. apply Hrs. by apply roots_in_ids. }
    split; [lia|]. split; [simpl; lia|]. split; [done|]. split.
    { simpl. intros x [->|Hx]%elem_of_cons; [lia|]. specialize (Hlt x Hx). lia. }
    intros x Hx. destruct (Hnum x) as (-> & -> & ->); [lia|].
    unfold s_a. by autorewrite with arena.
Qed.

(** *** The rotation along the path *)

Lemma attached_post (s σ σ' s2 : store) (a : node) (bd bs : F) (R : list node) (conn : node) :
  (forall x, x ∈ R ++ [conn] -> obj s2 x = obj σ' x) ->
  attached s σ σ' a bd bs R conn -> attached s σ s2 a bd bs R conn.
Proof.
  revert a bd bs. induction R as [|b R IH]; intros a bd bs Hf H; simpl in *.
  - assert (Hc : obj s2 conn = obj σ' conn) by (apply Hf; by left).
    unfold up, dist, children, support, name_of in *. by rewrite Hc.
  - destruct H as (H1 & H2 & H3 & H4 & H5 & H).
    assert (Hb : obj s2 b = obj σ' b) by (apply Hf; by left).
    unfold up, dist, children, support, name_of in *. rewrite Hb. repeat split; try done.
    apply IH; [|done]. intros x Hx. apply Hf. by right.
Qed.

Lemma attached_conn (s σ σ' : store) (R : list node) (conn : node) :
  forall a bd bs,
    attached s σ σ' a bd bs R conn ->
    children σ' conn = children σ conn /\ support σ' conn = support σ conn /\
    name_of σ' conn = name_of σ conn.
Proof.
  induction R as [|b R IH]; intros a bd bs H; simpl in H.
  - tauto.
  - destruct H as (_ & _ & _ & _ & _ & H). by eapply IH.
Qed.

Lemma attached_names (s σ σ' : store) (R : list node) (conn : node) :
  forall a bd bs,
    attached s σ σ' a bd bs R conn ->
    forall x, x ∈ R -> name_of σ' x = name_of s x.
Proof.
  induction R as [|b R IH]; intros a bd bs H x Hx; [by apply elem_of_nil in Hx|].
  simpl in H. destruct H as (_ & _ & _ & _ & Hn & H).
  apply elem_of_cons in Hx as [->|Hx]; [done|]. by eapply IH.
Qed.

Lemma rerooted_shape (s σ1 s' : store) (ct : tree) (sp : list tree) :
  forall prev bd bs,
    Forall (shape s) sp ->
    hang_ok s' prev sp ->
    attached s σ1 s' (root prev) bd bs (map root sp) (root ct) ->
    shape s' ct ->
    shape s' (rerooted prev sp ct) /\
    up s' (root (rerooted prev sp ct)) = Some (root prev).
Proof.
  induction sp as [|t1 sp IH]; intros prev bd bs Hsh Hhang Hatt Hct.
  - simpl in *. split; [done|]. tauto.
  - apply Forall_cons in Hsh as [Hs1 Hsh]. destruct Hhang as [Hk Hhang].
    simpl in Hatt. destruct Hatt as (Hch & Hup & _ & _ & _ & Hatt).
    destruct (IH t1 _ _ Hsh Hhang Hatt Hct) as [Hsr Hur].
    split; [|done]. simpl rerooted.
    inversion Hs1 as [n ks Hch1 _ _]; subst. simpl in *.
    constructor.
    + rewrite Hch, Hch1, map_app, map_root_filter. simpl. by rewrite root_rerooted.
    + rewrite Forall_forall. intros k [Hin|Hin]%elem_of_app.
      * apply list_elem_of_filter in Hin as [Hne Hin]. by apply Hk.
      * apply list_elem_of_singleton in Hin as ->. done.
    + rewrite Forall_forall. intros k [Hin|Hin]%elem_of_app.
      * apply list_elem_of_filter in Hin as [Hne Hin]. by apply Hk.
      * apply list_elem_of_singleton in Hin as ->. done.
Qed.

Lemma hang_ok_intro (s s' : store) (tm : tree) (o : node) (l : list tree) :
  NoDup (ids tm) -> shape s tm -> path o tm l ->
  (forall y, y ∈ ids tm -> y ∉ map root l -> obj s' y = obj s y) ->
  forall sp prev,
    chain prev sp ->
    (forall t, t ∈ prev :: sp -> subtree t tm /\ o ∈ ids t) ->
    hang_ok s' prev sp.
Proof.
  intros Hnd Hs Hp Hframe. induction sp as [|t1 sp IH]; intros prev Hc Hsub; [done|].
  destruct Hc as [Hprev Hc]. split.
  - intros k Hk Hne.
    destruct (Hsub t1) as [Ht1 Ho1]; [right; by left|].
    destruct (Hsub prev) as [_ Hop]; [by left|].
    pose proof (subtree_NoDup t1 tm Ht1 Hnd) as Hnd1.
    pose proof (subtree_shape s t1 tm Ht1 Hs) as Hs1.
    destruct t1 as [n ks]. simpl in *.
    destruct (shape_kids s n ks k Hs1 Hk) as [Hsk Hupk].
    assert (Hktm : subtree k tm).
    { eapply subtree_trans; [|done]. eapply subtree_kid; [done|constructor]. }
    assert (Hok : o ∉ ids k).
    { intros Hin. apply Hne. apply NoDup_cons in Hnd1 as [_ Hnd1].
      by rewrite (kids_share ks k prev o Hnd1 Hk Hprev Hin Hop). }
    assert (Hobj : forall y, y ∈ ids k -> obj s' y = obj s y).
    { intros y Hy. apply Hframe; [by eapply subtree_ids|]. by eapply off_path. }
    split; [by apply (shape_agree s)|].
    unfold up. rewrite Hobj; [done|apply root_in_ids].
  - apply IH; [done|]. intros t Ht. apply Hsub. by right.
Qed.

Lemma chain_up_intro (s : store) (r : node) (sp : list tree) :
  forall t1,
    chain t1 sp ->
    (forall t, t ∈ sp -> shape s t /\ NoDup (ids t)) ->
    up s (root (default t1 (last sp))) = Some r ->
    chain_up s (root t1) (map root sp) r.
Proof.
  induction sp as [|t2 sp IH]; intros t1 Hc Hall Hlast; [done|].
  destruct Hc as [Hk Hc]. destruct (Hall t2) as [Hs2 Hnd2]; [by left|].
  destruct t2 as [n ks]. simpl in Hk.
  destruct (shape_kids s n ks t1 Hs2 Hk) as [_ Hup1].
  inversion Hs2 as [? ? Hch _ _]; subst. simpl.
  split; [done|]. split.
  { rewrite Hch. apply list_elem_of_fmap. by exists t1. }
  split.
  { rewrite Hch. apply roots_NoDup. simpl in Hnd2. by apply NoDup_cons in Hnd2 as [_ ?]. }
  apply (IH (T n ks)); [done| |].
  - intros t Ht. apply Hall. by right.
  - destruct sp as [|t3 sp]; [done|]. rewrite last_cons_cons in Hlast.
    destruct (proj2 (last_is_Some (t3 :: sp)) ltac:(done)) as [z Hz].
    by rewrite Hz in *.
Qed.

Lemma list_remove_app_l (x : node) (l1 l2 : list node) :
  x ∈ l1 -> list_remove x (l1 ++ l2) = (fun l => l ++ l2) <$> list_remove x l1.
Proof.
  induction l1 as [|y l1 IH]; intros Hx; [by apply elem_of_nil in Hx|].
  simpl. case_decide; [done|].
  apply elem_of_cons in Hx as [?|Hx]; [done|]. rewrite IH by done.
  by destruct (list_remove x l1).
Qed.

(** only the first tree of the path from [o] has a root in the subtree of
    [o] *)
Lemma path_start_only (o : node) (tm t0 : tree) (sp : list tree) (y : node) :
  NoDup (ids tm) -> path o tm (t0 :: sp) -> y ∈ ids t0 -> y ∈ map root (t0 :: sp) ->
  y = o.
Proof.
  intros Hnd Hp Hy Hin.
  destruct (path_head o tm _ Hp) as (c0 & l' & [= <- <-] & Hr).
  destruct (path_subtree o tm _ Hp t0) as [Ht0 _]; [by left|].
  destruct (subtree_at t0 y Hy) as (v & Hv & <-).
  assert (Ho : o ∈ ids v).
  { eapply path_root_holds; [done|done| |done]. by eapply subtree_trans. }
  pose proof (subtree_NoDup t0 tm Ht0 Hnd) as Hnd0.
  destruct t0 as [m ms]. simpl in Hr. subst m.
  by rewrite (subtree_with_root v o ms Hnd0 Hv Ho).
Qed.

Lemma outgroup_swap_phase (fuel : nat) (s s1 : store) (r o : node)
    (tm t0 t1 : tree) (sp : list tree) (ct : tree) :
  shape s tm -> NoDup (ids tm) -> path o tm (t0 :: t1 :: sp) ->
  up s (root tm) = Some r -> r ∉ ids tm ->
  shape s1 ct -> NoDup (ids ct) ->
  (forall x, x ∈ ids ct -> x ∉ ids tm) ->
  (forall x, x ∈ ids tm -> obj s1 x = obj s x) ->
  root ct < length s1 -> length s <= length s1 ->
  length sp <= fuel ->
  exists s2,
    outgroup_swap fuel r o (up s o) (root ct) s1 = (s2, Ok (root t1)) /\
    length s2 = length s1 /\
    shape s2 (rerooted t0 (t1 :: sp) ct) /\ shape s2 t0 /\
    (forall x, x ∉ ids tm -> x <> root ct -> obj s2 x = obj s1 x) /\
    (forall x, x ∈ ids tm -> x ∉ map root (t1 :: sp) -> obj s2 x = obj s x) /\
    dist s2 (root t1) = of_nat 0 /\
    (forall x, name_of s2 x = name_of s1 x).
Proof.
  intros Hs Hnd Hp Hupn Hr Hsct Hndct Hdis Hagree Hcnlt Hlen Hf.
  destruct t1 as [n1 ks1].
  destruct (path_chain o tm _ Hp) as (t0' & sp' & [= <- <-] & Hro & [Hk01 Hc] & Hlast).
  pose proof (path_subtree o tm _ Hp) as Hsubs.
  pose proof (path_roots_NoDup o tm _ Hp Hnd) as Hndr.
  set (x1 := n1). set (R := map root sp). set (cn := root ct).
  assert (Hintm : forall t, t ∈ t0 :: T n1 ks1 :: sp -> root t ∈ ids tm).
  { intros t Ht. destruct (Hsubs t Ht) as [Hsub _].
    eapply subtree_ids; [done|apply root_in_ids]. }
  assert (Hlttm : forall x, x ∈ ids tm -> x < length s1).
  { intros x Hx. pose proof (up_Some_lt s _ _ Hupn).
    pose proof (ids_lt s tm x Hs ltac:(done) Hx). lia. }
  assert (Hcn : cn ∉ ids tm) by (apply Hdis, root_in_ids).
  destruct (Hsubs (T n1 ks1)) as [Ht1 Ho1]; [right; by left|].
  pose proof (subtree_shape s _ tm Ht1 Hs) as Hs1.
  pose proof (subtree_NoDup _ tm Ht1 Hnd) as Hnd1.
  assert (Hupo : up s o = Some x1).
  { rewrite <- Hro. by destruct (shape_kids s n1 ks1 t0 Hs1 Hk01). }
  assert (Hx1r : x1 <> r).
  { intros He. apply Hr. rewrite <- He. apply (Hintm (T n1 ks1)). right. by left. }
  simpl in Hndr. apply NoDup_cons in Hndr as [Ho_nin Hndr]. rewrite Hro in Ho_nin.
  fold x1 R in Hndr, Ho_nin.
  assert (HinR : forall x, x ∈ x1 :: R -> x ∈ ids tm).
  { intros x Hx. assert (Hx' : x ∈ map root (T n1 ks1 :: sp)) by done.
    apply list_elem_of_fmap in Hx' as (t & -> & Ht). apply Hintm. by right. }
  assert (Hnd' : NoDup (x1 :: R ++ [cn])).
  { rewrite app_comm_cons. apply NoDup_app. split; [done|]. split; [|apply NoDup_singleton].
    intros x Hx ->%list_elem_of_singleton. by apply Hcn, HinR. }
  assert (Hchain : chain_up s x1 R r).
  { apply (chain_up_intro s r sp (T n1 ks1)); [done| |].
    - intros t Ht. destruct (Hsubs t) as [Hsub _]; [right; by right|].
      split; [by eapply subtree_shape|by eapply subtree_NoDup].
    - rewrite last_cons_cons in Hlast. clear -Hlast Hupn. destruct sp as [|t2 sp].
      + injection Hlast as <-. done.
      + rewrite last_cons_cons in Hlast. by rewrite Hlast. }
  assert (Hobj1 : forall x, x ∈ x1 :: R -> obj s1 x = obj s x).
  { intros x Hx. by apply Hagree, HinR. }
  set (K := (children_remove x1 o ;; write (set_dist x1 (of_nat 0)) ;; ret x1) : M node).
  destruct (swap_loop_attach s r cn K R x1 s1 None (dist s1 x1) (support s1 x1)
              (fuel - length R))
    as (σ' & Hrun & Hl' & Hframe & Hch1 & Hup1 & Hd1 & Hsp1 & Hnm1 & Hatt).
  { done. }
  { intros Hin. by apply Hr, HinR. }
  { intros x Hx. rewrite app_comm_cons in Hx. apply elem_of_app in Hx as [Hx|Hx].
    - by apply Hlttm, HinR.
    - by apply list_elem_of_singleton in Hx as ->. }
  { done. }
  { unfold up. rewrite Hobj1; [done|by left]. }
  { intros x Hx. apply Hobj1. by right. }
  assert (Hlen' : length R + (fuel - length R) = fuel).
  { unfold R. rewrite length_map. lia. }
  rewrite Hlen' in Hrun.
  assert (Hchs1 : children s x1 = map root ks1) by (by inversion Hs1). simpl in Hk01.
  assert (Hndk : NoDup (map root ks1)).
  { apply roots_NoDup. simpl in Hnd1. by apply NoDup_cons in Hnd1 as [_ ?]. }
  assert (Hoin : o ∈ map root ks1).
  { rewrite <- Hro. apply list_elem_of_fmap. by exists t0. }
  set (h := hd cn R) in *.
  set (newch := filter (fun y => y <> o) (children s x1) ++ [h]).
  assert (Hrm : list_remove o (children σ' x1) = Some newch).
  { rewrite Hch1. unfold children at 1. rewrite Hobj1 by (by left). fold (children s x1).
    unfold newch. rewrite Hchs1. rewrite list_remove_app_l by done.
    by rewrite (list_remove_filter o (map root ks1)). }
  set (s2 := set_dist x1 (of_nat 0) (set_children x1 newch σ')).
  assert (Hx1lt : x1 < length σ').
  { rewrite Hl'. apply Hlttm, HinR. by left. }
  assert (Hobj2 : forall x, x <> x1 -> obj s2 x = obj σ' x).
  { intros x Hx. unfold s2, set_dist, set_children. by rewrite !obj_alter_ne. }
  exists s2. split.
  { unfold outgroup_swap. rewrite Hupo. rewrite decide_False by done. repeat step.
    etrans; [exact Hrun|]. unfold K.
    rewrite (bind_ok _ _ σ' (set_children x1 newch σ') tt).
    - by repeat step.
    - unfold children_remove. by rewrite Hrm. }
  split; [unfold s2; autorewrite with arena; done|].
  assert (Hout : forall x, x ∉ x1 :: R -> x <> cn -> obj s2 x = obj s1 x).
  { intros x Hx Hxc. rewrite Hobj2.
    - apply Hframe. rewrite app_comm_cons. intros [H|H]%elem_of_app; [done|].
      by apply list_elem_of_singleton in H.
    - intros ->. apply Hx. by left. }
  assert (Hoff : forall x, x ∈ ids tm -> x ∉ map root (T n1 ks1 :: sp) -> obj s2 x = obj s x).
  { intros x Hx Hns. rewrite Hout; [by apply Hagree|done|]. by intros ->. }
  assert (Hct2 : shape s2 ct).
  { destruct (attached_conn _ _ _ _ _ _ _ _ Hatt) as (Hcc & _ & _).
    apply (shape_frame s1); [done|..].
    - intros x Hx. destruct (decide (x = cn)) as [->|Hne].
      + unfold children at 1. rewrite Hobj2; [done|]. intros He. apply Hcn.
        rewrite He. apply HinR. by left.
      + unfold children. rewrite Hout; [done| |done]. intros H. by apply (Hdis x), HinR.
    - intros x Hx.
      assert (Hxct : x ∈ ids ct) by (destruct ct; simpl in *; by right).
      unfold up. rewrite Hout; [done| |].
      + intros H. by apply (Hdis x), HinR.
      + intros ->. unfold cn in Hx. destruct ct as [c cs]. simpl in *.
        by apply NoDup_cons in Hndct as [? _]. }
  assert (Hatt2 : attached s s1 s2 x1 (dist s1 x1) (support s1 x1) R cn).
  { apply (attached_post s s1 σ'); [|done]. intros x Hx. apply Hobj2. intros ->.
    by apply NoDup_cons in Hnd' as [? _]. }
  assert (Hhang : hang_ok s2 t0 (T n1 ks1 :: sp)).
  { apply (hang_ok_intro s s2 tm o (t0 :: T n1 ks1 :: sp)); try done.
    intros y Hy Hny. apply Hoff; [done|]. intros H. apply Hny. by right. }
  destruct Hhang as [Hhang1 Hhang].
  destruct (rerooted_shape s s1 s2 ct sp (T n1 ks1) (dist s1 x1) (support s1 x1))
    as [Hsr Hur]; try done.
  { rewrite Forall_forall. intros t Ht. destruct (Hsubs t) as [Hsub _]; [right; by right|].
    by eapply subtree_shape. }
  split.
  { simpl rerooted. constructor.
    - unfold s2. autorewrite with arena. decides.
      unfold newch. rewrite Hchs1, map_app, map_root_filter, Hro. simpl.
      by rewrite root_rerooted.
    - rewrite Forall_forall. intros k [Hin|Hin]%elem_of_app.
      + apply list_elem_of_filter in Hin as [Hne Hin]. by apply Hhang1.
      + apply list_elem_of_singleton in Hin as ->. done.
    - rewrite Forall_forall. intros k [Hin|Hin]%elem_of_app.
      + apply list_elem_of_filter in Hin as [Hne Hin]. by apply Hhang1.
      + apply list_elem_of_singleton in Hin as ->. done. }
  split.
  { destruct (Hsubs t0) as [Ht0 _]; [by left|].
    apply (shape_agree s); [|by eapply subtree_shape].
    intros x Hx. apply Hoff; [by eapply subtree_ids|].
    intros Hin. apply Ho_nin.
    rewrite <- (path_start_only o tm t0 (T n1 ks1 :: sp) x Hnd Hp Hx); [done|].
    by right. }
  split.
  { intros x Hx Hxc. apply Hout; [|done]. intros H. by apply Hx, HinR. }
  split; [done|]. split.
  { unfold s2. autorewrite with arena. by decides. }
  intros x. unfold s2. autorewrite with arena.
  destruct (decide (x = x1)) as [->|Hx1]; [done|].
  destruct (decide (x ∈ R)) as [HxR|HxR].
  { rewrite (attached_names _ _ _ _ _ _ _ _ Hatt x HxR).
    unfold name_of. rewrite Hobj1; [done|by right]. }
  destruct (decide (x = cn)) as [->|Hxc].
  { by destruct (attached_conn _ _ _ _ _ _ _ _ Hatt) as (_ & _ & ?). }
  unfold name_of. rewrite Hframe; [done|].
  rewrite app_comm_cons. intros [H|H]%elem_of_app.
  - by apply elem_of_cons in H as [?|?].
  - by apply list_elem_of_singleton in H.
Qed.


(** ** Farthest leaf *)

Lemma path_snoc (x : node) (t : tree) (l : list tree) :
  path x t l -> exists l0, l = l0 ++ [t].
Proof. intros [ks|n ks k l' _ _]; [by exists []|by exists l']. Qed.

Lemma farthest_loop {O : NumOrd N} (fuel : nat) (s : store) (topo : bool)
    (Inv : option node * F -> Prop) (ks : list tree) :
  Forall (fun k => exists r d,
            get_farthest_leaf fuel s (root k) topo = Ok (r, d) /\
            Inv (r, if topo then fadd d f1 else fadd d (dist s (root k)))) ks ->
  forall acc, Inv acc ->
  exists acc',
    fold_res (fun (acc : option node * F) ch =>
        let? (nd, d) := get_farthest_leaf fuel s ch topo in
        let d := if topo then fadd d f1 else fadd d (dist s ch) in
        if fge d acc.2 then Ok (nd, d) else Ok acc) acc (map root ks) = Ok acc' /\
    Inv acc'.
Proof.
  induction 1 as [|k ks (r & d & Hrun & Hk) _ IH]; intros acc Hacc; simpl.
  - by exists acc.
  - rewrite Hrun. simpl.
    destruct (fge _ _); [by apply IH|by apply IH].
Qed.

(** X30: [get_farthest_leaf] on a tree returns; when the node it reports is not
    [None], that node is a leaf of the tree, and the distance reported is the
    sum, on the way from that leaf up to the node asked, of the branch
    lengths (of as many [1.0] in topology-only mode). *)
Theorem get_farthest_leaf_on_tree {O : NumOrd N} (fuel : nat) (s : store) (t : tree)
    (topo : bool) :
  shape s t -> size t <= fuel ->
  exists r d,
    get_farthest_leaf fuel s (root t) topo = Ok (r, d) /\
    forall x, r = Some x ->
      x ∈ leaves t /\
      exists l, path x t l /\
        d = foldl (fun d y => if topo then fadd d f1 else fadd d (dist s y)) f0
              (map root (removelast l)).
Proof.
  revert fuel. induction t as [n ks IH] using tree_ind'. intros fuel Hs Hf.
  destruct fuel as [|fuel]; [simpl in Hf; lia|].
  inversion Hs as [n' ks' Hch Hup Hks]; subst n' ks'. simpl root.
  cbn [get_farthest_leaf]. unfold is_leaf. rewrite Hch, length_map.
  destruct ks as [|k0 ks0].
  { rewrite bool_decide_eq_true_2 by done. exists (Some n), f0. split; [done|].
    intros x [= <-]. split; [simpl; set_solver|].
    exists [T n []]. split; [constructor|done]. }
  rewrite bool_decide_eq_false_2 by (simpl; lia).
  set (ks := k0 :: ks0) in *.
  set (Inv := fun acc : option node * F =>
    forall x, acc.1 = Some x ->
      exists k l, k ∈ ks /\ x ∈ leaves k /\ path x k l /\
        acc.2 = foldl (fun d y => if topo then fadd d f1 else fadd d (dist s y)) f0
                  (map root l)).
  destruct (farthest_loop fuel s topo Inv ks) with (acc := (@None node, f0))
    as ([r d] & Hrun & Hinv).
  - apply Forall_forall. intros k Hk.
    rewrite Forall_forall in IH, Hks.
    destruct (IH k Hk fuel (Hks k Hk)) as (r & d & Hr & Hrd).
    { pose proof (size_kid ks k Hk).
      change (S (list_sum (map size ks)) <= S fuel) in Hf. lia. }
    exists r, d. split; [done|]. intros x Hx. simpl in Hx.
    destruct (Hrd x Hx) as (Hleaf & l & Hl & ->).
    exists k, l. repeat split; try done. simpl.
    destruct (path_snoc x k l Hl) as (l0 & ->).
    rewrite removelast_last, map_app, foldl_app. simpl.
    by destruct k.
  - by intros x.
  - exists r, d. split; [done|]. intros x ->.
    destruct (Hinv x eq_refl) as (k & l & Hk & Hleaf & Hl & Hd). simpl in Hd.
    split.
    + change (x ∈ flat_map leaves ks). apply elem_of_flat_map. by exists k.
    + exists (l ++ [T n ks]). split; [by apply (path_kid x n ks k l)|].
      by rewrite removelast_last.
Qed.

End Further.

(** * Concrete runs *)


Lemma two_roots_acyclic : acyclic two_roots.
Proof.
  intros x Hx. inversion Hx as [? p Hp|? p ? Hp _]; subst;
    destruct x as [|[|x]]; try discriminate; destruct x; discriminate.
Qed.

Lemma two_roots_no_climb : ~ climbs two_roots 0 1.
Proof. intros Hx. inversion Hx as [? p Hp|? p ? Hp _]; discriminate. Qed.


Lemma set_outgroup_self_witness :
  set_outgroup 9 0 (ByName "r") two_nodes = (two_nodes, Raise ValueError).
Proof. apply (set_outgroup_self 9 two_nodes 0 (ByName "r")). reflexivity. Defined.

(** C4 (defect): the root has one child, which is the outgroup.  Once it is
    removed from the root's children none is left, and [self.children[0]]
    raises IndexError; the root stays childless while the outgroup still
    points up at it. *)
Theorem set_outgroup_only_child :
  set_outgroup 9 0 (ByNode 1) two_nodes
  = ([ fnode [] None 1 1 "r"; fnode [] (Some 0) 1 1 "o" ], Raise IndexError).
Proof. reflexivity. Qed.

(** The same method on [((D),C)] with the outgroup [D]: the root ends with
    the two children [D] and the former parent of [D], each at half of
    0.0 + 1.0. *)
Example set_outgroup_two_children :
  exists s',
    set_outgroup 9 0 (ByNode 3) with_unary = (s', Ok tt) /\
    children s' 0 = [1; 3] /\ children s' 1 = [2] /\
    dist s' 1 = 0.5%float /\ dist s' 3 = 0.5%float /\
    support s' 1 = support with_unary 3.
Proof. eexists. split; [vm_compute; reflexivity|]. by vm_compute. Qed.

(** C7: the parentless node keeps its child after [delete]. *)
Lemma delete_root_keeps_children :
  up two_nodes 0 = None /\
  children (delete 9 0 true two_nodes).1 0 <> [].
Proof. split; [reflexivity|]. vm_compute. discriminate. Qed.

Lemma delete_parentless_witness :
  delete 9 0 true two_nodes = (two_nodes, Ok tt).
Proof. apply (delete_parentless 9 two_nodes 0 true). reflexivity. Defined.

Lemma traverse_unknown_strategy_witness :
  traverse 9 two_nodes 0 "inorder" = None /\
  get_descendants 9 two_nodes 0 "inorder" = Raise TypeError.
Proof.
  apply (traverse_unknown_strategy 9 two_nodes 0 "inorder"); discriminate.
Defined.

Lemma cherry_wf : wf cherry cherry_tree.
Proof.
  split; [|split].
  - repeat constructor.
  - unfold cherry_tree. simpl. by apply (bool_decide_unpack _).
  - intros x _. discriminate.
Qed.



(** Rational arithmetic is exact. *)
Lemma Qc_exact : ExactNum Qc_num.
Proof.
  split; simpl; intros.
  - apply Qcplus_comm.
  - apply Qcplus_assoc.
  - apply Qcplus_0_l.
  - ring.
  - ring.
  - ring.
  - ring.
  - by apply Qc_is_canon.
  - replace (Q2Qc (inject_Z (Z.of_nat 1))) with 1%Qc by (by apply Qc_is_canon).
    unfold Qcdiv. replace (/ 1)%Qc with 1%Qc by (by apply Qc_is_canon). ring.
Qed.

Lemma cherry_q_wf : wf cherry_q cherry_tree.
Proof.
  split; [|split].
  - repeat constructor.
  - unfold cherry_tree. simpl. by apply (bool_decide_unpack _).
  - intros x _. discriminate.
Qed.




Lemma cherry_leaves_apart : ~ climbs cherry 1 2 /\ ~ climbs cherry 2 1.
Proof.
  split; intros H; inversion H as [? ? Hp|? p ? Hp H']; subst; try discriminate;
    injection Hp as <-; inversion H'; discriminate.
Qed.


(** C9: with a target in another tree the method returns [None] and raises
    nothing; and called on a node that does not hold all the targets it
    climbs past that node and returns an ancestor of it. *)
Lemma get_common_ancestor_not_contained :
  get_common_ancestor 9 two_roots 0 [ByNode 1] = Ok None /\
  get_descendants 9 with_unary 1 "levelorder" = Ok [3] /\
  get_common_ancestor 9 with_unary 1 [ByNode 2; ByNode 3] = Ok (Some 0).
Proof. by vm_compute. Qed.

Lemma get_common_ancestor_nearest_witness :
  exists r,
    get_common_ancestor 9 cherry 0 (map ByNode [1; 2]) = Ok r /\
    match r with
    | Some c =>
        exists u, subtree u cherry_tree /\ root u = c /\
                  (forall x, x ∈ [1; 2] -> x ∈ ids u) /\
                  forall v, subtree v cherry_tree -> (forall x, x ∈ [1; 2] -> x ∈ ids v) ->
                            subtree u v
    | None => ~ forall x, x ∈ [1; 2] -> x ∈ ids cherry_tree
    end.
Proof.
  apply (@get_common_ancestor_nearest float_num 9 cherry cherry_tree 0 [1; 2] 2).
  - exact cherry_wf.
  - reflexivity.
  - reflexivity.
  - by apply (bool_decide_unpack _).
  - simpl. lia.
  - simpl. lia.
Defined.

(** * Further concrete runs *)

Lemma two_nodes_wf : wf two_nodes two_nodes_tree.
Proof.
  split; [|split].
  - repeat constructor.
  - unfold two_nodes_tree. simpl. by apply (bool_decide_unpack _).
  - intros x _. discriminate.
Qed.

Lemma with_unary_wf : wf with_unary with_unary_tree.
Proof.
  split; [|split].
  - repeat constructor.
  - unfold with_unary_tree. simpl. by apply (bool_decide_unpack _).
  - intros x _. discriminate.
Qed.

Lemma lopsided_wf : wf lopsided lopsided_tree.
Proof.
  split; [|split].
  - repeat constructor.
  - unfold lopsided_tree. simpl. by apply (bool_decide_unpack _).
  - intros x _. discriminate.
Qed.

Lemma two_roots_wf (n : nat) : n < 2 -> wf two_roots (T n []).
Proof.
  intros Hn. split; [|split].
  - destruct n as [|[|n]]; [repeat constructor..|lia].
  - simpl. apply NoDup_singleton.
  - intros x _. destruct n as [|[|n]]; [discriminate..|lia].
Qed.

Lemma traverse_levelorder_complete_witness :
  exists l,
    traverse 9 cherry 0 "levelorder" = Some (Ok (0 :: l)) /\
    0 :: l ≡ₚ ids cherry_tree /\ NoDup (0 :: l) /\ parents_first cherry [0] l.
Proof.
  apply (@traverse_levelorder_complete float_num 9 cherry cherry_tree).
  - apply cherry_wf.
  - apply cherry_wf.
  - simpl. lia.
Defined.

Lemma postorder_visits_once_witness :
  exists l,
    traverse 9 cherry 0 "postorder" = Some (Ok l) /\ l ≡ₚ ids cherry_tree /\ NoDup l /\
    forall u, subtree u cherry_tree ->
      exists l1 l2, l = l1 ++ (flat_map post (kids u) ++ [root u]) ++ l2.
Proof.
  apply (@postorder_visits_once float_num cherry cherry_tree 9).
  - exact cherry_wf.
  - simpl. lia.
Defined.

Lemma contains_descendants_witness :
  __contains__ 9 cherry 0 (ByNode 1) = Ok (bool_decide (1 ∈ flat_map ids (kids cherry_tree))) /\
  __contains__ 9 cherry 0 (ByNode 0) = Ok false /\
  __contains__ 9 cherry 0 (ByName "A")
  = Ok (bool_decide ("A"%string ∈ map (name_of cherry) (flat_map ids (kids cherry_tree)))).
Proof.
  apply (@contains_descendants float_num 9 cherry cherry_tree 1 "A").
  - apply cherry_wf.
  - apply cherry_wf.
  - simpl. lia.
Defined.

Lemma search_nodes_complete_witness :
  exists l,
    search_nodes 9 cherry 0 "A" = Ok l /\ NoDup l /\
    forall x, x ∈ l <-> x ∈ ids cherry_tree /\ name_of cherry x = "A"%string.
Proof.
  apply (@search_nodes_complete float_num 9 cherry cherry_tree "A").
  - apply cherry_wf.
  - apply cherry_wf.
  - simpl. lia.
Defined.

Lemma translate_nodes_by_name_witness :
  _translate_nodes 9 cherry 0 [ByName "A"] =
  match filter (fun y => name_of cherry y = "A"%string) (ids cherry_tree) with
  | [x] => Ok (Single x)
  | _ => Raise ValueError
  end.
Proof.
  apply (@translate_nodes_by_name float_num 9 cherry cherry_tree "A").
  - apply cherry_wf.
  - simpl. lia.
Defined.

Lemma and_finds_name_witness :
  match __and__ 9 cherry 0 "B" with
  | Ok x => x ∈ ids cherry_tree /\ name_of cherry x = "B"%string
  | Raise e => e = ValueError /\ forall x, x ∈ ids cherry_tree -> name_of cherry x <> "B"%string
  | OutOfFuel => False
  end.
Proof.
  apply (@and_finds_name float_num 9 cherry cherry_tree "B").
  - apply cherry_wf.
  - simpl. lia.
Defined.

Lemma get_leaves_by_name_complete_witness :
  exists l,
    get_leaves_by_name 9 cherry 0 "A" = Ok l /\
    l ≡ₚ filter (fun y => name_of cherry y = "A"%string) (leaves cherry_tree).
Proof.
  apply (@get_leaves_by_name_complete float_num 9 cherry cherry_tree "A").
  - apply cherry_wf.
  - simpl. lia.
Defined.

Lemma get_tree_root_of_tree_witness : get_tree_root 9 lopsided 4 = Ok 0.
Proof.
  apply (@get_tree_root_of_tree float_num 9 lopsided lopsided_tree 4).
  - apply lopsided_wf.
  - reflexivity.
  - by apply (bool_decide_unpack _).
  - simpl. lia.
Defined.

Lemma detach_splits_witness :
  exists s',
    detach 3 lopsided = (s', Ok 3) /\
    wf s' (T 0 [T 1 [T 2 []]]) /\ wf s' (T 3 [T 4 []]) /\ up s' 3 = None /\
    forall x, dist s' x = dist lopsided x /\ support s' x = support lopsided x /\
              name_of s' x = name_of lopsided x.
Proof.
  apply (@detach_splits float_num lopsided lopsided_tree (T 0 [T 1 [T 2 []]])
           1 [T 2 []] [] (T 3 [T 4 []])).
  - exact lopsided_wf.
  - apply (replaced_kid _ _ 0 [] _ _ []). apply replaced_here.
Defined.

Lemma delete_elides_witness :
  exists s',
    delete 9 3 true lopsided = (s', Ok tt) /\
    wf s' (T 0 [T 1 [T 2 []; T 4 []]]) /\ up s' 3 = None /\
    forall x, dist s' x = dist lopsided x /\ support s' x = support lopsided x /\
              name_of s' x = name_of lopsided x.
Proof.
  apply (@delete_elides float_num 9 lopsided lopsided_tree (T 0 [T 1 [T 2 []; T 4 []]])
           1 3 [T 2 []] [] [T 4 []] true).
  - exact lopsided_wf.
  - apply (replaced_kid _ _ 0 [] _ _ []). apply replaced_here.
  - simpl. lia.
  - right. left. simpl. lia.
Defined.

Lemma delete_cascades_witness :
  exists s'',
    delete 9 3 true with_unary = (s'', Ok tt) /\ wf s'' (T 0 [T 2 []]) /\ up s'' 1 = None.
Proof.
  apply (@delete_cascades float_num 9 with_unary with_unary_tree (T 0 [T 1 []; T 2 []])
           (T 0 [T 2 []]) 0 1 3 [] [T 2 []] [] [] []).
  - exact with_unary_wf.
  - apply (replaced_kid _ _ 0 [] _ _ [T 2 []]). apply replaced_here.
  - apply replaced_here.
  - simpl. lia.
  - lia.
Defined.

Lemma unroot_elides_child_witness :
  exists s',
    unroot 9 0 with_unary = (s', Ok tt) /\
    wf s' (if decide (kids (T 1 [T 3 []]) = [])
           then T 0 (T 1 [T 3 []] :: kids (T 2 []))
           else T 0 (T 2 [] :: kids (T 1 [T 3 []]))) /\
    up s' 0 = None /\
    forall x, dist s' x = dist with_unary x.
Proof.
  apply (@unroot_elides_child float_num 9 with_unary 0 (T 1 [T 3 []]) (T 2 [])).
  - exact with_unary_wf.
  - reflexivity.
  - by left.
  - simpl. lia.
  - simpl. lia.
Defined.

Lemma unroot_refusals_witness :
  (1 ∈ flat_map ids (kids cherry_tree) -> unroot 9 1 cherry = (cherry, Raise NameError)) /\
  (Forall (fun k => kids k = []) (kids cherry_tree) -> length (kids cherry_tree) = 2 ->
   unroot 9 (root cherry_tree) cherry = (cherry, Raise TreeError)) /\
  (length (kids cherry_tree) <> 2 -> unroot 9 (root cherry_tree) cherry = (cherry, Ok tt)).
Proof.
  apply (@unroot_refusals float_num 9 cherry cherry_tree 1).
  - apply cherry_wf.
  - reflexivity.
Defined.

Lemma add_child_grafts_witness :
  exists s',
    add_child (N := float_num) 0 (Some 1) None (Some 2%float) None two_roots = (s', Ok 1) /\
    wf s' (T 0 [T 1 []]) /\
    dist s' 1 = default (dist two_roots 1) (Some (2%float : @F float_num)) /\
    support s' 1 = default (support two_roots 1) None /\
    name_of s' 1 = default (name_of two_roots 1) None /\
    forall x, x <> 1 ->
      dist s' x = dist two_roots x /\ support s' x = support two_roots x /\
      name_of s' x = name_of two_roots x.
Proof.
  apply (@add_child_grafts float_num two_roots (T 0 []) (T 0 [T 1 []]) (T 1 []) 0 []
           None (Some 2%float) None).
  - apply two_roots_wf. lia.
  - reflexivity.
  - simpl. lia.
  - apply (two_roots_wf 1). lia.
  - apply NoDup_singleton.
  - simpl. lia.
  - intros x Hx Hx'. simpl in *.
    apply list_elem_of_singleton in Hx. apply list_elem_of_singleton in Hx'. congruence.
  - apply replaced_here.
Defined.

Lemma add_child_new_witness :
  exists s',
    add_child 1 None (Some "C"%string) None None cherry = (s', Ok 3) /\
    wf s' (T 0 [T 1 [T 3 []]; T 2 []]) /\
    dist s' 3 = default f1 None /\
    support s' 3 = default f1 None /\
    name_of s' 3 = default "NoName"%string (Some "C"%string) /\
    forall x, x <> 3 ->
      dist s' x = dist cherry x /\ support s' x = support cherry x /\
      name_of s' x = name_of cherry x.
Proof.
  apply (@add_child_new float_num cherry cherry_tree (T 0 [T 1 [T 3 []]; T 2 []]) 1 []
           (Some "C"%string) None None).
  - exact cherry_wf.
  - reflexivity.
  - simpl. lia.
  - apply (replaced_kid _ _ 0 [] _ _ [T 2 []]). apply replaced_here.
Defined.

Lemma add_child_keeps_former_parent_witness :
  exists s',
    add_child 2 (Some 1) None None None cherry = (s', Ok 1) /\
    1 ∈ children s' 0 /\ 1 ∈ children s' 2 /\ up s' 1 = Some 2.
Proof.
  apply (@add_child_keeps_former_parent float_num cherry 2 0 1 None None None).
  - by apply (bool_decide_unpack _).
  - reflexivity.
  - lia.
  - simpl. lia.
Defined.

Lemma add_then_remove_child_witness :
  (add_child 0 (Some 1) None None None ;; remove_child 0 1) two_roots = (two_roots, Ok 1).
Proof.
  apply (@add_then_remove_child float_num two_roots 0 1).
  - simpl. lia.
  - reflexivity.
  - by apply (bool_decide_unpack _).
Defined.

Lemma add_trees_witness :
  exists s',
    __add__ 0 1 two_roots = (s', Ok 2) /\
    wf s' (T 2 [T 0 []; T 1 []]) /\ up s' 2 = None /\
    dist s' 2 = f1 /\ support s' 2 = f1 /\
    forall x, x <> 2 ->
      dist s' x = dist two_roots x /\ support s' x = support two_roots x /\
      name_of s' x = name_of two_roots x.
Proof.
  apply (@add_trees float_num two_roots (T 0 []) (T 1 [])).
  - apply two_roots_wf. lia.
  - apply two_roots_wf. lia.
  - simpl. lia.
  - simpl. lia.
  - intros x Hx Hx'. simpl in *.
    apply list_elem_of_singleton in Hx. apply list_elem_of_singleton in Hx'. congruence.
Defined.

Lemma add_sister_new_witness :
  add_sister 0 None None None cherry = (cherry, Raise TreeError) /\
  exists s',
    add_sister 1 None None None cherry = (s', Ok 3) /\
    wf s' (T 0 [T 1 []; T 2 []; T 3 []]) /\
    dist s' 3 = default f1 None /\ support s' 3 = f1.
Proof.
  apply (@add_sister_new float_num cherry cherry_tree (T 0 [T 1 []; T 2 []; T 3 []])
           0 [T 1 []; T 2 []] (T 1 []) None None).
  - exact cherry_wf.
  - reflexivity.
  - simpl. lia.
  - apply replaced_here.
  - by left.
Defined.

Lemma swap_children_reverses_witness :
  exists s',
    swap_children 0 cherry = (s', Ok tt) /\ wf s' (T 0 [T 2 []; T 1 []]) /\
    (swap_children 0 ;; swap_children 0) cherry = (cherry, Ok tt).
Proof.
  apply (@swap_children_reverses float_num cherry cherry_tree (T 0 [T 2 []; T 1 []])
           0 [T 1 []; T 2 []]).
  - exact cherry_wf.
  - apply replaced_here.
Defined.

Lemma cherry_leaves_no_climb : ~ climbs cherry 2 1.
Proof.
  intros H. inversion H as [? p Hp|? p ? Hp Hc]; subst; [discriminate|].
  injection Hp as <-. inversion Hc; discriminate.
Qed.

Lemma set_outgroup_not_below_witness :
  set_outgroup 9 1 (ByNode 2) cherry = (cherry, Raise AttributeError).
Proof.
  apply (@set_outgroup_not_below float_num 9 cherry cherry_tree 1 2).
  - apply cherry_wf.
  - reflexivity.
  - by apply (bool_decide_unpack _).
  - lia.
  - exact cherry_leaves_no_climb.
  - simpl. lia.
Defined.


Lemma with_unary_path : path 3 (T 1 [T 3 []]) [T 3 []; T 1 [T 3 []]].
Proof. apply (path_kid 3 1 [T 3 []] (T 3 []) [T 3 []]); [by left|apply path_here]. Qed.


Lemma get_common_ancestor_of_descendant_witness :
  get_common_ancestor 9 lopsided 0 [ByNode 1; ByNode 4] = Ok (Some 1) /\
  get_common_ancestor 9 lopsided 0 [ByNode 4; ByNode 1] = Ok (Some 1) /\
  get_common_ancestor 9 lopsided 1 [ByNode 4] = Ok (Some 1).
Proof.
  apply (@get_common_ancestor_of_descendant float_num 9 lopsided lopsided_tree
           (T 1 [T 2 []; T 3 [T 4 []]]) 0 4).
  - exact lopsided_wf.
  - reflexivity.
  - apply (subtree_kid _ 0 [T 1 [T 2 []; T 3 [T 4 []]]] (T 1 [T 2 []; T 3 [T 4 []]])).
    + by left.
    + apply subtree_here.
  - by apply (bool_decide_unpack _).
  - simpl. lia.
Defined.

Lemma lopsided_path :
  path 4 (T 1 [T 2 []; T 3 [T 4 []]]) [T 4 []; T 3 [T 4 []]; T 1 [T 2 []; T 3 [T 4 []]]].
Proof.
  apply (path_kid 4 1 [T 2 []; T 3 [T 4 []]] (T 3 [T 4 []]) [T 4 []; T 3 [T 4 []]]).
  - right. by left.
  - apply (path_kid 4 3 [T 4 []] (T 4 []) [T 4 []]); [by left|apply path_here].
Qed.

Lemma get_distance_lineage_witness :
  get_distance 9 lopsided 0 (ByNode 1) (Some (ByNode 4)) false
    = Ok (foldl (fun d x => fadd d (dist lopsided x)) f0 [4; 3]) /\
  get_distance 9 lopsided 0 (ByNode 4) (Some (ByNode 1)) false
    = Ok (foldl (fun d x => fadd d (dist lopsided x)) f0 [4; 3]) /\
  get_distance 9 lopsided 0 (ByNode 1) (Some (ByNode 4)) true = Ok (count_up 2) /\
  get_distance 9 lopsided 0 (ByNode 4) (Some (ByNode 1)) true = Ok (count_up 1).
Proof.
  apply (@get_distance_lineage float_num 9 lopsided lopsided_tree
           (T 1 [T 2 []; T 3 [T 4 []]]) 0 4
           [T 4 []; T 3 [T 4 []]; T 1 [T 2 []; T 3 [T 4 []]]]).
  - exact lopsided_wf.
  - reflexivity.
  - apply (subtree_kid _ 0 [T 1 [T 2 []; T 3 [T 4 []]]] (T 1 [T 2 []; T 3 [T 4 []]])).
    + by left.
    + apply subtree_here.
  - exact lopsided_path.
  - simpl. lia.
Defined.


Lemma convert_to_ultrametric_keeps_topology_witness :
  exists s',
    convert_to_ultrametric (N := float_num) 9 0 3%float "balanced" cherry = (s', Ok tt) /\
    (forall z, children s' z = children cherry z /\ up s' z = up cherry z /\
               support s' z = support cherry z /\ name_of s' z = name_of cherry z) /\
    dist s' 0 = dist cherry 0 /\
    (forall z, z ∉ ids cherry_tree -> dist s' z = dist cherry z) /\
    ("balanced"%string <> "balanced"%string -> "balanced"%string <> "fixed"%string ->
     s' = cherry).
Proof.
  apply (@convert_to_ultrametric_keeps_topology float_num 9 cherry cherry_tree
           3%float "balanced").
  - exact cherry_wf.
  - simpl. lia.
Defined.

Lemma unlink_keeps_acyclic_witness :
  acyclic (remove_child 0 1 two_roots).1 /\ acyclic (detach 1 two_roots).1.
Proof.
  apply (@unlink_keeps_acyclic float_num two_roots 0 1).
  exact two_roots_acyclic.
Defined.

Lemma get_farthest_leaf_on_tree_witness :
  exists r d,
    get_farthest_leaf (O := float_ord) 9 cherry 0 false = Ok (r, d) /\
    forall x, r = Some x ->
      x ∈ leaves cherry_tree /\
      exists l, path x cherry_tree l /\
        d = foldl (fun d y => if false then fadd d f1 else fadd d (dist cherry y)) f0
              (map root (removelast l)).
Proof.
  apply (@get_farthest_leaf_on_tree float_num float_ord 9 cherry cherry_tree false).
  - exact (proj1 cherry_wf).
  - simpl. lia.
Defined.
